(** * Cross-reference subsystem of the EPUB reader plugin

    A shallow embedding of the range-token codec ([utils.ts]), the link
    parser, the backlink resolver ([BacklinkManager.ts]), the highlight
    reconciler and jump controller ([EpubReader.tsx]) and the progress
    store ([EpubPlugin.ts]), with the properties the specification states
    about them; and of the code around them: the sanitizers of labels and
    file names, the link and the note of a selection, the colours of the
    highlights ([EpubReader.tsx]), the one-shot jump of the view
    ([EpubView.tsx]) and the migration of a renamed folder
    ([EpubPlugin.ts]).

    JavaScript strings are sequences of UTF-16 code units; they are
    modelled as lists of integers.  Platform functions the code calls
    ([TextEncoder], [TextDecoder], [btoa], [atob], [decodeURIComponent])
    follow the WHATWG Encoding / HTML standards and ECMA-262. *)

From Stdlib Require Import ZArith ZifyNat Lia List Bool String Ascii Permutation.
From stdpp Require Import base option list gmap.

Local Open Scope Z_scope.

(** ** JavaScript values *)

Definition jsstring := list Z.

(** A string literal of the source, as code units. *)
Definition lit (s : string) : jsstring :=
  map (fun a => Z.of_nat (nat_of_ascii a)) (list_ascii_of_string s).

(** The code unit of a one-character literal. *)
Definition chr (a : ascii) : Z := Z.of_nat (nat_of_ascii a).

Definition code_unit (c : Z) : bool := (0 <=? c) && (c <? 65536).

(** Exceptions a platform call can raise. *)
Inductive JsError := InvalidCharacterError | URIError | TypeError.

Inductive result (A : Type) : Type :=
| Ok (a : A)
| Throw (e : JsError).
Arguments Ok {A} a.
Arguments Throw {A} e.

Definition rbind {A B} (r : result A) (k : A -> result B) : result B :=
  match r with
  | Ok a => k a
  | Throw e => Throw e
  end.

Notation "x <-! r ;; k" := (rbind r (fun x => k))
  (at level 100, r at next level, right associativity).

(** [try { ... } catch { ... }] *)
Definition try_catch {A} (r : result A) (handler : JsError -> A) : A :=
  match r with
  | Ok a => a
  | Throw e => handler e
  end.

Definition is_throw {A} (r : result A) : bool :=
  match r with Ok _ => false | Throw _ => true end.

(** ** Platform: UTF-16 and UTF-8 *)

Module Unicode.

Definition is_high_surrogate (c : Z) : bool := (0xD800 <=? c) && (c <=? 0xDBFF).
Definition is_low_surrogate (c : Z) : bool := (0xDC00 <=? c) && (c <=? 0xDFFF).
Definition is_surrogate (c : Z) : bool := (0xD800 <=? c) && (c <=? 0xDFFF).

Definition replacement : Z := 0xFFFD.
Definition byte_order_mark : Z := 0xFEFF.

(** Conversion of a JavaScript string to scalar values (WebIDL USVString):
    a surrogate pair is one code point, a lone surrogate becomes U+FFFD. *)
Fixpoint to_scalar_values (s : jsstring) : list Z :=
  match s with
  | [] => []
  | c :: tl =>
      if is_high_surrogate c then
        match tl with
        | d :: tl' =>
            if is_low_surrogate d
            then (0x10000 + Z.shiftl (c - 0xD800) 10 + (d - 0xDC00)) :: to_scalar_values tl'
            else replacement :: to_scalar_values tl
        | [] => [replacement]
        end
      else if is_low_surrogate c then replacement :: to_scalar_values tl
      else c :: to_scalar_values tl
  end.

(** A code point as UTF-16 code units. *)
Definition code_units_of (cp : Z) : jsstring :=
  if cp <? 0x10000 then [cp]
  else [0xD800 + Z.shiftr (cp - 0x10000) 10; 0xDC00 + Z.land (cp - 0x10000) 0x3FF].

Definition of_code_points (cps : list Z) : jsstring :=
  concat (map code_units_of cps).

(** The UTF-8 encoder of the Encoding standard, one code point. *)
Definition utf8_encode_cp (cp : Z) : list Z :=
  if cp <=? 0x7F then [cp]
  else if cp <=? 0x7FF then
    [Z.shiftr cp 6 + 0xC0; Z.lor 0x80 (Z.land cp 0x3F)]
  else if cp <=? 0xFFFF then
    [Z.shiftr cp 12 + 0xE0;
     Z.lor 0x80 (Z.land (Z.shiftr cp 6) 0x3F);
     Z.lor 0x80 (Z.land cp 0x3F)]
  else
    [Z.shiftr cp 18 + 0xF0;
     Z.lor 0x80 (Z.land (Z.shiftr cp 12) 0x3F);
     Z.lor 0x80 (Z.land (Z.shiftr cp 6) 0x3F);
     Z.lor 0x80 (Z.land cp 0x3F)].

Definition utf8_encode (cps : list Z) : list Z :=
  concat (map utf8_encode_cp cps).

(** The UTF-8 decoder of the Encoding standard: a state machine over bytes
    that emits code points and errors. *)
Record utf8_state := {
  code_point : Z;
  bytes_seen : Z;
  bytes_needed : Z;
  lower_boundary : Z;
  upper_boundary : Z
}.

Definition utf8_init : utf8_state :=
  {| code_point := 0; bytes_seen := 0; bytes_needed := 0;
     lower_boundary := 0x80; upper_boundary := 0xBF |}.

Inductive decoded := CodePoint (cp : Z) | DecodeError.

Definition in_range (lo hi b : Z) : bool := (lo <=? b) && (b <=? hi).

(** A byte read while no sequence is open. *)
Definition utf8_lead (b : Z) : utf8_state * list decoded :=
  if in_range 0x00 0x7F b then (utf8_init, [CodePoint b])
  else if in_range 0xC2 0xDF b then
    ({| code_point := Z.land b 0x1F; bytes_seen := 0; bytes_needed := 1;
        lower_boundary := 0x80; upper_boundary := 0xBF |}, [])
  else if in_range 0xE0 0xEF b then
    ({| code_point := Z.land b 0xF; bytes_seen := 0; bytes_needed := 2;
        lower_boundary := if b =? 0xE0 then 0xA0 else 0x80;
        upper_boundary := if b =? 0xED then 0x9F else 0xBF |}, [])
  else if in_range 0xF0 0xF4 b then
    ({| code_point := Z.land b 0x7; bytes_seen := 0; bytes_needed := 3;
        lower_boundary := if b =? 0xF0 then 0x90 else 0x80;
        upper_boundary := if b =? 0xF4 then 0x8F else 0xBF |}, [])
  else (utf8_init, [DecodeError]).

Definition utf8_step (st : utf8_state) (b : Z) : utf8_state * list decoded :=
  if bytes_needed st =? 0 then utf8_lead b
  else if negb (in_range (lower_boundary st) (upper_boundary st) b) then
    (* the sequence is broken: report it and read the byte again *)
    let '(st', out) := utf8_lead b in (st', DecodeError :: out)
  else
    let cp := Z.lor (Z.shiftl (code_point st) 6) (Z.land b 0x3F) in
    let seen := bytes_seen st + 1 in
    if seen =? bytes_needed st then (utf8_init, [CodePoint cp])
    else ({| code_point := cp; bytes_seen := seen;
             bytes_needed := bytes_needed st;
             lower_boundary := 0x80; upper_boundary := 0xBF |}, []).

Fixpoint utf8_run (st : utf8_state) (bytes : list Z) : list decoded :=
  match bytes with
  | [] => if bytes_needed st =? 0 then [] else [DecodeError]
  | b :: tl => let '(st', out) := utf8_step st b in out ++ utf8_run st' tl
  end.

Definition utf8_decode (bytes : list Z) : list decoded := utf8_run utf8_init bytes.

Definition is_code_point (d : decoded) : bool :=
  match d with CodePoint _ => true | DecodeError => false end.

(** The bytes are well-formed UTF-8 when decoding reports no error. *)
Definition utf8_valid (bytes : list Z) : bool := forallb is_code_point (utf8_decode bytes).

(** Error mode "replacement" (a decoder that is not [fatal]). *)
Definition with_replacement (d : decoded) : Z :=
  match d with CodePoint cp => cp | DecodeError => replacement end.

(** The decoder drops a byte order mark that comes first
    ([ignoreBOM] is false by default). *)
Definition strip_bom (cps : list Z) : list Z :=
  match cps with
  | cp :: tl => if cp =? byte_order_mark then tl else cps
  | [] => []
  end.

End Unicode.

(** [new TextEncoder().encode(input)] *)
Definition TextEncoder_encode (input : jsstring) : list Z :=
  Unicode.utf8_encode (Unicode.to_scalar_values input).

(** [new TextDecoder().decode(bytes)]: UTF-8, not fatal, BOM not ignored. *)
Definition TextDecoder_decode (bytes : list Z) : jsstring :=
  Unicode.of_code_points
    (Unicode.strip_bom (map Unicode.with_replacement (Unicode.utf8_decode bytes))).

(** ** Platform: base64 ([btoa] and [atob]) *)

Module Base64.

Definition alphabet : jsstring :=
  lit "ABCDEFGHIJKLMNOPQRSTUVWXYZabcdefghijklmnopqrstuvwxyz0123456789+/".

Definition char_of_sextet (i : Z) : Z := nth (Z.to_nat i) alphabet 0.

Fixpoint index_from (i : Z) (c : Z) (l : list Z) : option Z :=
  match l with
  | [] => None
  | x :: tl => if x =? c then Some i else index_from (i + 1) c tl
  end.

Definition sextet_of_char (c : Z) : option Z := index_from 0 c alphabet.

Definition pad : Z := chr "=".

Fixpoint sextets_of_bytes (bytes : list Z) : list Z :=
  match bytes with
  | a :: b :: c :: tl =>
      Z.shiftr a 2
      :: Z.lor (Z.shiftl (Z.land a 3) 4) (Z.shiftr b 4)
      :: Z.lor (Z.shiftl (Z.land b 15) 2) (Z.shiftr c 6)
      :: Z.land c 63
      :: sextets_of_bytes tl
  | [a; b] =>
      [Z.shiftr a 2;
       Z.lor (Z.shiftl (Z.land a 3) 4) (Z.shiftr b 4);
       Z.shiftl (Z.land b 15) 2]
  | [a] => [Z.shiftr a 2; Z.shiftl (Z.land a 3) 4]
  | [] => []
  end.

(** RFC 4648 encoding with padding. *)
Definition encode (bytes : list Z) : jsstring :=
  map char_of_sextet (sextets_of_bytes bytes)
  ++ repeat pad ((3 - length bytes mod 3) mod 3)%nat.

(** Groups of four sextets give three bytes; of a last group of three
    sextets the low two bits are discarded, of a last group of two the
    low four. *)
Fixpoint bytes_of_sextets (s : list Z) : list Z :=
  match s with
  | a :: b :: c :: d :: tl =>
      Z.lor (Z.shiftl a 2) (Z.shiftr b 4)
      :: Z.lor (Z.shiftl (Z.land b 15) 4) (Z.shiftr c 2)
      :: Z.lor (Z.shiftl (Z.land c 3) 6) d
      :: bytes_of_sextets tl
  | [a; b; c] =>
      [Z.lor (Z.shiftl a 2) (Z.shiftr b 4);
       Z.lor (Z.shiftl (Z.land b 15) 4) (Z.shiftr c 2)]
  | [a; b] => [Z.lor (Z.shiftl a 2) (Z.shiftr b 4)]
  | _ => []
  end.

Definition is_ascii_whitespace (c : Z) : bool :=
  (c =? 0x09) || (c =? 0x0A) || (c =? 0x0C) || (c =? 0x0D) || (c =? 0x20).

(** Removes one or two [=] at the end. *)
Definition strip_padding (data : jsstring) : jsstring :=
  match rev data with
  | p :: q :: tl' =>
      if p =? pad then (if q =? pad then rev tl' else rev (q :: tl')) else data
  | [p] => if p =? pad then [] else data
  | [] => []
  end.

Fixpoint sextets_of_chars (data : jsstring) : option (list Z) :=
  match data with
  | [] => Some []
  | c :: tl =>
      match sextet_of_char c, sextets_of_chars tl with
      | Some i, Some l => Some (i :: l)
      | _, _ => None
      end
  end.

(** The forgiving-base64 decode of the Infra standard. *)
Definition forgiving_decode (data : jsstring) : option (list Z) :=
  let data := filter (fun c => negb (is_ascii_whitespace c)) data in
  let data := if (length data mod 4 =? 0)%nat then strip_padding data else data in
  if (length data mod 4 =? 1)%nat then None
  else
    match sextets_of_chars data with
    | None => None
    | Some s => Some (bytes_of_sextets s)
    end.

End Base64.

(** [btoa(binary)]: rejects a code unit above 0xFF. *)
Definition btoa (binary : jsstring) : result jsstring :=
  if forallb (fun c => c <=? 0xFF) binary
  then Ok (Base64.encode binary)
  else Throw InvalidCharacterError.

(** [atob(base64)] *)
Definition atob (base64 : jsstring) : result jsstring :=
  match Base64.forgiving_decode base64 with
  | Some bytes => Ok bytes
  | None => Throw InvalidCharacterError
  end.

(** ** utils.ts: the range-token codec *)

(** [s.replace(/c/g, d)] for a one-character pattern. *)
Definition replace_all (c d : Z) (s : jsstring) : jsstring :=
  map (fun x => if x =? c then d else x) s.

Fixpoint drop_while (p : Z -> bool) (s : jsstring) : jsstring :=
  match s with
  | [] => []
  | c :: tl => if p c then drop_while p tl else s
  end.

(** [s.replace(/=+$/g, empty)]: the padding at the end is dropped. *)
Definition strip_trailing_pad (s : jsstring) : jsstring :=
  rev (drop_while (fun x => x =? Base64.pad) (rev s)).

Definition base64UrlEncode (input : jsstring) : result jsstring :=
  let bytes := TextEncoder_encode input in
  (* binary += String.fromCharCode(bytes[i]) *)
  let binary := bytes in
  base64 <-! btoa binary ;;
  Ok (strip_trailing_pad
        (replace_all (chr "/") (chr "_") (replace_all (chr "+") (chr "-") base64))).

(** [while (base64.length % 4) base64 += "="]; three rounds at most. *)
Fixpoint pad_loop (fuel : nat) (base64 : jsstring) : jsstring :=
  match fuel with
  | O => base64
  | S fuel' =>
      if (length base64 mod 4 =? 0)%nat then base64
      else pad_loop fuel' (base64 ++ [Base64.pad])
  end.

Definition base64UrlDecode (encoded : jsstring) : result jsstring :=
  let base64 := replace_all (chr "_") (chr "/") (replace_all (chr "-") (chr "+") encoded) in
  let base64 := pad_loop 3 base64 in
  binary <-! atob base64 ;;
  (* bytes[i] = binary.charCodeAt(i), stored in a Uint8Array *)
  let bytes := map (fun c => c mod 256) binary in
  Ok (TextDecoder_decode bytes).

(** ** Vocabulary of the codec properties *)

Definition is_byte (b : Z) : Prop := 0 <= b < 256.
Definition is_sextet (i : Z) : Prop := 0 <= i < 64.

(** A Unicode scalar value: a code point that is not a surrogate. *)
Definition is_scalar_value (cp : Z) : Prop :=
  0 <= cp < 0xD800 \/ 0xE000 <= cp < 0x110000.

(** A string of code units in which every surrogate is half of a pair. *)
Fixpoint well_formed_utf16 (s : jsstring) : bool :=
  match s with
  | [] => true
  | c :: tl =>
      code_unit c &&
      if Unicode.is_high_surrogate c then
        match tl with
        | d :: tl' => Unicode.is_low_surrogate d && well_formed_utf16 tl'
        | [] => false
        end
      else negb (Unicode.is_low_surrogate c) && well_formed_utf16 tl
  end.

(** A JavaScript string: every element is a 16-bit code unit. *)
Definition code_units (s : jsstring) : Prop := Forall (fun c => code_unit c = true) s.

Definition in_alphabet (c : Z) : bool :=
  match Base64.sextet_of_char c with Some _ => true | None => false end.

(** What the two [replace] calls of [base64UrlDecode] do to a character. *)
Definition standard_char (c : Z) : Z :=
  let c := if c =? chr "-" then chr "+" else c in
  if c =? chr "_" then chr "/" else c.

(** What the first two [replace] calls of [base64UrlEncode] do to a character. *)
Definition url_char (c : Z) : Z :=
  let c := if c =? chr "+" then chr "-" else c in
  if c =? chr "/" then chr "_" else c.

Definition not_pad (c : Z) : Prop := c <> Base64.pad.

(** The token of a sequence of bytes, character by character. *)
Definition token_of_bytes (bytes : list Z) : jsstring :=
  (fun i => url_char (Base64.char_of_sextet i)) <$> Base64.sextets_of_bytes bytes.

(** The string that is one byte order mark, and a lone surrogate. *)
Definition bom_string : jsstring := [Unicode.byte_order_mark].
Definition lone_surrogate : jsstring := [0xD800].

(** ** String helpers of the link parser and the resolver *)

Fixpoint starts_with (prefix s : jsstring) : bool :=
  match prefix, s with
  | [], _ => true
  | p :: prefix', c :: s' => (p =? c) && starts_with prefix' s'
  | _ :: _, [] => false
  end.

Definition ends_with (suffix s : jsstring) : bool :=
  starts_with (rev suffix) (rev s).

(** [s.indexOf(needle) !== -1] *)
Fixpoint includes (needle s : jsstring) : bool :=
  starts_with needle s ||
  match s with
  | [] => false
  | _ :: tl => includes needle tl
  end.

(** [[A-Za-z0-9_-]] *)
Definition token_char (c : Z) : bool :=
  ((chr "A" <=? c) && (c <=? chr "Z"))
  || ((chr "a" <=? c) && (c <=? chr "z"))
  || ((chr "0" <=? c) && (c <=? chr "9"))
  || (c =? chr "_") || (c =? chr "-").

(** The longest prefix made of token characters, and what follows it. *)
Fixpoint span_token (s : jsstring) : jsstring * jsstring :=
  match s with
  | c :: tl =>
      if token_char c then let '(tok, rest) := span_token tl in (c :: tok, rest)
      else ([], s)
  | [] => ([], [])
  end.

(** A match of [key([A-Za-z0-9_-]+)] at the start of [s]: the captured
    group and the length of the whole match. *)
Definition match_key_here (key s : jsstring) : option (jsstring * nat) :=
  if starts_with key s then
    match span_token (drop (length key) s) with
    | ([], _) => None
    | (tok, _) => Some (tok, (length key + length tok)%nat)
    end
  else None.

(** [s.match(/key([A-Za-z0-9_-]+)/)]: the captured group of the leftmost match. *)
Fixpoint match_key (key s : jsstring) : option jsstring :=
  match match_key_here key s with
  | Some (tok, _) => Some tok
  | None =>
      match s with
      | [] => None
      | _ :: tl => match_key key tl
      end
  end.

(** ASCII letters in lower case; other code units are kept.  Of the
    letters of [".epub"] only their ASCII capitals lower to them, so the
    test below agrees with [toLowerCase] followed by [endsWith]. *)
Definition toLowerCase_ascii (s : jsstring) : jsstring :=
  map (fun c => if (chr "A" <=? c) && (c <=? chr "Z") then c + 32 else c) s.

(** [raw.split("#", 2)]: the text before the first [#] and, when there is
    one, the text between the first and the second. *)
Fixpoint split_hash_first (s : jsstring) : jsstring * option jsstring :=
  match s with
  | [] => ([], None)
  | c :: tl =>
      if c =? chr "#" then ([], Some tl)
      else let '(a, b) := split_hash_first tl in (c :: a, b)
  end.

Definition split_hash_2 (raw : jsstring) : jsstring * option jsstring :=
  let '(pathPartRaw, after) := split_hash_first raw in
  (pathPartRaw, fst <$> (split_hash_first <$> after)).

(** ** Platform: [decodeURIComponent] (ECMA-262, Decode) *)

Module URI.

Definition hex_digit (c : Z) : option Z :=
  if (chr "0" <=? c) && (c <=? chr "9") then Some (c - chr "0")
  else if (chr "a" <=? c) && (c <=? chr "f") then Some (c - chr "a" + 10)
  else if (chr "A" <=? c) && (c <=? chr "F") then Some (c - chr "A" + 10)
  else None.

(** The octet written by the two code units at the head of [s]. *)
Definition parse_hex_octet (s : jsstring) : option Z :=
  match s with
  | h1 :: h2 :: _ =>
      match hex_digit h1, hex_digit h2 with
      | Some a, Some b => Some (16 * a + b)
      | _, _ => None
      end
  | _ => None
  end.

(** Number of leading one bits of an octet. *)
Definition leading_ones (B : Z) : nat :=
  if B <? 0x80 then 0 else if B <? 0xC0 then 1 else if B <? 0xE0 then 2
  else if B <? 0xF0 then 3 else if B <? 0xF8 then 4 else 5.

(** [j] continuation escapes [%XX] read from [s]. *)
Fixpoint continuation_octets (j : nat) (s : jsstring) : option (list Z) :=
  match j with
  | O => Some []
  | S j' =>
      match s with
      | c :: tl =>
          if c =? chr "%" then
            match parse_hex_octet tl, continuation_octets j' (drop 2 tl) with
            | Some B, Some l => Some (B :: l)
            | _, _ => None
            end
          else None
      | [] => None
      end
  end.

(** What an escape stands for, read after its [%]: the decoded code units
    and the number of code units of the input it takes after the [%]. *)
Definition decode_escape (after : jsstring) : result (jsstring * nat) :=
  match parse_hex_octet after with
  | None => Throw URIError
  | Some B =>
      let n := leading_ones B in
      match n with
      | O => Ok ([B], 2%nat)
      | 1%nat => Throw URIError
      | _ =>
          if (4 <? n)%nat then Throw URIError
          else
            match continuation_octets (n - 1) (drop 2 after) with
            | None => Throw URIError
            | Some octets =>
                match Unicode.utf8_decode (B :: octets) with
                | [Unicode.CodePoint v] => Ok (Unicode.code_units_of v, (2 + 3 * (n - 1))%nat)
                | _ => Throw URIError
                end
            end
      end
  end.

(** The loop over the input; [skip] counts the code units an escape read
    before has already taken. *)
Fixpoint decode_from (skip : nat) (s : jsstring) : result jsstring :=
  match s with
  | [] => Ok []
  | c :: tl =>
      match skip with
      | S skip' => decode_from skip' tl
      | O =>
          if c =? chr "%" then
            esc <-! decode_escape tl ;;
            R <-! decode_from (snd esc) tl ;;
            Ok (fst esc ++ R)
          else
            R <-! decode_from O tl ;;
            Ok (c :: R)
      end
  end.

Definition decodeURIComponent (s : jsstring) : result jsstring := decode_from O s.

End URI.

(** ** utils.ts: the link parser *)

Record ParsedLink := { link_path : jsstring; link_cfi64 : jsstring }.

(** What the parser reads of [new URL(raw)]. *)
Record URL := {
  searchParams_get_file : option jsstring;   (* u.searchParams.get("file") *)
  url_hash : jsstring                        (* u.hash *)
}.

Section LinkParser.

(** [normalizePath] of the host application and the URL parser of the
    platform are taken as given. *)
Variable normalizePath : jsstring -> jsstring.
Variable URL_parse : jsstring -> result URL.

(** The [obsidian://] branch, with its [try ... catch]. *)
Definition unwrap_obsidian_url (raw : jsstring) : jsstring :=
  if starts_with (lit "obsidian://") raw then
    try_catch
      (u <-! URL_parse raw ;;
       match searchParams_get_file u with
       | Some (c :: fileParam) =>
           decoded <-! URI.decodeURIComponent (c :: fileParam) ;;
           Ok (decoded ++ url_hash u)
       | _ => Ok raw
       end)
      (fun _ => raw)
  else raw.

Definition parseEpubCfi64Link (hrefOrDataHref : jsstring) : result (option ParsedLink) :=
  match hrefOrDataHref with
  | [] => Ok None
  | _ =>
      let raw := unwrap_obsidian_url hrefOrDataHref in
      let '(pathPartRaw, hashRaw) := split_hash_2 raw in
      pathPart <-! URI.decodeURIComponent pathPartRaw ;;
      if negb (ends_with (lit ".epub") (toLowerCase_ascii pathPart)) then Ok None
      else
        match hashRaw with
        | None | Some [] => Ok None
        | Some hashRaw =>
            match match_key (lit "cfi64=") hashRaw with
            | None => Ok None
            | Some cfi64 => Ok (Some {| link_path := normalizePath pathPart; link_cfi64 := cfi64 |})
            end
        end
  end.

End LinkParser.

(** ** Loops with an early [return] *)

Inductive flow (S R : Type) : Type :=
| Continue (s : S)
| Return (r : R).
Arguments Continue {S R} s.
Arguments Return {S R} r.

(** [for (const x of l) body] over a loop state. *)
Fixpoint for_each {A S R} (body : A -> S -> flow S R) (l : list A) (s : S) : flow S R :=
  match l with
  | [] => Continue s
  | x :: tl =>
      match body x s with
      | Continue s' => for_each body tl s'
      | Return r => Return r
      end
  end.

(** ** BacklinkManager.ts: the backlink resolver *)

Module Resolver.

Record TFile := { path : jsstring; basename : jsstring }.

Inductive TAbstractFile :=
| AFile (f : TFile)
| AFolder (folder_path : jsstring).

(** A link or embed of a note's cache, with the fields the resolver reads. *)
Record LinkCache := {
  link : jsstring;
  original : option jsstring;
  displayText : option jsstring
}.

Record CachedMetadata := {
  links : option (list LinkCache);
  embeds : option (list LinkCache)
}.

(** The part of the application the resolver reads: the link index in the
    order of [Object.entries], the vault and the metadata cache. *)
Record App := {
  resolvedLinks : list (jsstring * option (gmap jsstring Z));
  getAbstractFileByPath : jsstring -> option TAbstractFile;
  getFileCache : TFile -> option CachedMetadata;
  getFirstLinkpathDest : jsstring -> jsstring -> option TFile
}.

Record BacklinkHighlight := {
  cfiRange : jsstring;
  sourceFile : TFile;
  display : jsstring
}.

(** The key of [CFI64_REGEX = /#cfi64=([A-Za-z0-9_-]+)/g]. *)
Definition CFI64_KEY : jsstring := lit "#cfi64=".

(** Coarse candidates: the notes whose resolved links name the book. *)
Fixpoint coarse_candidates (app : App) (bookPath : jsstring)
    (entries : list (jsstring * option (gmap jsstring Z))) : list TFile :=
  match entries with
  | [] => []
  | (sourcePath, destCounts) :: tl =>
      match destCounts with
      | None => coarse_candidates app bookPath tl
      | Some counts =>
          if bool_decide (is_Some (counts !! bookPath)) then
            match getAbstractFileByPath app sourcePath with
            | Some (AFile af) => af :: coarse_candidates app bookPath tl
            | _ => coarse_candidates app bookPath tl
            end
          else coarse_candidates app bookPath tl
      end
  end.

Definition loop_state : Type := gset jsstring * list BacklinkHighlight.

(** The body of the [while] loop, for one match of the regular expression. *)
Definition visit_token (limit : Z) (file : TFile) (label : jsstring)
    (encoded : jsstring) (st : loop_state) : flow loop_state (list BacklinkHighlight) :=
  let '(seenEncoded, results) := st in
  match encoded with
  | [] => Continue st
  | _ =>
      if bool_decide (encoded ∈ seenEncoded) then Continue st
      else
        let seenEncoded := {[encoded]} ∪ seenEncoded in
        match base64UrlDecode encoded with
        | Ok range =>
            let results := results ++ [{| cfiRange := range; sourceFile := file; display := label |}] in
            if limit <=? Z.of_nat (length results) then Return results
            else Continue (seenEncoded, results)
        | Throw _ =>
            (* ignore invalid payload *)
            Continue (seenEncoded, results)
        end
  end.

(** [while ((m = CFI64_REGEX.exec(original)) !== null)]: [exec] looks for
    the leftmost match from [lastIndex] on and moves [lastIndex] behind it;
    [skip] is the distance from the position read to [lastIndex]. *)
Fixpoint exec_loop (limit : Z) (file : TFile) (label : jsstring)
    (skip : nat) (text : jsstring) (st : loop_state)
    : flow loop_state (list BacklinkHighlight) :=
  match text with
  | [] => Continue st
  | _ :: tl =>
      match skip with
      | S skip' => exec_loop limit file label skip' tl st
      | O =>
          match match_key_here CFI64_KEY text with
          | Some (encoded, len) =>
              match visit_token limit file label encoded st with
              | Continue st' => exec_loop limit file label (len - 1) tl st'
              | Return r => Return r
              end
          | None => exec_loop limit file label O tl st
          end
      end
  end.

Definition visit_item (app : App) (bookFile : TFile) (limit : Z) (file : TFile)
    (item : LinkCache) (st : loop_state) : flow loop_state (list BacklinkHighlight) :=
  match getFirstLinkpathDest app (link item) (path file) with
  | None => Continue st
  | Some dest =>
      if bool_decide (path dest = path bookFile) then
        match original item with
        | None | Some [] => Continue st
        | Some text =>
            if negb (includes CFI64_KEY text) then Continue st
            else
              let label := default (basename file) (displayText item) in
              exec_loop limit file label O text st
        end
      else Continue st
  end.

Definition items_of (cache : CachedMetadata) : list LinkCache :=
  default [] (links cache) ++ default [] (embeds cache).

Definition visit_candidate (app : App) (bookFile : TFile) (limit : Z)
    (file : TFile) (st : loop_state) : flow loop_state (list BacklinkHighlight) :=
  match getFileCache app file with
  | None => Continue st
  | Some cache =>
      match items_of cache with
      | [] => Continue st
      | items => for_each (visit_item app bookFile limit file) items st
      end
  end.

Definition getHighlightsForBook (app : App) (bookFile : TFile) (limit : Z)
    : list BacklinkHighlight :=
  let candidates := coarse_candidates app (path bookFile) (resolvedLinks app) in
  match for_each (visit_candidate app bookFile limit) candidates (∅, []) with
  | Continue (_, results) => results
  | Return results => results
  end.

Definition default_limit : Z := 200.

(** *** The resolver as a list computation

    What the three nested loops visit, in their order: every match of the
    regular expression in every kept link of every candidate note. *)

Record occurrence := {
  occ_token : jsstring;
  occ_file : TFile;
  occ_item : LinkCache
}.

Definition occ_display (o : occurrence) : jsstring :=
  default (basename (occ_file o)) (displayText (occ_item o)).

(** All matches of [CFI64_REGEX] from [lastIndex] on. *)
Fixpoint exec_all (skip : nat) (text : jsstring) : list jsstring :=
  match text with
  | [] => []
  | _ :: tl =>
      match skip with
      | S skip' => exec_all skip' tl
      | O =>
          match match_key_here CFI64_KEY text with
          | Some (encoded, len) => encoded :: exec_all (len - 1) tl
          | None => exec_all O tl
          end
      end
  end.

Definition item_occurrences (app : App) (bookFile file : TFile) (item : LinkCache)
    : list occurrence :=
  match getFirstLinkpathDest app (link item) (path file) with
  | None => []
  | Some dest =>
      if bool_decide (path dest = path bookFile) then
        match original item with
        | None | Some [] => []
        | Some text =>
            if negb (includes CFI64_KEY text) then []
            else (fun tok => {| occ_token := tok; occ_file := file; occ_item := item |})
                   <$> exec_all O text
        end
      else []
  end.

Definition candidate_occurrences (app : App) (bookFile file : TFile) : list occurrence :=
  match getFileCache app file with
  | None => []
  | Some cache => flat_map (item_occurrences app bookFile file) (items_of cache)
  end.

Definition occurrences (app : App) (bookFile : TFile) : list occurrence :=
  flat_map (candidate_occurrences app bookFile)
    (coarse_candidates app (path bookFile) (resolvedLinks app)).

(** The first occurrence of every token that is not in [seen]. *)
Fixpoint first_occurrences (seen : gset jsstring) (occs : list occurrence) : list occurrence :=
  match occs with
  | [] => []
  | o :: tl =>
      if bool_decide (occ_token o = [] \/ occ_token o ∈ seen) then first_occurrences seen tl
      else o :: first_occurrences ({[occ_token o]} ∪ seen) tl
  end.

(** The descriptor of an occurrence whose token decodes. *)
Definition descriptor_of (o : occurrence) : option BacklinkHighlight :=
  match base64UrlDecode (occ_token o) with
  | Ok range => Some {| cfiRange := range; sourceFile := occ_file o; display := occ_display o |}
  | Throw _ => None
  end.

Definition visit_occurrence (limit : Z) (o : occurrence) (st : loop_state)
    : flow loop_state (list BacklinkHighlight) :=
  visit_token limit (occ_file o) (occ_display o) (occ_token o) st.

Definition finish (f : flow loop_state (list BacklinkHighlight)) : list BacklinkHighlight :=
  match f with
  | Continue (_, results) => results
  | Return results => results
  end.

(** The number of descriptors the loop may still push: the bound is
    tested after a push, so one goes through whatever [limit] is. *)
Definition room (limit : Z) (have : nat) : nat :=
  Z.to_nat (Z.max 1 (limit - Z.of_nat have)).

(** Where a descriptor comes from: a candidate note, a link or embed of
    it that resolves to the book, and a token written in the text of that
    link behind the key. *)
Definition token_of_link (app : App) (book : TFile) (tok : jsstring) (file : TFile) : Prop :=
  exists cache item dest text pre post,
    file ∈ coarse_candidates app (path book) (resolvedLinks app)
    /\ getFileCache app file = Some cache
    /\ item ∈ items_of cache
    /\ getFirstLinkpathDest app (link item) (path file) = Some dest
    /\ path dest = path book
    /\ original item = Some text
    /\ text = pre ++ CFI64_KEY ++ tok ++ post.

End Resolver.

(** ** EpubView.tsx: a jump received as a token *)

(** [handleJumpFromCfi64]: the decoded range becomes [this.jumpCfiRange];
    a token that does not decode is ignored. *)
Definition handleJumpFromCfi64 (jumpCfiRange : option jsstring) (encoded : jsstring)
    : option jsstring :=
  try_catch
    (range <-! base64UrlDecode encoded ;; Ok (Some range))
    (fun _ => jumpCfiRange).

Module ResolverExamples.
Import Resolver.

Definition book : TFile := {| path := lit "Books/Book.epub"; basename := lit "Book" |}.
Definition note_a : TFile := {| path := lit "a.md"; basename := lit "a" |}.
Definition note_b : TFile := {| path := lit "b.md"; basename := lit "b" |}.

Definition link_to (target : string) (text : string) : LinkCache :=
  {| link := lit target; original := Some (lit text); displayText := None |}.

(** Two notes embed the same token [QQ]; the second also has [QR] (which
    decodes to the same range), a token that is not base64 and [Qg]. *)
Definition vault : App := {|
  resolvedLinks :=
    [(lit "a.md", Some {[ lit "Books/Book.epub" := 1 ]});
     (lit "b.md", Some {[ lit "Books/Book.epub" := 3 ]});
     (lit "c.md", Some {[ lit "Other.epub" := 1 ]})];
  getAbstractFileByPath := fun p =>
    if bool_decide (p = lit "a.md") then Some (AFile note_a)
    else if bool_decide (p = lit "b.md") then Some (AFile note_b)
    else None;
  getFileCache := fun f =>
    if bool_decide (path f = lit "a.md") then
      Some {| links := Some [link_to "Books/Book.epub#cfi64=QQ" "[[Books/Book.epub#cfi64=QQ|x]]"];
              embeds := None |}
    else if bool_decide (path f = lit "b.md") then
      Some {| links := Some [link_to "Books/Book.epub#cfi64=QQ" "[[Books/Book.epub#cfi64=QQ|y]]";
                             link_to "Books/Book.epub" "[[Books/Book.epub#cfi64=QR#cfi64=A#cfi64=Qg]]"];
              embeds := Some [] |}
    else None;
  getFirstLinkpathDest := fun l _ =>
    if starts_with (lit "Books/Book.epub") l then Some book else None
|}.

(** Two notes that embed the same tokens: each has a link with [QQQQQ],
    which is not base64, and a link with [Qg]; the first note has a link
    with [QQ] before them. *)
Definition shared_vault : App := {|
  resolvedLinks :=
    [(lit "a.md", Some {[ lit "Books/Book.epub" := 3 ]});
     (lit "b.md", Some {[ lit "Books/Book.epub" := 2 ]})];
  getAbstractFileByPath := fun p =>
    if bool_decide (p = lit "a.md") then Some (AFile note_a)
    else if bool_decide (p = lit "b.md") then Some (AFile note_b)
    else None;
  getFileCache := fun f =>
    if bool_decide (path f = lit "a.md") then
      Some {| links := Some [link_to "Books/Book.epub#cfi64=QQ" "[[Books/Book.epub#cfi64=QQ]]";
                             link_to "Books/Book.epub#cfi64=QQQQQ" "[[Books/Book.epub#cfi64=QQQQQ]]";
                             link_to "Books/Book.epub#cfi64=Qg" "[[Books/Book.epub#cfi64=Qg]]"];
              embeds := None |}
    else if bool_decide (path f = lit "b.md") then
      Some {| links := Some [link_to "Books/Book.epub#cfi64=QQQQQ" "[[Books/Book.epub#cfi64=QQQQQ]]";
                             link_to "Books/Book.epub#cfi64=Qg" "[[Books/Book.epub#cfi64=Qg]]"];
              embeds := None |}
    else None;
  getFirstLinkpathDest := fun l _ =>
    if starts_with (lit "Books/Book.epub") l then Some book else None
|}.

End ResolverExamples.

(** ** EpubReader.tsx: the rendering surface *)

Module Reader.
Import Resolver.

(** The rendition belongs to the rendering engine, outside the plugin; it
    is modelled by the contract the reader relies on: [display] and
    [annotations.add] succeed or fail on a range, [annotations.remove]
    takes an annotation away, and a call that fails changes nothing.
    Which ranges can be displayed and annotated is a property of the
    book; [marks] are the ranges that hold a highlight annotation (the
    rendition keeps its annotations by range and type, so a range is there
    once), [shown] is the range displayed last and [display_calls] lists
    every range [display] was called with, oldest first. *)
Record Rendition := {
  displayable : jsstring -> bool;
  annotatable : jsstring -> bool;
  marks : list jsstring;
  shown : option jsstring;
  display_calls : list jsstring
}.

Definition set_marks (r : Rendition) (m : list jsstring) : Rendition :=
  {| displayable := displayable r; annotatable := annotatable r; marks := m;
     shown := shown r; display_calls := display_calls r |}.

(** One occurrence of [x] less. *)
Fixpoint remove_one (x : jsstring) (l : list jsstring) : list jsstring :=
  match l with
  | [] => []
  | y :: tl => if bool_decide (x = y) then tl else y :: remove_one x tl
  end.

(** [r.annotations.remove(cfi, "highlight")]; fails when the range has no
    annotation, and then changes nothing. *)
Definition annotations_remove (cfi : jsstring) (r : Rendition) : result Rendition :=
  if bool_decide (cfi ∈ marks r) then Ok (set_marks r (remove_one cfi (marks r)))
  else Throw TypeError.

(** [r.annotations.add("highlight", cfi, ...)]; fails on a range the
    rendition cannot annotate, and then changes nothing.  On a range that
    holds a highlight already, the new annotation takes the place of that
    one. *)
Definition annotations_add (cfi : jsstring) (r : Rendition) : result Rendition :=
  if annotatable r cfi then
    Ok (set_marks r (if bool_decide (cfi ∈ marks r) then marks r else marks r ++ [cfi]))
  else Throw TypeError.

Definition log_display (cfi : jsstring) (r : Rendition) : Rendition :=
  {| displayable := displayable r; annotatable := annotatable r; marks := marks r;
     shown := shown r; display_calls := display_calls r ++ [cfi] |}.

Definition set_shown (cfi : jsstring) (r : Rendition) : Rendition :=
  {| displayable := displayable r; annotatable := annotatable r; marks := marks r;
     shown := Some cfi; display_calls := display_calls r |}.

(** [rendition.display(cfi)] is asynchronous.  The call is [log_display];
    the promise it returns is settled later, and this is the rendition
    then, and whether the promise was fulfilled or rejected. *)
Definition display_settled (cfi : jsstring) (r : Rendition) : Rendition * result unit :=
  if displayable r cfi then (set_shown cfi r, Ok tt) else (r, Throw TypeError).

(** *** The highlight reconciler *)

(** The first loop of [applyBacklinkHighlights]: remove old. *)
Fixpoint remove_old (added : list jsstring) (r : Rendition) : Rendition :=
  match added with
  | [] => r
  | cfi :: tl => remove_old tl (try_catch (annotations_remove cfi r) (fun _ => r))
  end.

(** The second loop: add new, keeping track of what was added. *)
Fixpoint add_new (capped : list BacklinkHighlight) (r : Rendition) (added : list jsstring)
    : Rendition * list jsstring :=
  match capped with
  | [] => (r, added)
  | hl :: tl =>
      match annotations_add (cfiRange hl) r with
      | Ok r' => add_new tl r' (added ++ [cfiRange hl])
      | Throw _ => add_new tl r added
      end
  end.

(** [applyBacklinkHighlights(r, next)], on the rendition and on
    [addedBacklinkCfisRef.current]. *)
Definition applyBacklinkHighlights (r : Rendition) (addedBacklinkCfis : list jsstring)
    (next : list BacklinkHighlight) : Rendition * list jsstring :=
  let r := remove_old addedBacklinkCfis r in
  let capped := take 80 next in
  add_new capped r [].

(** The ranges of the first 80 descriptors that the rendition can annotate. *)
Definition valid_capped (r : Rendition) (next : list BacklinkHighlight) : list jsstring :=
  filter (fun cfi => annotatable r cfi = true) (cfiRange <$> take 80 next).

(** The marks that are left when one mark goes for each tracked range. *)
Definition remove_all (added : list jsstring) (m : list jsstring) : list jsstring :=
  foldl (fun m cfi => remove_one cfi m) m added.

(** The marks after the ranges [added] were annotated one after the
    other: each of them is there, once. *)
Definition add_all (added : list jsstring) (m : list jsstring) : list jsstring :=
  foldl (fun m cfi => if bool_decide (cfi ∈ m) then m else m ++ [cfi]) m added.

(** *** The jump controller *)

Definition is_line_terminator (c : Z) : bool :=
  (c =? 0x0A) || (c =? 0x0D) || (c =? 0x2028) || (c =? 0x2029).

(** The rest of a lazy [.+?,] after its first character: the shortest run
    of characters other than line terminators that a comma follows. *)
Fixpoint lazy_until_comma (s : jsstring) : option jsstring :=
  match s with
  | [] => None
  | c :: tl =>
      if c =? chr "," then Some []
      else if is_line_terminator c then None
      else (fun m => c :: m) <$> lazy_until_comma tl
  end.

(** [cfi.match(/^epubcfi\((.+?),/)] and the start anchor built from it. *)
Definition getRangeStartCfi (cfi : jsstring) : option jsstring :=
  if starts_with (lit "epubcfi(") cfi then
    match drop 8 cfi with
    | c :: tl =>
        if is_line_terminator c then None
        else
          match lazy_until_comma tl with
          | Some m => Some (lit "epubcfi(" ++ (c :: m) ++ lit ")")
          | None => None
          end
    | [] => None
    end
  else None.

(** A call [displayJumpCfi(cfi).then(...)] on its way.  The functions
    are asynchronous: a call runs up to an [await], and goes on later,
    after whatever else the reader did in between.  A call is where it
    waits: in [tryDisplayCfi] for the book ([await ready]) or for the
    display ([await rendition.display(...)]), with the rendition that
    [displayJumpCfi] read from [renditionRef] when it started, the range
    [cfi] it was called with, the range [target] of the attempt under way
    and whether that attempt is the fallback; or [displayJumpCfi] has
    returned and the handler of [then] is still to run; or that handler
    has run. *)
Inductive JumpCall :=
| AwaitReady (rendition : nat) (cfi target : jsstring) (fallback : bool)
| AwaitDisplay (rendition : nat) (cfi target : jsstring) (fallback : bool)
| Returned (ok : bool)
| Handled.

(** The references of the component that the controller and the reconciler
    share, the renditions created so far (a rendition is an object: it is
    named by its place in [renditions], and a call keeps the one it
    started with), and the calls of [displayJumpCfi], oldest first. *)
Record ReaderState := {
  renditions : list Rendition;
  renditionRef : option nat;
  pendingJumpRef : option jsstring;
  addedBacklinkCfisRef : list jsstring;
  jumps : list JumpCall
}.

Definition set_renditions (st : ReaderState) (rs : list Rendition) : ReaderState :=
  {| renditions := rs; renditionRef := renditionRef st;
     pendingJumpRef := pendingJumpRef st;
     addedBacklinkCfisRef := addedBacklinkCfisRef st; jumps := jumps st |}.

Definition set_pending (st : ReaderState) (p : option jsstring) : ReaderState :=
  {| renditions := renditions st; renditionRef := renditionRef st; pendingJumpRef := p;
     addedBacklinkCfisRef := addedBacklinkCfisRef st; jumps := jumps st |}.

Definition set_jumps (st : ReaderState) (js : list JumpCall) : ReaderState :=
  {| renditions := renditions st; renditionRef := renditionRef st;
     pendingJumpRef := pendingJumpRef st;
     addedBacklinkCfisRef := addedBacklinkCfisRef st; jumps := js |}.

(** The rendition that [renditionRef] names. *)
Definition current_rendition (st : ReaderState) : option Rendition :=
  renditionRef st ≫= fun i => renditions st !! i.

(** [tryDisplayCfi] when [display] has settled, and [displayJumpCfi] from
    there: it returns [true], or enters [tryDisplayCfi] for the start
    anchor, or returns [false]. *)
Definition after_display (rendition : nat) (cfi : jsstring) (fallback : bool)
    (outcome : result unit) : JumpCall :=
  match outcome with
  | Ok _ => Returned true
  | Throw _ =>
      if fallback then Returned false
      else
        match getRangeStartCfi cfi with
        | Some anchor =>
            if bool_decide (anchor ≠ cfi) then AwaitReady rendition cfi anchor true
            else Returned false
        | None => Returned false
        end
  end.

(** The call [j] goes on from where it waits to its next [await]: the
    book is ready and [display] is called; or [display] has settled; or
    [displayJumpCfi] has returned and the handler of [then] runs,
    [(ok) => { if (ok) pendingJumpRef.current = null; }]. *)
Definition resume (st : ReaderState) (j : nat) : ReaderState :=
  match jumps st !! j with
  | Some (AwaitReady i cfi target fallback) =>
      let st := set_renditions st (alter (log_display target) i (renditions st)) in
      set_jumps st (<[j := AwaitDisplay i cfi target fallback]> (jumps st))
  | Some (AwaitDisplay i cfi target fallback) =>
      match renditions st !! i with
      | Some r =>
          let '(r, outcome) := display_settled target r in
          let st := set_renditions st (<[i := r]> (renditions st)) in
          set_jumps st (<[j := after_display i cfi fallback outcome]> (jumps st))
      | None => st
      end
  | Some (Returned ok) =>
      let st := if ok then set_pending st None else st in
      set_jumps st (<[j := Handled]> (jumps st))
  | Some Handled | None => st
  end.

(** [displayJumpCfi(cfi)] up to its first [await]: without a rendition it
    returns [false]; with one it enters [tryDisplayCfi], which waits for
    the book. *)
Definition displayJumpCfi (st : ReaderState) (cfi : jsstring) : JumpCall :=
  match renditionRef st with
  | None => Returned false
  | Some i => AwaitReady i cfi cfi false
  end.

(** [displayJumpCfi(cfi).then(...)]: the call is started. *)
Definition displayJumpCfi_then (st : ReaderState) (cfi : jsstring) : ReaderState :=
  set_jumps st (jumps st ++ [displayJumpCfi st cfi]).

(** A string is truthy unless it is empty. *)
Definition truthy (s : option jsstring) : option jsstring :=
  match s with
  | Some (c :: tl) => Some (c :: tl)
  | _ => None
  end.

(** The effect that receives a jump request ([jumpCfiRange] changed). *)
Definition onJumpRequest (st : ReaderState) (jumpCfiRange : option jsstring) : ReaderState :=
  match truthy jumpCfiRange with
  | None => st
  | Some cfi => displayJumpCfi_then (set_pending st (Some cfi)) cfi
  end.

(** The [getRendition] callback: a rendition was created. *)
Definition getRendition (st : ReaderState) (rendition : Rendition) : ReaderState :=
  let st := {| renditions := renditions st ++ [rendition];
               renditionRef := Some (length (renditions st));
               pendingJumpRef := pendingJumpRef st;
               addedBacklinkCfisRef := [];
               jumps := jumps st |} in
  match truthy (pendingJumpRef st) with
  | Some cfi => displayJumpCfi_then st cfi
  | None => st
  end.

(** *** Vocabulary of the properties *)

(** No call of [displayJumpCfi] is on its way. *)
Definition at_rest (st : ReaderState) : Prop :=
  Forall (fun call => call = Handled) (jumps st).

(** The call [j] runs to its end with nothing else in between: from the
    wait for the book to the handler of [then] there are at most five
    steps. *)
Definition run_alone (st : ReaderState) (j : nat) : ReaderState :=
  Nat.iter 5 (fun st => resume st j) st.

(** The rendition after a call of [displayJumpCfi(cfi)] that ran alone. *)
Definition after_jump (r : Rendition) (cfi : jsstring) : Rendition :=
  let r1 := log_display cfi r in
  if displayable r cfi then set_shown cfi r1
  else
    match getRangeStartCfi cfi with
    | Some anchor =>
        let r2 := log_display anchor r1 in
        if displayable r anchor then set_shown anchor r2 else r2
    | None => r1
    end.

(** Whether the rendition accepts the range or its start anchor. *)
Definition accepts (r : Rendition) (cfi : jsstring) : bool :=
  displayable r cfi
  || match getRangeStartCfi cfi with
     | Some anchor => displayable r anchor
     | None => false
     end.

(** *** Examples *)

Definition blank_rendition : Rendition :=
  {| displayable := fun _ => true; annotatable := fun _ => true; marks := [];
     shown := None; display_calls := [] |}.

(** A rendition that rejects every range. *)
Definition stubborn_rendition : Rendition :=
  {| displayable := fun _ => false; annotatable := fun _ => false; marks := [];
     shown := None; display_calls := [] |}.

(** A rendition that displays points only: no range with a comma. *)
Definition points_only_rendition : Rendition :=
  {| displayable := fun cfi => negb (includes (lit ",") cfi);
     annotatable := fun _ => true; marks := [];
     shown := None; display_calls := [] |}.

Definition range_cfi : jsstring := lit "epubcfi(/6/4!/4/2,/1:0,/1:5)".
Definition range_start_cfi : jsstring := lit "epubcfi(/6/4!/4/2)".
Definition point_cfi : jsstring := lit "epubcfi(/6/4!/4/2/1:0)".

Definition reader_with (r : Rendition) : ReaderState :=
  {| renditions := [r]; renditionRef := Some 0%nat; pendingJumpRef := None;
     addedBacklinkCfisRef := []; jumps := [] |}.

(** A rendition that displays one range only. *)
Definition single_range_rendition (only : jsstring) : Rendition :=
  {| displayable := fun cfi => bool_decide (cfi = only);
     annotatable := fun _ => true; marks := [];
     shown := None; display_calls := [] |}.

Definition numbered_descriptor (n : nat) : BacklinkHighlight :=
  {| cfiRange := lit "epubcfi(/6/" ++ [chr "0" + Z.of_nat n] ++ lit ")";
     sourceFile := {| path := lit "note.md"; basename := lit "note" |};
     display := lit "note" |}.

Definition hundred_descriptors : list BacklinkHighlight :=
  numbered_descriptor <$> seq 0 100.

End Reader.

(** ** EpubPlugin.ts: the progress store *)

Module Progress.

(** [string | number]; the store keeps the value as it is. *)
Inductive Location :=
| LocString (s : jsstring)
| LocNumber (n : Z).

Record BookProgress := {
  location : Location;
  updatedAt : Z
}.

(** What a property of the progress object holds: a record, or a value
    that is no record.  The rename handler stores what it read under the
    old key, and a read goes through the prototype chain: [VOther name] is
    the truthy value found there under [name] (a function of
    [Object.prototype], [Object.prototype] itself for [__proto__], or a
    field of a record).  All the code does with such a value is to test it
    and to read its [location], which it does not have. *)
Inductive Value :=
| VRecord (r : BookProgress)
| VOther (name : jsstring).

(** [this.data.progress], a plain object used as a map from normalized
    paths to records: its own properties, and its prototype, which is
    [Object.prototype] ([None]) until an assignment to [__proto__] makes
    a record the prototype ([Object.prototype] is then the prototype of
    that record); and whether a save is scheduled ([saveTimer]). *)
Record PluginState := {
  progress : gmap jsstring Value;
  prototype : option BookProgress;
  saveTimer : bool
}.

Definition requestSave (st : PluginState) : PluginState :=
  {| progress := progress st; prototype := prototype st; saveTimer := true |}.

Definition set_progress (st : PluginState) (p : gmap jsstring Value) : PluginState :=
  {| progress := p; prototype := prototype st; saveTimer := saveTimer st |}.

Definition set_prototype (st : PluginState) (r : option BookProgress) : PluginState :=
  {| progress := progress st; prototype := r; saveTimer := saveTimer st |}.

(** The names of the properties of [Object.prototype] (ECMA-262, 20.1.3
    and B.2.2). *)
Definition object_prototype_names : list jsstring :=
  [lit "constructor"; lit "hasOwnProperty"; lit "isPrototypeOf";
   lit "propertyIsEnumerable"; lit "toLocaleString"; lit "toString"; lit "valueOf";
   lit "__proto__"; lit "__defineGetter__"; lit "__defineSetter__";
   lit "__lookupGetter__"; lit "__lookupSetter__"].

(** A string is truthy unless it is empty, a number unless it is 0. *)
Definition truthy_location (l : Location) : bool :=
  match l with
  | LocString [] => false
  | LocNumber 0 => false
  | _ => true
  end.

(** What the prototype chain gives under [k]: a field of the record that
    is the prototype, the prototype itself for the accessor [__proto__], a
    member of [Object.prototype].  [None] stands for [undefined] and for a
    field that is falsy; the code tells the two apart nowhere. *)
Definition inherited (st : PluginState) (k : jsstring) : option Value :=
  match prototype st with
  | Some r =>
      if bool_decide (k = lit "location") then
        if truthy_location (location r) then Some (VOther k) else None
      else if bool_decide (k = lit "updatedAt") then
        if updatedAt r =? 0 then None else Some (VOther k)
      else if bool_decide (k = lit "__proto__") then Some (VRecord r)
      else if bool_decide (k ∈ object_prototype_names) then Some (VOther k)
      else None
  | None =>
      if bool_decide (k ∈ object_prototype_names) then Some (VOther k) else None
  end.

(** [this.data.progress[k]]: the own property, and without one what the
    prototype chain gives. *)
Definition read (st : PluginState) (k : jsstring) : option Value :=
  match progress st !! k with
  | Some v => Some v
  | None => inherited st k
  end.

(** [v.location ?? null] *)
Definition location_of (v : Value) : option Location :=
  match v with
  | VRecord r => Some (location r)
  | VOther _ => None
  end.

(** [this.data.progress[k] = record]: an own property is written; without
    one, [__proto__] is the accessor of [Object.prototype], whose setter
    makes the record the prototype of the object. *)
Definition write_record (st : PluginState) (k : jsstring) (r : BookProgress) : PluginState :=
  match progress st !! k with
  | Some _ => set_progress st (<[k := VRecord r]> (progress st))
  | None =>
      if bool_decide (k = lit "__proto__") then set_prototype st (Some r)
      else set_progress st (<[k := VRecord r]> (progress st))
  end.

Section Store.

(** [normalizePath] of the host application. *)
Variable normalizePath : jsstring -> jsstring.

Definition normalizeProgressKey (bookPath : jsstring) : jsstring :=
  normalizePath bookPath.

Definition getProgress (st : PluginState) (bookPath : jsstring) : option Location :=
  let key := normalizeProgressKey bookPath in
  read st key ≫= location_of.

(** [now] is the value of [Date.now()]. *)
Definition setProgress (st : PluginState) (bookPath : jsstring) (loc : Location) (now : Z)
    : PluginState :=
  let key := normalizeProgressKey bookPath in
  requestSave (write_record st key {| location := loc; updatedAt := now |}).

(** The [rename] handler for a file ([af instanceof TFile]); [newPath] is
    [af.path].  Both tests read through the prototype chain.  The
    assignment is made only when [this.data.progress[newKey]] is falsy;
    [newKey] is then not the accessor [__proto__], which gives an object,
    so the assignment writes an own property.  [delete] takes an own
    property away and does nothing without one.  The branch for a renamed
    folder is [ProgressFolder.onRenameFolder]. *)
Definition onRenameFile (st : PluginState) (newPath oldPath : jsstring) : PluginState :=
  let oldKey := normalizeProgressKey oldPath in
  let newKey := normalizeProgressKey newPath in
  let st :=
    match read st oldKey, read st newKey with
    | Some v, None => set_progress st (<[newKey := v]> (progress st))
    | _, _ => st
    end in
  match read st oldKey with
  | Some _ => requestSave (set_progress st (delete oldKey (progress st)))
  | None => st
  end.

End Store.

(** A normalization for the examples: slashes at both ends are dropped. *)
Definition trim_slashes (p : jsstring) : jsstring :=
  let is_slash := fun c => c =? chr "/" in
  rev (drop_while is_slash (rev (drop_while is_slash p))).

Definition record_42 : BookProgress := {| location := LocNumber 42; updatedAt := 0 |}.

Definition store_A : PluginState :=
  {| progress := {[ lit "A/Book.epub" := VRecord record_42 ]}; prototype := None;
     saveTimer := false |}.

End Progress.

(** ** utils.ts and EpubReader.tsx: texts made safe *)

Module Text.

(** [\s] of a regular expression and the characters [trim] strips:
    WhiteSpace and LineTerminator of ECMA-262. *)
Definition is_white_space (c : Z) : bool :=
  (c =? 0x09) || (c =? 0x0A) || (c =? 0x0B) || (c =? 0x0C) || (c =? 0x0D)
  || (c =? 0x20) || (c =? 0xA0) || (c =? 0x1680)
  || ((0x2000 <=? c) && (c <=? 0x200A))
  || (c =? 0x2028) || (c =? 0x2029) || (c =? 0x202F) || (c =? 0x205F)
  || (c =? 0x3000) || (c =? 0xFEFF).

Definition space : Z := chr " ".

(** [s.replace(/[class]+/g, " ")]: every maximal run of characters of the
    class becomes one space; [in_run] tells that the character before was
    of the class. *)
Fixpoint collapse (class : Z -> bool) (in_run : bool) (s : jsstring) : jsstring :=
  match s with
  | [] => []
  | c :: tl =>
      if class c then
        if in_run then collapse class true tl else space :: collapse class true tl
      else c :: collapse class false tl
  end.

(** [s.trim()] *)
Definition trim (s : jsstring) : jsstring :=
  rev (drop_while is_white_space (rev (drop_while is_white_space s))).

(** [s.replace(/[class]/g, " ")] *)
Definition blank (class : Z -> bool) (s : jsstring) : jsstring :=
  map (fun c => if class c then space else c) s.

(** [s.replace(/[class]/g, empty)] *)
Definition strip (class : Z -> bool) (s : jsstring) : jsstring :=
  filter (fun c => class c = false) s.

Definition is_pipe (c : Z) : bool := c =? chr "|".
Definition is_bracket (c : Z) : bool := (c =? chr "[") || (c =? chr "]").
Definition is_newline (c : Z) : bool := (c =? 0x0D) || (c =? 0x0A).

(** [sanitizeLinkText(text)]; [None] is a [null] or [undefined] argument. *)
Definition sanitizeLinkText (text : option jsstring) : jsstring :=
  trim
    (collapse is_white_space false
       (collapse is_newline false
          (strip is_bracket
             (blank is_pipe (default [] text))))).

Definition is_reserved (c : Z) : bool :=
  (c =? 0x5C) || (c =? chr "/") || (c =? chr ":") || (c =? chr "*") || (c =? chr "?")
  || (c =? 0x22) || (c =? chr "<") || (c =? chr ">") || (c =? chr "|").

(** [sanitizeFileName(input)] of EpubReader.tsx. *)
Definition sanitizeFileName (input : option jsstring) : jsstring :=
  trim (collapse is_white_space false (blank is_reserved (default [] input))).

(** *** Vocabulary of the properties *)

(** Whitespace is written as single spaces: every whitespace character is
    U+0020 and no two of them are adjacent; [after_space] tells that the
    character before was a space. *)
Fixpoint spaced (after_space : bool) (s : jsstring) : bool :=
  match s with
  | [] => true
  | c :: tl =>
      if is_white_space c then (c =? space) && negb after_space && spaced true tl
      else spaced false tl
  end.

Definition plain_space (c : Z) : Prop := is_white_space c = true -> c = space.

Definition no_double_space (s : jsstring) : Prop :=
  forall u v, s <> u ++ space :: space :: v.

(** What [replace(/\s+/g, " ").trim()] leaves: whitespace only as single
    spaces between other characters. *)
Definition tidy (s : jsstring) : Prop :=
  Forall plain_space s /\ no_double_space s
  /\ head s <> Some space /\ last s <> Some space.

End Text.

(** ** EpubReader.tsx: the link of a selection *)

Module Selection.
Import Text.

(** The label of [handleCopyLink] and [createSelectionNote]: the sanitized
    selection, [Quote] when nothing is left of it, cut after 60 code units. *)
Definition selection_label (text : jsstring) : jsstring :=
  let label := sanitizeLinkText (Some text) in
  let label := match label with [] => lit "Quote" | _ => label end in
  if (60 <? length label)%nat then take 60 label ++ lit "..." else label.

(** The target of the link: [${file.path}#cfi64=${cfi64}]. *)
Definition link_target (path cfi64 : jsstring) : jsstring :=
  path ++ lit "#cfi64=" ++ cfi64.

(** The wikilink that [handleCopyLink] writes to the clipboard. *)
Definition selection_link (path cfiRange text : jsstring) : result jsstring :=
  let label := selection_label text in
  cfi64 <-! base64UrlEncode cfiRange ;;
  Ok (lit "[[" ++ link_target path cfi64 ++ lit "|" ++ label ++ lit "]]").

End Selection.

(** ** EpubPlugin.ts: a renamed folder *)

Module ProgressFolder.
Import Progress.

Section Folder.

Variable normalizePath : jsstring -> jsstring.

(** One round of the loop over [Object.entries(this.data.progress)], on
    [next] and [changed].  [next] is a copy of the own properties, with
    [Object.prototype] as its prototype; [moved] has a slash in it and so
    names no member of [Object.prototype]: [next[moved]] is an own property
    or [undefined]. *)
Definition move_entry (oldPrefix newPrefix : jsstring)
    (acc : gmap jsstring Value * bool) (entry : jsstring * Value)
    : gmap jsstring Value * bool :=
  let '(next, changed) := acc in
  let '(k, v) := entry in
  if negb (starts_with oldPrefix k) then (next, changed)
  else
    let moved := newPrefix ++ drop (length oldPrefix) k in
    let next :=
      match next !! moved with
      | Some _ => next
      | None => <[moved := v]> next
      end in
    (delete k next, true).

(** The [rename] handler for a folder ([af instanceof TFolder]);
    [newPath] is [af.path].  [entries] is [Object.entries] of the progress
    map: its own pairs, in the order in which the object enumerates them.
    The object that replaces the map is the copy [next]. *)
Definition onRenameFolder (entries : list (jsstring * Value)) (st : PluginState)
    (newPath oldPath : jsstring) : PluginState :=
  let oldPrefix := normalizePath oldPath ++ lit "/" in
  let newPrefix := normalizePath newPath ++ lit "/" in
  let '(next, changed) := foldl (move_entry oldPrefix newPrefix) (progress st, false) entries in
  if changed then requestSave (set_prototype (set_progress st next) None) else st.

(** The handler of the [rename] event of the vault. *)
Definition onRename (entries : list (jsstring * Value)) (st : PluginState)
    (af : Resolver.TAbstractFile) (oldPath : jsstring) : PluginState :=
  match af with
  | Resolver.AFolder newPath => onRenameFolder entries st newPath oldPath
  | Resolver.AFile f => onRenameFile normalizePath st (Resolver.path f) oldPath
  end.

End Folder.

(** *** Vocabulary of the properties *)

(** The map [next] after the loop has visited the entries [visited] of the
    map [M]: a key under the old prefix is gone once it was visited; a free
    key under the new prefix holds the record of the visited key it stands
    for; every other key is as in [M]. *)
Definition moved_so_far (M : gmap jsstring Value) (old new : jsstring)
    (visited : list (jsstring * Value)) (next : gmap jsstring Value) : Prop :=
  forall k,
    next !! k =
      if starts_with old k then
        if decide (k ∈ visited.*1) then None else M !! k
      else
        match M !! k with
        | Some r => Some r
        | None =>
            if starts_with new k && bool_decide (old ++ drop (length new) k ∈ visited.*1)
            then M !! (old ++ drop (length new) k)
            else None
        end.

End ProgressFolder.

(** ** EpubView.tsx: the view and its one-shot jump *)

Module View.

(** What the jump path reads and writes of the view: whether the book is
    loaded ([this.file] and [this.fileContent] are set), the range to jump
    to, and the [jumpCfiRange] property of every render of the reader,
    oldest first. *)
Record EpubView := {
  loaded : bool;
  jumpCfiRange : option jsstring;
  rendered : list (option jsstring)
}.

Definition set_jump (v : EpubView) (j : option jsstring) : EpubView :=
  {| loaded := loaded v; jumpCfiRange := j; rendered := rendered v |}.

(** [renderReader]: renders the reader with the jump and then forgets
    the jump; does nothing while the book is not loaded. *)
Definition renderReader (v : EpubView) : EpubView :=
  if loaded v then
    {| loaded := loaded v; jumpCfiRange := None;
       rendered := rendered v ++ [jumpCfiRange v] |}
  else v.

(** [handleJumpFromCfi64], with the render it asks for. *)
Definition handleJumpFromCfi64 (v : EpubView) (encoded : jsstring) : EpubView :=
  try_catch
    (range <-! base64UrlDecode encoded ;; Ok (renderReader (set_jump v (Some range))))
    (fun _ => v).

(** A match of [/#?cfi64=([A-Za-z0-9_-]+)/] at the start of [s]: with the
    [#] when there is one, and without it when that fails. *)
Definition match_hash_key_here (s : jsstring) : option jsstring :=
  let without := fst <$> match_key_here (lit "cfi64=") s in
  match s with
  | c :: tl =>
      if c =? chr "#" then
        match match_key_here (lit "cfi64=") tl with
        | Some (tok, _) => Some tok
        | None => without
        end
      else without
  | [] => without
  end.

(** [subpath.match(/#?cfi64=([A-Za-z0-9_-]+)/)]: the captured group of the
    leftmost match. *)
Fixpoint match_hash_key (s : jsstring) : option jsstring :=
  match match_hash_key_here s with
  | Some tok => Some tok
  | None =>
      match s with
      | [] => None
      | _ :: tl => match_hash_key tl
      end
  end.

(** The ephemeral state that the plugin and the workspace pass to the
    view, as far as the view reads it: [cfi64] and [subpath], each a string
    when it is there. *)
Record EphemeralState := {
  cfi64 : option jsstring;
  subpath : option jsstring
}.

(** [setEphemeralState(state)]; [None] is a state that is not truthy. *)
Definition setEphemeralState (v : EpubView) (state : option EphemeralState) : EpubView :=
  match state with
  | None => v
  | Some state =>
      match Reader.truthy (cfi64 state) with
      | Some encoded => handleJumpFromCfi64 v encoded
      | None =>
          match subpath state with
          | Some subpath =>
              match match_hash_key subpath with
              | Some encoded => handleJumpFromCfi64 v encoded
              | None => v
              end
          | None => v
          end
      end
  end.

(** [onLoadFile], after the book was read: the jump of an ephemeral state
    that the leaf already has is taken, and the reader is rendered. *)
Definition onLoadFile (v : EpubView) (maybeEState : option EphemeralState) : EpubView :=
  let v := {| loaded := true; jumpCfiRange := jumpCfiRange v; rendered := rendered v |} in
  let v :=
    match Reader.truthy (maybeEState ≫= cfi64) with
    | Some encoded => handleJumpFromCfi64 v encoded
    | None => v
    end in
  renderReader v.

(** The range of the [cfi64] of an ephemeral state: of a token that is
    there and decodes. *)
Definition state_range (state : option EphemeralState) : option jsstring :=
  match Reader.truthy (state ≫= cfi64) with
  | Some encoded =>
      match base64UrlDecode encoded with
      | Ok range => Some range
      | Throw _ => None
      end
  | None => None
  end.

(** A view whose book is still being read. *)
Definition opening_view : EpubView :=
  {| loaded := false; jumpCfiRange := None; rendered := [] |}.

End View.

(** ** Platform: numbers as text *)

Module Numbers.

(** The digits of a natural number before [acc], most significant first;
    [fuel] bounds the number of digits that follow the first one. *)
Fixpoint digits_of (fuel : nat) (n : Z) (acc : jsstring) : jsstring :=
  let acc := (chr "0" + n mod 10) :: acc in
  match fuel with
  | O => acc
  | S fuel' => if n <? 10 then acc else digits_of fuel' (n / 10) acc
  end.

(** [String(n)] and [`${n}`] for an integer [n] (below [10^21] in absolute
    value, where the notation with an exponent starts). *)
Definition decimal (n : Z) : jsstring :=
  if n <? 0 then chr "-" :: digits_of (Z.to_nat (Z.log2 (- n))) (- n) []
  else digits_of (Z.to_nat (Z.log2 n)) n [].

(** [s.padStart(2, "0")] *)
Definition padStart2 (s : jsstring) : jsstring :=
  repeat (chr "0") (2 - length s) ++ s.

Fixpoint take_while (p : Z -> bool) (s : jsstring) : jsstring :=
  match s with
  | [] => []
  | c :: tl => if p c then c :: take_while p tl else []
  end.

Definition is_hex (c : Z) : bool :=
  match URI.hex_digit c with Some _ => true | None => false end.

(** [parseInt(s, 16)]; [None] is [NaN].  The value is exact as long as it
    is below [2^53]. *)
Definition parseInt16 (s : jsstring) : option Z :=
  let S := drop_while Text.is_white_space s in
  let sign := match S with c :: _ => if c =? chr "-" then -1 else 1 | [] => 1 end in
  let S :=
    match S with
    | c :: tl => if (c =? chr "+") || (c =? chr "-") then tl else S
    | [] => S
    end in
  let S := if starts_with (lit "0x") S || starts_with (lit "0X") S then drop 2 S else S in
  match take_while is_hex S with
  | [] => None
  | Z_ => Some (sign * foldl (fun acc c => 16 * acc + default 0 (URI.hex_digit c)) 0 Z_)
  end.

(** [`${n}`] for the result of [parseInt]. *)
Definition Number_toString (n : option Z) : jsstring :=
  match n with
  | Some n => decimal n
  | None => lit "NaN"
  end.

(** The number a text of decimal digits stands for. *)
Definition undecimal (s : jsstring) : Z :=
  foldl (fun acc c => 10 * acc + (c - chr "0")) 0 s.

End Numbers.

(** ** EpubReader.tsx: colours *)

Module Color.
Import Text Numbers.

Definition DEFAULT_HIGHLIGHT_COLOR : jsstring := lit "#ffd700".

Definition normalizeHexColor (input : option jsstring) : option jsstring :=
  let raw := trim (default [] input) in
  match raw with
  | [] => None
  | _ =>
      let hex := if starts_with (lit "#") raw then drop 1 raw else raw in
      let hex :=
        if (length hex =? 3)%nat then flat_map (fun c => [c; c]) hex else hex in
      if (length hex =? 6)%nat && forallb is_hex hex
      then Some (chr "#" :: toLowerCase_ascii hex)
      else None
  end.

(** [hexToRgba(hex, alpha)]; [alpha] is given as the text that the
    template writes for the number. *)
Definition hexToRgba (hex : option jsstring) (alpha : jsstring) : jsstring :=
  let normalized := default DEFAULT_HIGHLIGHT_COLOR (normalizeHexColor hex) in
  let r := parseInt16 (take 2 (drop 1 normalized)) in
  let g := parseInt16 (take 2 (drop 3 normalized)) in
  let b := parseInt16 (take 2 (drop 5 normalized)) in
  lit "rgba(" ++ Number_toString r ++ lit ", " ++ Number_toString g ++ lit ", "
    ++ Number_toString b ++ lit ", " ++ alpha ++ lit ")".

(** *** Vocabulary of the properties *)

Definition lower_hex (c : Z) : bool :=
  ((chr "0" <=? c) && (c <=? chr "9")) || ((chr "a" <=? c) && (c <=? chr "f")).

Definition rgba (r g b : Z) (alpha : jsstring) : jsstring :=
  lit "rgba(" ++ decimal r ++ lit ", " ++ decimal g ++ lit ", " ++ decimal b
    ++ lit ", " ++ alpha ++ lit ")".

End Color.

(** ** EpubReader.tsx: the note of a selection *)

Module Note.
Import Text Numbers Selection.

(** The fields of a [Date] in local time that [toTimestampId] reads. *)
Record LocalTime := {
  getFullYear : Z;
  getMonth : Z;
  getDate : Z;
  getHours : Z;
  getMinutes : Z;
  getSeconds : Z
}.

Definition pad (n : Z) : jsstring := padStart2 (decimal n).

Definition toTimestampId (d : LocalTime) : jsstring :=
  decimal (getFullYear d) ++ pad (getMonth d + 1) ++ pad (getDate d) ++ lit "-"
    ++ pad (getHours d) ++ pad (getMinutes d) ++ pad (getSeconds d).

(** The name of the note file in [createSelectionNote]: [basename] is the
    name of the book, [text] the selection and [now] is [new Date()]. *)
Definition selection_note_name (basename text : jsstring) (now : LocalTime) : jsstring :=
  let label := selection_label text in
  let safeBook :=
    match take 40 (sanitizeFileName (Some basename)) with
    | [] => lit "Book"
    | s => s
    end in
  let safeLabel := take 40 (sanitizeFileName (Some label)) in
  let stamp := toTimestampId now in
  let base :=
    match safeLabel with
    | [] => safeBook ++ lit "-" ++ stamp
    | _ => safeBook ++ lit "-" ++ safeLabel ++ lit "-" ++ stamp
    end in
  base ++ lit ".md".

(** *** Vocabulary of the properties *)

(** A date of the years 1000 to 9999. *)
Definition calendar_time (d : LocalTime) : Prop :=
  1000 <= getFullYear d <= 9999
  /\ 0 <= getMonth d <= 11
  /\ 1 <= getDate d <= 31
  /\ 0 <= getHours d <= 23
  /\ 0 <= getMinutes d <= 59
  /\ 0 <= getSeconds d <= 59.

Definition is_digit (c : Z) : bool := (chr "0" <=? c) && (c <=? chr "9").

Definition noon_2025 : LocalTime :=
  {| getFullYear := 2025; getMonth := 0; getDate := 31;
     getHours := 12; getMinutes := 0; getSeconds := 5 |}.

Definition midnight_2026 : LocalTime :=
  {| getFullYear := 2026; getMonth := 11; getDate := 1;
     getHours := 0; getMinutes := 0; getSeconds := 0 |}.

End Note.

(** ** EpubReader.tsx: the folder of a note *)

Module Folders.

(** The vault as [ensureFolder] uses it: the paths that exist, and the
    paths [createFolder] was called with, oldest first.  [createFolder]
    is taken to succeed on a path that does not exist. *)
Record Vault := {
  existing : gset jsstring;
  created : list jsstring
}.

Definition getAbstractFileByPath (v : Vault) (p : jsstring) : bool :=
  bool_decide (p ∈ existing v).

Definition createFolder (p : jsstring) (v : Vault) : Vault :=
  {| existing := {[p]} ∪ existing v; created := created v ++ [p] |}.

(** [s.split("/")] *)
Fixpoint split_slash (s : jsstring) : list jsstring :=
  match s with
  | [] => [[]]
  | c :: tl =>
      if c =? chr "/" then [] :: split_slash tl
      else
        match split_slash tl with
        | part :: parts => (c :: part) :: parts
        | [] => [[c]]
        end
  end.

(** One round of the loop: [current] grows by [part], and the folder is
    created unless something is there. *)
Definition ensure_part (acc : jsstring * Vault) (part : jsstring) : jsstring * Vault :=
  let '(current, v) := acc in
  let current :=
    match current with
    | [] => part
    | _ => current ++ lit "/" ++ part
    end in
  (current, if getAbstractFileByPath v current then v else createFolder current v).

Section EnsureFolder.

Variable normalizePath : jsstring -> jsstring.

Definition ensureFolder (v : Vault) (folderPath : jsstring) : Vault :=
  let normalized := drop_while (fun c => c =? chr "/") (normalizePath folderPath) in
  match normalized with
  | [] => v
  | _ =>
      let parts := filter (fun part => part <> []) (split_slash normalized) in
      (foldl ensure_part ([], v) parts).2
  end.

End EnsureFolder.

(** *** Vocabulary of the properties *)

(** The folders on the way to the last one: [a], [a/b], [a/b/c]. *)
Fixpoint ancestors (current : jsstring) (parts : list jsstring) : list jsstring :=
  match parts with
  | [] => []
  | part :: tl =>
      let current :=
        match current with
        | [] => part
        | _ => current ++ lit "/" ++ part
        end in
      current :: ancestors current tl
  end.

(** The parts of a folder path that [ensureFolder] walks through. *)
Definition parts_of (normalized : jsstring) : list jsstring :=
  filter (fun part => part <> []) (split_slash (drop_while (fun c => c =? chr "/") normalized)).

Definition vault_with_notes : Vault :=
  {| existing := {[ lit "Notes" ]}; created := [] |}.

End Folders.

(** ** EpubView.tsx: where the reader opens a book *)

Module ViewProgress.
Import Progress.

(** [renderReader]: [this.plugin.getProgress(this.file.path) ?? 0], the
    location at which the reader opens the book. *)
Definition initialLocation (normalizePath : jsstring -> jsstring) (st : PluginState)
    (path : jsstring) : Location :=
  default (LocNumber 0) (getProgress normalizePath st path).

End ViewProgress.

(** * Properties *)

(** ** Bits as arithmetic *)

Module BitFacts.

Ltac dlia := Z.to_euclidean_division_equations; lia.

Lemma lor_disjoint n a b :
  0 <= n -> 0 <= b < 2 ^ n -> a mod 2 ^ n = 0 -> Z.lor a b = a + b.
Proof.
  intros Hn Hb Ha.
  rewrite <- Z.lxor_lor, Z.add_nocarry_lxor; try reflexivity.
  all: apply Z.bits_inj'; intros i Hi; rewrite Z.land_spec, Z.bits_0.
  all: destruct (Z.lt_ge_cases i n) as [Hlt|Hge].
  all: try (rewrite <- (Z.mod_pow2_bits_low a n i), Ha, Z.bits_0 by lia; reflexivity).
  all: rewrite <- (Z.mod_small b (2 ^ n)) by lia.
  all: rewrite (Z.mod_pow2_bits_high b n i) by lia; apply andb_false_r.
Qed.

(** [(x << n) | y] adds when [y] has [n] bits. *)
Lemma lor_shiftl n x y :
  0 <= n -> 0 <= y < 2 ^ n -> Z.lor (Z.shiftl x n) y = x * 2 ^ n + y.
Proof.
  intros Hn Hy. rewrite Z.shiftl_mul_pow2 by done.
  apply (lor_disjoint n); [done|done|]. apply Z.mod_mul. lia.
Qed.

Lemma lor_0x80 y : 0 <= y < 64 -> Z.lor 0x80 y = 128 + y.
Proof. intros Hy. apply (lor_disjoint 6); [lia|done|done]. Qed.

Lemma land_low n a m : 0 <= n -> m = 2 ^ n - 1 -> Z.land a m = a mod 2 ^ n.
Proof.
  intros Hn ->. rewrite <- Z.land_ones by lia. f_equal. rewrite Z.ones_equiv. lia.
Qed.

Lemma land_3 a : Z.land a 3 = a mod 4. Proof. by apply (land_low 2). Qed.
Lemma land_7 a : Z.land a 7 = a mod 8. Proof. by apply (land_low 3). Qed.
Lemma land_15 a : Z.land a 15 = a mod 16. Proof. by apply (land_low 4). Qed.
Lemma land_31 a : Z.land a 31 = a mod 32. Proof. by apply (land_low 5). Qed.
Lemma land_63 a : Z.land a 63 = a mod 64. Proof. by apply (land_low 6). Qed.
Lemma land_1023 a : Z.land a 1023 = a mod 1024. Proof. by apply (land_low 10). Qed.

Lemma shiftr_2 a : Z.shiftr a 2 = a / 4. Proof. by rewrite Z.shiftr_div_pow2. Qed.
Lemma shiftr_4 a : Z.shiftr a 4 = a / 16. Proof. by rewrite Z.shiftr_div_pow2. Qed.
Lemma shiftr_6 a : Z.shiftr a 6 = a / 64. Proof. by rewrite Z.shiftr_div_pow2. Qed.
Lemma shiftr_10 a : Z.shiftr a 10 = a / 1024. Proof. by rewrite Z.shiftr_div_pow2. Qed.
Lemma shiftr_12 a : Z.shiftr a 12 = a / 4096. Proof. by rewrite Z.shiftr_div_pow2. Qed.
Lemma shiftr_18 a : Z.shiftr a 18 = a / 262144. Proof. by rewrite Z.shiftr_div_pow2. Qed.
Lemma shiftl_2 a : Z.shiftl a 2 = a * 4. Proof. by rewrite Z.shiftl_mul_pow2. Qed.
Lemma shiftl_4 a : Z.shiftl a 4 = a * 16. Proof. by rewrite Z.shiftl_mul_pow2. Qed.
Lemma shiftl_6 a : Z.shiftl a 6 = a * 64. Proof. by rewrite Z.shiftl_mul_pow2. Qed.
Lemma shiftl_10 a : Z.shiftl a 10 = a * 1024. Proof. by rewrite Z.shiftl_mul_pow2. Qed.

(** Masks and right shifts as remainders and quotients. *)
Ltac unmask :=
  rewrite ?land_3, ?land_7, ?land_15, ?land_31, ?land_63, ?land_1023,
          ?shiftr_2, ?shiftr_4, ?shiftr_6, ?shiftr_10, ?shiftr_12, ?shiftr_18.

Lemma lor_shiftl_2 x y : 0 <= y < 4 -> Z.lor (Z.shiftl x 2) y = x * 4 + y.
Proof. intros. by rewrite (lor_shiftl 2). Qed.
Lemma lor_shiftl_4 x y : 0 <= y < 16 -> Z.lor (Z.shiftl x 4) y = x * 16 + y.
Proof. intros. by rewrite (lor_shiftl 4). Qed.
Lemma lor_shiftl_6 x y : 0 <= y < 64 -> Z.lor (Z.shiftl x 6) y = x * 64 + y.
Proof. intros. by rewrite (lor_shiftl 6). Qed.

End BitFacts.

(** ** Base64 *)

Module Base64Facts.
Import Base64 BitFacts.

Lemma sextets_of_bytes_range bytes :
  Forall is_byte bytes -> Forall is_sextet (sextets_of_bytes bytes).
Proof.
  revert bytes. fix IH 1. intros [|a [|b [|c tl]]] Hb; cbn [sextets_of_bytes].
  - constructor.
  - inversion Hb as [|? ? Ha _]; subst. unfold is_byte, is_sextet in *. unmask.
    repeat constructor; rewrite ?shiftl_4; dlia.
  - inversion Hb as [|? ? Ha Hb']; subst. inversion Hb' as [|? ? Hb1 _]; subst.
    unfold is_byte, is_sextet in *. unmask.
    rewrite lor_shiftl_4 by dlia. rewrite shiftl_2.
    repeat constructor; dlia.
  - inversion Hb as [|? ? Ha Hb']; subst. inversion Hb' as [|? ? Hb1 Hb'']; subst.
    inversion Hb'' as [|? ? Hc Htl]; subst.
    unfold is_byte, is_sextet in *. unmask.
    rewrite lor_shiftl_4, lor_shiftl_2 by dlia.
    repeat (constructor; [dlia|]). by apply IH.
Qed.

Lemma bytes_of_sextets_of_bytes bytes :
  Forall is_byte bytes -> bytes_of_sextets (sextets_of_bytes bytes) = bytes.
Proof.
  revert bytes. fix IH 1. intros [|a [|b [|c tl]]] Hb; cbn [sextets_of_bytes bytes_of_sextets].
  - done.
  - inversion Hb as [|? ? Ha _]; subst. unfold is_byte in *. unmask.
    rewrite shiftl_4. unmask. rewrite lor_shiftl_2 by dlia. f_equal. dlia.
  - inversion Hb as [|? ? Ha Hb']; subst. inversion Hb' as [|? ? Hb1 _]; subst.
    unfold is_byte in *. unmask.
    rewrite lor_shiftl_4 by dlia. rewrite (shiftl_2 (b mod 16)). unmask.
    rewrite lor_shiftl_2, lor_shiftl_4 by dlia.
    f_equal; [dlia|]. f_equal. dlia.
  - inversion Hb as [|? ? Ha Hb']; subst. inversion Hb' as [|? ? Hb1 Hb'']; subst.
    inversion Hb'' as [|? ? Hc Htl]; subst.
    unfold is_byte in *. unmask.
    rewrite lor_shiftl_4, lor_shiftl_2 by dlia. unmask.
    rewrite lor_shiftl_2, lor_shiftl_4, lor_shiftl_6 by dlia.
    f_equal; [dlia|]. f_equal; [dlia|]. f_equal; [dlia|]. by apply IH.
Qed.

(** A property checked on every integer of a range holds on the range. *)
Lemma forall_range (f : Z -> bool) (lo : Z) (len : nat) :
  forallb f ((fun k => lo + Z.of_nat k) <$> seq 0 len) = true ->
  forall i, lo <= i < lo + Z.of_nat len -> f i = true.
Proof.
  intros Hall i Hi. rewrite forallb_forall in Hall. apply Hall.
  apply list_elem_of_In, list_elem_of_fmap. exists (Z.to_nat (i - lo)).
  split; [lia|]. apply list_elem_of_In, in_seq. lia.
Qed.

Lemma char_of_sextet_facts i :
  is_sextet i ->
  sextet_of_char (char_of_sextet i) = Some i
  /\ standard_char (url_char (char_of_sextet i)) = char_of_sextet i
  /\ url_char (char_of_sextet i) <> pad
  /\ token_char (url_char (char_of_sextet i)) = true
  /\ 0 <= char_of_sextet i <= 0xFF.
Proof.
  intros Hi.
  pose proof (forall_range
    (fun i => bool_decide (sextet_of_char (char_of_sextet i) = Some i
       /\ standard_char (url_char (char_of_sextet i)) = char_of_sextet i
       /\ url_char (char_of_sextet i) <> pad
       /\ token_char (url_char (char_of_sextet i)) = true
       /\ 0 <= char_of_sextet i <= 0xFF)) 0 64 ltac:(by vm_compute) i) as H.
  apply bool_decide_eq_true in H; [done|]. unfold is_sextet in Hi. lia.
Qed.

Lemma token_char_facts c :
  token_char c = true ->
  in_alphabet (standard_char c) = true /\ c <> pad.
Proof.
  intros Hc.
  assert (0 <= c < 128) as Hrange.
  { unfold token_char in Hc.
    change (chr "A") with 65 in Hc. change (chr "Z") with 90 in Hc.
    change (chr "a") with 97 in Hc. change (chr "z") with 122 in Hc.
    change (chr "0") with 48 in Hc. change (chr "9") with 57 in Hc.
    change (chr "_") with 95 in Hc. change (chr "-") with 45 in Hc. lia. }
  pose proof (forall_range
    (fun c => bool_decide (token_char c = true ->
        in_alphabet (standard_char c) = true /\ c <> pad)) 0 128 ltac:(by vm_compute) c) as H.
  apply bool_decide_eq_true in H; [by apply H|lia].
Qed.

Lemma in_alphabet_facts c :
  in_alphabet c = true -> c <> pad /\ is_ascii_whitespace c = false.
Proof.
  intros Hc.
  assert (0 <= c < 128) as Hrange.
  { unfold in_alphabet, sextet_of_char in Hc.
    destruct (index_from 0 c alphabet) eqn:Hidx; [|done]. clear Hc.
    assert (forall l i, index_from i c l = Some z -> c ∈ l) as Hin.
    { induction l as [|x l IH]; intros i; simpl; [done|].
      destruct (Z.eqb_spec x c) as [->|]; [by left|]. intros ?. right. by eapply IH. }
    apply Hin in Hidx. clear Hin.
    assert (Forall (fun c => 0 <= c < 128) alphabet) as Hall.
    { apply Forall_forall. intros x Hx.
      apply (bool_decide_unpack _).
      revert x Hx. apply Forall_forall. by apply (bool_decide_unpack _); vm_compute. }
    by apply (proj1 (Forall_forall _ _) Hall). }
  pose proof (forall_range
    (fun c => bool_decide (in_alphabet c = true ->
        c <> pad /\ is_ascii_whitespace c = false)) 0 128 ltac:(by vm_compute) c) as H.
  apply bool_decide_eq_true in H; [by apply H|lia].
Qed.

Ltac nlia := lia.

Lemma replace_standard t :
  replace_all (chr "_") (chr "/") (replace_all (chr "-") (chr "+") t) = standard_char <$> t.
Proof. unfold replace_all. by rewrite map_map. Qed.

Lemma replace_url t :
  replace_all (chr "/") (chr "_") (replace_all (chr "+") (chr "-") t) = url_char <$> t.
Proof. unfold replace_all. by rewrite map_map. Qed.

Lemma url_char_pad : url_char pad = pad.
Proof. done. Qed.

Lemma drop_while_pad_repeat k l :
  drop_while (fun x => x =? pad) (repeat pad k ++ l) = drop_while (fun x => x =? pad) l.
Proof.
  induction k as [|k IH]; [done|].
  cbn [repeat app drop_while]. by rewrite Z.eqb_refl.
Qed.

Lemma drop_while_pad_keep l :
  Forall not_pad l -> drop_while (fun x => x =? pad) l = l.
Proof.
  destruct 1 as [|c l Hc _]; [done|]. simpl.
  by destruct (Z.eqb_spec c pad).
Qed.

Lemma rev_repeat {A} (x : A) k : rev (repeat x k) = repeat x k.
Proof.
  induction k as [|k IH]; [done|]. simpl. rewrite IH.
  by rewrite <- repeat_cons.
Qed.

Lemma strip_trailing_pad_app body k :
  Forall not_pad body -> strip_trailing_pad (body ++ repeat pad k) = body.
Proof.
  intros Hbody. unfold strip_trailing_pad.
  rewrite rev_app_distr, rev_repeat, drop_while_pad_repeat.
  rewrite drop_while_pad_keep; [apply rev_involutive|].
  apply Forall_forall. intros x Hx%list_elem_of_In%in_rev%list_elem_of_In.
  by apply (proj1 (Forall_forall _ _) Hbody).
Qed.

Lemma pad_loop_spec s :
  pad_loop 3 s = s ++ repeat pad ((4 - length s mod 4) mod 4)%nat.
Proof.
  assert (forall m : nat, (m mod 4 = 0 \/ m mod 4 = 1 \/ m mod 4 = 2 \/ m mod 4 = 3)%nat) as Hcases
    by (intros m; nlia).
  unfold pad_loop.
  destruct (Nat.eqb_spec (length s mod 4) 0) as [H0|H0].
  { rewrite H0. simpl. by rewrite app_nil_r. }
  rewrite length_app. simpl length.
  destruct (Nat.eqb_spec ((length s + 1) mod 4) 0) as [H1|H1].
  { replace (length s mod 4)%nat with 3%nat by nlia. done. }
  rewrite <- app_assoc, length_app. simpl length.
  destruct (Nat.eqb_spec ((length s + 2) mod 4) 0) as [H2|H2].
  { replace (length s mod 4)%nat with 2%nat by nlia. done. }
  rewrite <- app_assoc.
  replace (length s mod 4)%nat with 1%nat by nlia. done.
Qed.

Lemma strip_padding_cases s :
  Forall not_pad s ->
  strip_padding s = s
  /\ strip_padding (s ++ [pad]) = s
  /\ strip_padding (s ++ [pad; pad]) = s
  /\ strip_padding (s ++ [pad; pad; pad]) = s ++ [pad].
Proof.
  intros Hs. unfold strip_padding.
  rewrite !rev_app_distr. cbn [rev app].
  assert (Forall not_pad (rev s)) as Hrev.
  { apply Forall_forall. intros x Hx%list_elem_of_In%in_rev%list_elem_of_In.
    by apply (proj1 (Forall_forall _ _) Hs). }
  assert (rev s = [] -> s = []) as Hnil.
  { intros Hr. apply (f_equal (@rev Z)) in Hr. by rewrite rev_involutive in Hr. }
  rewrite !Z.eqb_refl.
  repeat split.
  - destruct (rev s) as [|p [|q tl]] eqn:Hr.
    + by rewrite Hnil.
    + inversion Hrev as [|? ? Hp _]; subst. by destruct (Z.eqb_spec p pad).
    + inversion Hrev as [|? ? Hp _]; subst. by destruct (Z.eqb_spec p pad).
  - destruct (rev s) as [|q tl] eqn:Hr.
    + by rewrite Hnil.
    + inversion Hrev as [|? ? Hq _]; subst. destruct (Z.eqb_spec q pad); [done|].
      change (rev tl ++ [q]) with (rev (q :: tl)).
      by rewrite <- Hr, rev_involutive.
  - apply rev_involutive.
  - cbn [rev]. by rewrite rev_involutive.
Qed.

Lemma sextets_of_chars_alphabet s :
  Forall (fun c => in_alphabet c = true) s ->
  exists sx, sextets_of_chars s = Some sx /\ length sx = length s.
Proof.
  induction 1 as [|c s Hc _ (sx & IH & Hlen)]; [by exists []|].
  unfold in_alphabet in Hc. simpl.
  destruct (sextet_of_char c) as [i|]; [|done].
  rewrite IH. exists (i :: sx). by rewrite <- Hlen.
Qed.

Lemma sextets_of_chars_pad s : sextets_of_chars (s ++ [pad]) = None.
Proof.
  induction s as [|c s IH]; [done|]. simpl. rewrite IH.
  by destruct (sextet_of_char c).
Qed.

Lemma sextets_of_chars_of_sextets sx :
  Forall is_sextet sx -> sextets_of_chars (char_of_sextet <$> sx) = Some sx.
Proof.
  induction 1 as [|i sx Hi _ IH]; [done|].
  rewrite fmap_cons. simpl. rewrite IH.
  by destruct (char_of_sextet_facts i Hi) as [-> _].
Qed.

Lemma filter_no_whitespace s :
  Forall (fun c => is_ascii_whitespace c = false) s ->
  filter (fun c => negb (is_ascii_whitespace c)) s = s.
Proof.
  induction 1 as [|c s Hc _ IH]; [done|].
  rewrite filter_cons_True by (by rewrite Hc). by rewrite IH.
Qed.

(** [atob] after the padding loop, on a text over the base64 alphabet. *)
Lemma forgiving_decode_padded s :
  Forall (fun c => in_alphabet c = true) s ->
  forgiving_decode (pad_loop 3 s) =
    if (length s mod 4 =? 1)%nat then None
    else bytes_of_sextets <$> sextets_of_chars s.
Proof.
  intros Hs.
  assert (Forall not_pad s) as Hnp.
  { eapply Forall_impl; [exact Hs|]. intros c Hc. by apply in_alphabet_facts. }
  assert (Forall (fun c => is_ascii_whitespace c = false) s) as Hws.
  { eapply Forall_impl; [exact Hs|]. intros c Hc. by apply in_alphabet_facts. }
  destruct (strip_padding_cases s Hnp) as (Hp0 & Hp1 & Hp2 & Hp3).
  rewrite pad_loop_spec. unfold forgiving_decode.
  rewrite filter_no_whitespace.
  2:{ apply Forall_app. split; [done|]. apply Forall_forall.
      intros x Hx%list_elem_of_In%repeat_spec. by subst x. }
  assert (length (s ++ repeat pad ((4 - length s mod 4) mod 4)) mod 4 = 0)%nat as Hlen.
  { rewrite length_app, repeat_length. nlia. }
  rewrite Hlen. simpl (0 =? 0)%nat. cbv iota.
  assert ((length s mod 4 = 0 \/ length s mod 4 = 1 \/ length s mod 4 = 2
           \/ length s mod 4 = 3)%nat) as [Hm|[Hm|[Hm|Hm]]] by nlia;
    rewrite Hm; simpl repeat.
  - rewrite app_nil_r, Hp0, Hm. done.
  - rewrite Hp3. rewrite length_app. simpl length.
    replace ((length s + 1) mod 4)%nat with 2%nat by nlia. simpl.
    by rewrite sextets_of_chars_pad.
  - rewrite Hp2, Hm. done.
  - rewrite Hp1, Hm. done.
Qed.

End Base64Facts.

(** ** UTF-8 and UTF-16 *)

Module UnicodeFacts.
Import Unicode BitFacts.

Lemma in_range_true lo hi b : lo <= b <= hi -> in_range lo hi b = true.
Proof. unfold in_range. lia. Qed.

Lemma in_range_false lo hi b : b < lo \/ hi < b -> in_range lo hi b = false.
Proof. unfold in_range. lia. Qed.

Lemma utf8_lead_1 b : 0 <= b <= 0x7F -> utf8_lead b = (utf8_init, [CodePoint b]).
Proof. intros Hb. unfold utf8_lead. by rewrite in_range_true. Qed.

Lemma utf8_lead_2 b :
  0xC2 <= b <= 0xDF ->
  utf8_lead b =
    ({| code_point := b mod 32; bytes_seen := 0; bytes_needed := 1;
        lower_boundary := 0x80; upper_boundary := 0xBF |}, []).
Proof.
  intros Hb. unfold utf8_lead.
  rewrite in_range_false, in_range_true by lia. by rewrite land_31.
Qed.

Lemma utf8_lead_3 b :
  0xE0 <= b <= 0xEF ->
  utf8_lead b =
    ({| code_point := b mod 16; bytes_seen := 0; bytes_needed := 2;
        lower_boundary := if b =? 0xE0 then 0xA0 else 0x80;
        upper_boundary := if b =? 0xED then 0x9F else 0xBF |}, []).
Proof.
  intros Hb. unfold utf8_lead.
  rewrite !in_range_false, in_range_true by lia. by rewrite land_15.
Qed.

Lemma utf8_lead_4 b :
  0xF0 <= b <= 0xF4 ->
  utf8_lead b =
    ({| code_point := b mod 8; bytes_seen := 0; bytes_needed := 3;
        lower_boundary := if b =? 0xF0 then 0x90 else 0x80;
        upper_boundary := if b =? 0xF4 then 0x8F else 0xBF |}, []).
Proof.
  intros Hb. unfold utf8_lead.
  rewrite !in_range_false, in_range_true by lia. by rewrite land_7.
Qed.

(** A continuation byte inside its boundaries: the last of its sequence,
    or one before the last. *)
Lemma utf8_step_last st b :
  bytes_seen st + 1 = bytes_needed st ->
  0 <= bytes_seen st ->
  lower_boundary st <= b <= upper_boundary st ->
  0x80 <= b <= 0xBF ->
  utf8_step st b = (utf8_init, [CodePoint (code_point st * 64 + (b - 128))]).
Proof.
  intros Hn Hs Hb Hb'. unfold utf8_step.
  destruct (Z.eqb_spec (bytes_needed st) 0); [lia|].
  rewrite in_range_true by done. cbn [negb].
  rewrite land_63, lor_shiftl_6 by dlia.
  replace (b mod 64) with (b - 128) by dlia.
  by destruct (Z.eqb_spec (bytes_seen st + 1) (bytes_needed st)).
Qed.

Lemma utf8_step_middle st b :
  bytes_seen st + 1 < bytes_needed st ->
  0 <= bytes_seen st ->
  lower_boundary st <= b <= upper_boundary st ->
  0x80 <= b <= 0xBF ->
  utf8_step st b =
    ({| code_point := code_point st * 64 + (b - 128);
        bytes_seen := bytes_seen st + 1;
        bytes_needed := bytes_needed st;
        lower_boundary := 0x80; upper_boundary := 0xBF |}, []).
Proof.
  intros Hn Hs Hb Hb'. unfold utf8_step.
  destruct (Z.eqb_spec (bytes_needed st) 0); [lia|].
  rewrite in_range_true by done. cbn [negb].
  rewrite land_63, lor_shiftl_6 by dlia.
  replace (b mod 64) with (b - 128) by dlia.
  destruct (Z.eqb_spec (bytes_seen st + 1) (bytes_needed st)); [lia|done].
Qed.

Lemma utf8_step_init b : utf8_step utf8_init b = utf8_lead b.
Proof. done. Qed.

Lemma utf8_run_cons st b tl :
  utf8_run st (b :: tl) = (utf8_step st b).2 ++ utf8_run (utf8_step st b).1 tl.
Proof. simpl. by destruct (utf8_step st b). Qed.

Lemma utf8_encode_cp_bytes cp :
  is_scalar_value cp -> Forall is_byte (utf8_encode_cp cp).
Proof.
  intros Hcp. unfold utf8_encode_cp, is_byte, is_scalar_value in *.
  repeat case_match; unmask; rewrite ?lor_0x80 by dlia;
    repeat constructor; dlia.
Qed.

Ltac utf8_fields :=
  cbn [fst snd app code_point bytes_seen bytes_needed lower_boundary upper_boundary].

Lemma utf8_run_encode_cp cp rest :
  is_scalar_value cp ->
  utf8_run utf8_init (utf8_encode_cp cp ++ rest) = CodePoint cp :: utf8_run utf8_init rest.
Proof.
  intros Hcp. unfold utf8_encode_cp, is_scalar_value in *.
  destruct (Z.leb_spec cp 0x7F) as [H1|H1].
  { cbn [app]. rewrite utf8_run_cons, utf8_step_init, utf8_lead_1 by lia. done. }
  destruct (Z.leb_spec cp 0x7FF) as [H2|H2].
  { unmask. rewrite lor_0x80 by dlia. cbn [app].
    rewrite utf8_run_cons, utf8_step_init, utf8_lead_2 by dlia. utf8_fields.
    rewrite utf8_run_cons, utf8_step_last; utf8_fields; [|done|done|dlia..].
    do 2 f_equal. dlia. }
  destruct (Z.leb_spec cp 0xFFFF) as [H3|H3].
  { unmask. rewrite !lor_0x80 by dlia. cbn [app].
    rewrite utf8_run_cons, utf8_step_init, utf8_lead_3 by dlia. utf8_fields.
    rewrite utf8_run_cons, utf8_step_middle; utf8_fields;
      [|done|done|repeat case_match; dlia|dlia].
    rewrite utf8_run_cons, utf8_step_last; utf8_fields; [|done|done|dlia..].
    do 2 f_equal. dlia. }
  unmask. rewrite !lor_0x80 by dlia. cbn [app].
  rewrite utf8_run_cons, utf8_step_init, utf8_lead_4 by dlia. utf8_fields.
  rewrite utf8_run_cons, utf8_step_middle; utf8_fields;
    [|done|done|repeat case_match; dlia|dlia].
  rewrite utf8_run_cons, utf8_step_middle; utf8_fields; [|done|done|dlia..].
  rewrite utf8_run_cons, utf8_step_last; utf8_fields; [|done|done|dlia..].
  do 2 f_equal. dlia.
Qed.

Lemma utf8_decode_encode cps :
  Forall is_scalar_value cps -> utf8_decode (utf8_encode cps) = CodePoint <$> cps.
Proof.
  unfold utf8_decode, utf8_encode.
  induction 1 as [|cp cps Hcp _ IH]; [done|].
  cbn [map concat]. rewrite utf8_run_encode_cp by done. by rewrite IH.
Qed.

Lemma utf8_encode_bytes cps :
  Forall is_scalar_value cps -> Forall is_byte (utf8_encode cps).
Proof.
  unfold utf8_encode. induction 1 as [|cp cps Hcp _ IH]; [constructor|].
  cbn [map concat]. apply Forall_app. split; [by apply utf8_encode_cp_bytes|done].
Qed.

End UnicodeFacts.

Module Utf16Facts.
Import Unicode BitFacts UnicodeFacts.

Lemma utf16_roundtrip_bounded n s :
  (length s <= n)%nat ->
  well_formed_utf16 s = true ->
  Forall is_scalar_value (to_scalar_values s)
  /\ of_code_points (to_scalar_values s) = s
  /\ (head (to_scalar_values s) = Some byte_order_mark -> head s = Some byte_order_mark).
Proof.
  revert s. induction n as [|n IH]; intros s Hlen Hwf.
  { destruct s; [done|simpl in Hlen; lia]. }
  destruct s as [|c tl]; [done|].
  cbn [well_formed_utf16 to_scalar_values] in *.
  apply andb_true_iff in Hwf as [Hc Hwf].
  unfold code_unit in Hc.
  destruct (is_high_surrogate c) eqn:Hhigh.
  - destruct tl as [|d tl']; [done|].
    apply andb_true_iff in Hwf as [Hd Hwf]. rewrite Hd.
    destruct (IH tl') as (Hs & Hr & _); [simpl in *; lia|done|].
    unfold is_high_surrogate, is_low_surrogate in *.
    rewrite shiftl_10.
    split; [|split].
    + constructor; [|done]. unfold is_scalar_value. lia.
    + unfold of_code_points in *. cbn [map concat]. rewrite Hr.
      unfold code_units_of.
      destruct (Z.ltb_spec (65536 + (c - 55296) * 1024 + (d - 56320)) 65536); [lia|].
      unmask. cbn [app]. f_equal; [dlia|]. f_equal. dlia.
    + cbn [head]. unfold byte_order_mark. intros [= Heq]. lia.
  - apply andb_true_iff in Hwf as [Hlow Hwf]. apply negb_true_iff in Hlow.
    rewrite Hlow.
    destruct (IH tl) as (Hs & Hr & _); [simpl in *; lia|done|].
    unfold is_high_surrogate, is_low_surrogate in *.
    split; [|split].
    + constructor; [|done]. unfold is_scalar_value. lia.
    + unfold of_code_points in *. cbn [map concat]. rewrite Hr.
      unfold code_units_of.
      destruct (Z.ltb_spec c 65536); [done|lia].
    + done.
Qed.

Lemma utf16_roundtrip s :
  well_formed_utf16 s = true ->
  Forall is_scalar_value (to_scalar_values s)
  /\ of_code_points (to_scalar_values s) = s
  /\ (head (to_scalar_values s) = Some byte_order_mark -> head s = Some byte_order_mark).
Proof. by apply (utf16_roundtrip_bounded (length s)). Qed.

Lemma strip_bom_keep cps :
  head cps <> Some byte_order_mark -> strip_bom cps = cps.
Proof.
  destruct cps as [|cp tl]; [done|]. simpl. intros Hne.
  destruct (Z.eqb_spec cp byte_order_mark) as [->|]; done.
Qed.

Lemma with_replacement_code_points cps :
  map with_replacement (CodePoint <$> cps) = cps.
Proof.
  induction cps as [|cp cps IH]; [done|].
  rewrite fmap_cons. cbn [map with_replacement]. by rewrite IH.
Qed.

(** The decoder reads back what the encoder wrote, unless the string is
    not well-formed or opens with a byte order mark. *)
Lemma TextDecoder_TextEncoder s :
  well_formed_utf16 s = true ->
  head s <> Some byte_order_mark ->
  TextDecoder_decode (TextEncoder_encode s) = s.
Proof.
  intros Hwf Hbom. destruct (utf16_roundtrip s Hwf) as (Hs & Hr & Hhead).
  unfold TextDecoder_decode, TextEncoder_encode.
  rewrite utf8_decode_encode by done.
  rewrite with_replacement_code_points.
  rewrite strip_bom_keep; [done|]. auto.
Qed.

(** What the encoder reads of any string of code units are scalar values,
    of which the string has as many code units as it had. *)
Lemma to_scalar_values_bounded n s :
  (length s <= n)%nat ->
  code_units s ->
  Forall is_scalar_value (to_scalar_values s)
  /\ length (of_code_points (to_scalar_values s)) = length s
  /\ (of_code_points (to_scalar_values s) = s -> well_formed_utf16 s = true).
Proof.
  revert s. induction n as [|n IH]; intros s Hlen Hs.
  { destruct s; [done|simpl in Hlen; lia]. }
  destruct s as [|c tl]; [done|].
  inversion Hs as [|? ? Hc Htl]; subst.
  cbn [to_scalar_values well_formed_utf16]. rewrite Hc. cbn [andb].
  unfold code_unit in Hc.
  assert (is_scalar_value replacement) as Hrep by (unfold is_scalar_value, replacement; lia).
  destruct (is_high_surrogate c) eqn:Hhigh.
  - destruct tl as [|d tl'].
    { unfold is_high_surrogate, replacement in *. repeat split; [by constructor|].
      unfold of_code_points. cbn. intros [= Heq]. lia. }
    inversion Htl as [|? ? Hd Htl']; subst. unfold code_unit in Hd.
    destruct (is_low_surrogate d) eqn:Hlow.
    + destruct (IH tl') as (Hsc & Hl & Hwf); [simpl in *; lia|done|].
      unfold is_high_surrogate, is_low_surrogate in *. rewrite shiftl_10.
      assert (code_units_of (65536 + (c - 55296) * 1024 + (d - 56320)) = [c; d]) as Hpair.
      { unfold code_units_of.
        destruct (Z.ltb_spec (65536 + (c - 55296) * 1024 + (d - 56320)) 65536); [lia|].
        unmask. f_equal; [dlia|]. f_equal. dlia. }
      unfold of_code_points in *. cbn [map concat]. rewrite Hpair.
      repeat split.
      * constructor; [|done]. unfold is_scalar_value. lia.
      * cbn [app length]. by rewrite Hl.
      * cbn [app]. intros [= Heq]. by apply Hwf.
    + destruct (IH (d :: tl')) as (Hsc & Hl & _); [simpl in *; lia|done|].
      unfold is_high_surrogate, replacement in *.
      unfold of_code_points in *. cbn [map concat].
      change (code_units_of 65533) with [65533].
      repeat split; [by constructor| |].
      * cbn [app length]. by rewrite Hl.
      * cbn [app]. intros [= Heq _]. lia.
  - destruct (IH tl) as (Hsc & Hl & Hwf); [simpl in *; lia|done|].
    destruct (is_low_surrogate c) eqn:Hlow.
    + unfold is_low_surrogate, replacement in *.
      unfold of_code_points in *. cbn [map concat].
      change (code_units_of 65533) with [65533].
      repeat split; [by constructor| |].
      * cbn [app length]. by rewrite Hl.
      * cbn [app]. intros [= Heq _]. lia.
    + unfold is_high_surrogate, is_low_surrogate in *.
      assert (code_units_of c = [c]) as Hone.
      { unfold code_units_of. destruct (Z.ltb_spec c 65536); [done|lia]. }
      unfold of_code_points in *. cbn [map concat]. rewrite Hone.
      repeat split.
      * constructor; [|done]. unfold is_scalar_value. lia.
      * cbn [app length]. by rewrite Hl.
      * cbn [app negb andb]. intros [= Heq]. by apply Hwf.
Qed.

Lemma to_scalar_values_facts s :
  code_units s ->
  Forall is_scalar_value (to_scalar_values s)
  /\ length (of_code_points (to_scalar_values s)) = length s
  /\ (of_code_points (to_scalar_values s) = s -> well_formed_utf16 s = true).
Proof. by apply (to_scalar_values_bounded (length s)). Qed.

Lemma head_to_scalar_values s :
  head (to_scalar_values s) = Some byte_order_mark <-> head s = Some byte_order_mark.
Proof.
  destruct s as [|c tl]; [done|]. cbn [to_scalar_values].
  unfold is_high_surrogate, is_low_surrogate, byte_order_mark, replacement.
  destruct (Z.leb_spec 55296 c), (Z.leb_spec c 56319); cbn [andb].
  - destruct tl as [|d tl']; cbn [head]; [split; intros [= ?]; lia|].
    rewrite shiftl_10.
    destruct (Z.leb_spec 56320 d), (Z.leb_spec d 57343); cbn [andb head];
      split; intros [= ?]; lia.
  - destruct (Z.leb_spec 56320 c), (Z.leb_spec c 57343); cbn [andb head];
      split; intros [= ?]; try lia; by subst.
  - destruct (Z.leb_spec 56320 c), (Z.leb_spec c 57343); cbn [andb head];
      split; intros [= ?]; try lia; by subst.
  - destruct (Z.leb_spec 56320 c), (Z.leb_spec c 57343); cbn [andb head];
      split; intros [= ?]; try lia; by subst.
Qed.

(** A string written from scalar values is read back as those values. *)
Lemma to_scalar_values_of_code_points cps :
  Forall is_scalar_value cps -> to_scalar_values (of_code_points cps) = cps.
Proof.
  unfold of_code_points.
  induction 1 as [|cp cps Hcp _ IH]; [done|].
  cbn [map concat]. unfold code_units_of, is_scalar_value in *.
  destruct (Z.ltb_spec cp 65536).
  - cbn [app to_scalar_values]. unfold is_high_surrogate, is_low_surrogate.
    destruct (Z.leb_spec 55296 cp), (Z.leb_spec cp 56319); cbn [andb]; try lia.
    + destruct (Z.leb_spec 56320 cp), (Z.leb_spec cp 57343); cbn [andb]; try lia;
        by rewrite IH.
    + destruct (Z.leb_spec 56320 cp), (Z.leb_spec cp 57343); cbn [andb]; try lia;
        by rewrite IH.
  - unmask. cbn [app to_scalar_values]. unfold is_high_surrogate, is_low_surrogate.
    destruct (Z.leb_spec 55296 (55296 + (cp - 65536) / 1024)); [|dlia].
    destruct (Z.leb_spec (55296 + (cp - 65536) / 1024) 56319); [|dlia].
    destruct (Z.leb_spec 56320 (56320 + (cp - 65536) mod 1024)); [|dlia].
    destruct (Z.leb_spec (56320 + (cp - 65536) mod 1024) 57343); [|dlia].
    cbn [andb]. rewrite shiftl_10, IH. f_equal. dlia.
Qed.

End Utf16Facts.

(** ** The range-token codec *)

Module CodecFacts.
Import Base64 Unicode BitFacts Base64Facts UnicodeFacts Utf16Facts.

Lemma sextets_of_bytes_length bytes :
  (length (sextets_of_bytes bytes) mod 4 <> 1)%nat.
Proof.
  revert bytes. fix IH 1. intros [|a [|b [|c tl]]]; cbn [sextets_of_bytes length];
    [done..|].
  specialize (IH tl). lia.
Qed.

Lemma token_of_bytes_chars bytes :
  Forall is_byte bytes ->
  Forall (fun c => token_char c = true) (token_of_bytes bytes)
  /\ Forall not_pad (token_of_bytes bytes)
  /\ standard_char <$> token_of_bytes bytes = char_of_sextet <$> sextets_of_bytes bytes.
Proof.
  intros Hb%sextets_of_bytes_range. unfold token_of_bytes.
  induction Hb as [|i sx Hi _ (IH1 & IH2 & IH3)]; [done|].
  destruct (char_of_sextet_facts i Hi) as (_ & Hstd & Hpad & Htok & _).
  rewrite !fmap_cons. repeat split; [by constructor|by constructor|].
  by rewrite Hstd, IH3.
Qed.

Lemma base64UrlEncode_bytes input :
  Forall is_byte (TextEncoder_encode input) ->
  base64UrlEncode input = Ok (token_of_bytes (TextEncoder_encode input)).
Proof.
  intros Hb. unfold base64UrlEncode, btoa.
  assert (forallb (fun c => c <=? 255) (TextEncoder_encode input) = true) as ->.
  { apply forallb_forall. intros b Hin%list_elem_of_In.
    apply (proj1 (Forall_forall _ _) Hb) in Hin. unfold is_byte in Hin. lia. }
  cbn [rbind]. f_equal. rewrite replace_url. unfold encode.
  rewrite fmap_app.
  assert (forall k, url_char <$> repeat pad k = repeat pad k) as ->.
  { induction k as [|k IH]; [done|]. cbn [repeat]. by rewrite fmap_cons, IH. }
  rewrite <- list_fmap_compose.
  apply strip_trailing_pad_app. by apply token_of_bytes_chars.
Qed.

Lemma base64UrlDecode_token_of_bytes bytes :
  Forall is_byte bytes ->
  base64UrlDecode (token_of_bytes bytes) = Ok (TextDecoder_decode bytes).
Proof.
  intros Hb. destruct (token_of_bytes_chars bytes Hb) as (_ & _ & Hstd).
  pose proof (sextets_of_bytes_range bytes Hb) as Hsx.
  unfold base64UrlDecode, atob. rewrite replace_standard, Hstd.
  rewrite forgiving_decode_padded.
  2:{ apply Forall_fmap. eapply Forall_impl; [exact Hsx|]. intros i Hi. simpl.
      unfold in_alphabet. by destruct (char_of_sextet_facts i Hi) as (-> & _). }
  rewrite length_fmap.
  destruct (Nat.eqb_spec (length (sextets_of_bytes bytes) mod 4) 1) as [Habs|_];
    [by apply sextets_of_bytes_length in Habs|].
  rewrite sextets_of_chars_of_sextets by done. cbn [fmap option_fmap option_map rbind].
  rewrite bytes_of_sextets_of_bytes by done.
  do 2 f_equal. clear Hstd Hsx.
  induction Hb as [|b bytes Hb1 _ IH]; [done|].
  cbn [map]. rewrite IH. f_equal. unfold is_byte in Hb1. dlia.
Qed.

(** A token over [[A-Za-z0-9_-]] fails to decode exactly when its length
    is 1 modulo 4; what its bytes are does not matter. *)
Lemma base64UrlDecode_token t :
  Forall (fun c => token_char c = true) t ->
  if (length t mod 4 =? 1)%nat
  then base64UrlDecode t = Throw InvalidCharacterError
  else exists range, base64UrlDecode t = Ok range.
Proof.
  intros Ht. unfold base64UrlDecode, atob. rewrite replace_standard.
  assert (Forall (fun c => in_alphabet c = true) (standard_char <$> t)) as Hstd.
  { apply Forall_fmap. eapply Forall_impl; [exact Ht|]. intros c Hc. simpl.
    by apply token_char_facts. }
  rewrite forgiving_decode_padded by done. rewrite length_fmap.
  destruct (length t mod 4 =? 1)%nat; [done|].
  destruct (sextets_of_chars_alphabet _ Hstd) as (sx & -> & _).
  cbn [fmap option_fmap option_map rbind]. by eexists.
Qed.

Lemma strip_bom_scalar cps :
  Forall is_scalar_value cps -> Forall is_scalar_value (strip_bom cps).
Proof.
  destruct 1 as [|cp cps Hcp Hcps]; [done|]. simpl.
  destruct (cp =? byte_order_mark); [done|by constructor].
Qed.

(** Encoding and then decoding any string of code units: lone surrogates
    have become U+FFFD and a byte order mark that came first is gone. *)
Lemma base64UrlDecode_base64UrlEncode s :
  code_units s ->
  base64UrlEncode s = Ok (token_of_bytes (TextEncoder_encode s))
  /\ base64UrlDecode (token_of_bytes (TextEncoder_encode s))
     = Ok (of_code_points (strip_bom (to_scalar_values s))).
Proof.
  intros Hs. destruct (to_scalar_values_facts s Hs) as (Hsc & _ & _).
  pose proof (utf8_encode_bytes _ Hsc) as Hb.
  split; [by apply base64UrlEncode_bytes|].
  rewrite base64UrlDecode_token_of_bytes by done.
  unfold TextDecoder_decode, TextEncoder_encode.
  by rewrite utf8_decode_encode, with_replacement_code_points.
Qed.

Lemma token_of_bytes_bom tl :
  length (token_of_bytes (utf8_encode (byte_order_mark :: tl)))
  = S (S (S (S (length (token_of_bytes (utf8_encode tl)))))).
Proof.
  unfold token_of_bytes, utf8_encode. rewrite !length_fmap.
  cbn [map concat].
  change (utf8_encode_cp byte_order_mark) with [0xEF; 0xBB; 0xBF].
  done.
Qed.

(** C1, as the code has it.  Every string of code units is encoded to a
    token over [[A-Za-z0-9_-]].  The token decodes to the string exactly
    when the string is well-formed (no lone surrogate) and does not open
    with U+FEFF; and the token is what encoding its decoding gives exactly
    when the string does not open with U+FEFF. *)
Theorem codec_round_trip s :
  code_units s ->
  exists t,
    base64UrlEncode s = Ok t
    /\ Forall (fun c => token_char c = true) t
    /\ (base64UrlDecode t = Ok s <->
          well_formed_utf16 s = true /\ head s <> Some byte_order_mark)
    /\ ((r <-! base64UrlDecode t ;; base64UrlEncode r) = Ok t <->
          head s <> Some byte_order_mark).
Proof.
  intros Hs.
  destruct (to_scalar_values_facts s Hs) as (Hsc & Hlen & Hfix).
  pose proof (utf8_encode_bytes _ Hsc) as Hb.
  destruct (base64UrlDecode_base64UrlEncode s Hs) as [Henc Hdec].
  exists (token_of_bytes (TextEncoder_encode s)).
  split; [done|]. split; [by apply token_of_bytes_chars|].
  rewrite Hdec. cbn [rbind].
  assert (head s = Some byte_order_mark ->
          exists tl, to_scalar_values s = byte_order_mark :: tl) as Hbom.
  { intros Hh%head_to_scalar_values.
    destruct (to_scalar_values s) as [|cp tl]; [done|].
    injection Hh as ->. by exists tl. }
  split; split.
  - intros [= Heq].
    assert (head s <> Some byte_order_mark) as Hhead.
    { intros (tl & Htl)%Hbom. rewrite Htl in Heq, Hlen.
      cbn [strip_bom] in Heq. rewrite Z.eqb_refl in Heq.
      apply (f_equal length) in Heq. unfold of_code_points in *.
      cbn [map concat] in Hlen.
      change (code_units_of byte_order_mark) with [byte_order_mark] in Hlen.
      cbn [app length] in Hlen. lia. }
    split; [|done]. apply Hfix. rewrite <- Heq at 2. f_equal.
    symmetry. apply strip_bom_keep. by rewrite head_to_scalar_values.
  - intros [Hwf Hhead]. f_equal.
    rewrite strip_bom_keep by (by rewrite head_to_scalar_values).
    by apply utf16_roundtrip.
  - intros Heq Hhead. destruct (Hbom Hhead) as (tl & Htl).
    assert (Forall is_scalar_value tl) as Htlsc
      by (rewrite Htl in Hsc; by inversion Hsc).
    rewrite base64UrlEncode_bytes in Heq.
    2:{ unfold TextEncoder_encode. rewrite to_scalar_values_of_code_points;
          [apply utf8_encode_bytes|]; by apply strip_bom_scalar. }
    injection Heq as Heq. apply (f_equal length) in Heq.
    unfold TextEncoder_encode in Heq.
    rewrite to_scalar_values_of_code_points in Heq by (by apply strip_bom_scalar).
    rewrite Htl in Heq. cbn [strip_bom] in Heq. rewrite Z.eqb_refl in Heq.
    rewrite token_of_bytes_bom in Heq. lia.
  - intros Hhead.
    rewrite strip_bom_keep by (by rewrite head_to_scalar_values).
    rewrite base64UrlEncode_bytes.
    + unfold TextEncoder_encode. by rewrite to_scalar_values_of_code_points.
    + unfold TextEncoder_encode. by rewrite to_scalar_values_of_code_points.
Qed.

Lemma codec_round_trip_witness :
  exists t,
    base64UrlEncode Reader.range_cfi = Ok t
    /\ base64UrlDecode t = Ok Reader.range_cfi
    /\ (r <-! base64UrlDecode t ;; base64UrlEncode r) = Ok t.
Proof.
  destruct (codec_round_trip Reader.range_cfi) as (t & Henc & _ & Hdec & Hback).
  { by apply (bool_decide_unpack _). }
  exists t. split; [exact Henc|]. split.
  - apply Hdec. split; [reflexivity|discriminate].
  - apply Hback. discriminate.
Defined.

(** The claim of C1 fails on a string that opens with a byte order mark
    (the decoder drops it) and on a lone surrogate (the encoder writes
    U+FFFD for it); the token of the former is not what encoding its
    decoding gives. *)
Lemma codec_round_trip_fails_on_bom :
  well_formed_utf16 bom_string = true
  /\ base64UrlEncode bom_string = Ok (lit "77u_")
  /\ base64UrlDecode (lit "77u_") = Ok []
  /\ (t <-! base64UrlEncode bom_string ;; base64UrlDecode t) <> Ok bom_string
  /\ (r <-! base64UrlDecode (lit "77u_") ;; base64UrlEncode r) <> Ok (lit "77u_")
  /\ (t <-! base64UrlEncode lone_surrogate ;; base64UrlDecode t) = Ok [Unicode.replacement].
Proof. vm_compute. by repeat split. Qed.

(** A token over the alphabet that the encoder does not produce need not
    come back: [QR] carries four bits that the decoder discards, and the
    lone character [A] is not base64 at all. *)
Example non_canonical_token_not_restored :
  base64UrlDecode (lit "QR") = Ok (lit "A")
  /\ base64UrlEncode (lit "A") = Ok (lit "QQ")
  /\ base64UrlDecode (lit "A") = Throw InvalidCharacterError.
Proof. by vm_compute. Qed.

End CodecFacts.

(** ** Strings and loops *)

Module StringFacts.

Lemma starts_with_app prefix s :
  starts_with prefix s = true -> s = prefix ++ drop (length prefix) s.
Proof.
  revert s. induction prefix as [|p prefix IH]; intros [|c s]; simpl; try done.
  intros [Hpc Hrest]%andb_true_iff. apply Z.eqb_eq in Hpc as ->.
  f_equal. by apply IH.
Qed.

Lemma span_token_app s tok rest :
  span_token s = (tok, rest) ->
  s = tok ++ rest /\ Forall (fun c => token_char c = true) tok.
Proof.
  revert tok rest. induction s as [|c s IH]; intros tok rest; simpl.
  - by intros [= <- <-].
  - destruct (token_char c) eqn:Hc.
    + destruct (span_token s) as [tok' rest'].
      intros [= <- <-]. destruct (IH tok' rest' eq_refl) as [-> Htok].
      split; [done|]. by constructor.
    + by intros [= <- <-].
Qed.

(** A match of [key([A-Za-z0-9_-]+)] at the head of [s]: the text is the
    key, then the token, then the rest. *)
Lemma match_key_here_app key s tok len :
  match_key_here key s = Some (tok, len) ->
  tok <> []
  /\ Forall (fun c => token_char c = true) tok
  /\ len = (length key + length tok)%nat
  /\ exists rest, s = key ++ tok ++ rest.
Proof.
  unfold match_key_here.
  destruct (starts_with key s) eqn:Hpre; [|done].
  apply starts_with_app in Hpre.
  destruct (span_token (drop (length key) s)) as [tok' rest] eqn:Hspan.
  apply span_token_app in Hspan as [Hs Htok].
  destruct tok' as [|c tok']; [done|].
  intros [= <- <-]. repeat split; [done|done|].
  exists rest. rewrite Hpre at 1. by rewrite Hs.
Qed.

Lemma for_each_app {A S R} (body : A -> S -> flow S R) l1 l2 s :
  for_each body (l1 ++ l2) s =
    match for_each body l1 s with
    | Continue s' => for_each body l2 s'
    | Return r => Return r
    end.
Proof.
  revert s. induction l1 as [|x l1 IH]; intros s; simpl; [done|].
  destruct (body x s); [apply IH|done].
Qed.

Lemma for_each_fmap {A B S R} (f : A -> B) (body : B -> S -> flow S R) l s :
  for_each body (f <$> l) s = for_each (fun x => body (f x)) l s.
Proof.
  revert s. induction l as [|x l IH]; intros s; simpl; [done|].
  destruct (body (f x) s); [apply IH|done].
Qed.

(** A loop in a loop visits the concatenation of the inner lists. *)
Lemma for_each_flat_map {A B S R} (f : A -> list B) (body : B -> S -> flow S R) l s :
  for_each (fun x => for_each body (f x)) l s = for_each body (flat_map f l) s.
Proof.
  revert s. induction l as [|x l IH]; intros s; simpl; [done|].
  rewrite for_each_app. destruct (for_each body (f x) s); [apply IH|done].
Qed.

Lemma elem_of_flat_map {A B} (f : A -> list B) (l : list A) (y : B) :
  y ∈ flat_map f l <-> exists x, x ∈ l /\ y ∈ f x.
Proof.
  rewrite list_elem_of_In, in_flat_map. split.
  - intros (x & Hx & Hy). exists x. by rewrite !list_elem_of_In.
  - intros (x & Hx & Hy). exists x. by rewrite <- !list_elem_of_In.
Qed.

Lemma for_each_ext {A S R} (body1 body2 : A -> S -> flow S R) l s :
  (forall x s, body1 x s = body2 x s) ->
  for_each body1 l s = for_each body2 l s.
Proof.
  intros Hext. revert s. induction l as [|x l IH]; intros s; simpl; [done|].
  rewrite Hext. destruct (body2 x s); [apply IH|done].
Qed.

End StringFacts.

(** ** The progress store *)

Module ProgressFacts.
Import Progress.

Lemma read_own st k v : progress st !! k = Some v -> read st k = Some v.
Proof. intros Hk. unfold read. by rewrite Hk. Qed.

Lemma read_None st k :
  read st k = None <-> progress st !! k = None /\ inherited st k = None.
Proof.
  unfold read. destruct (progress st !! k); [|tauto].
  split; [done|]. by intros [? _].
Qed.

(** A read sees the own property of its key and the prototype only. *)
Lemma read_set_progress_ne st m k :
  m !! k = progress st !! k -> read (set_progress st m) k = read st k.
Proof. intros Hk. unfold read, inherited. simpl. by rewrite Hk. Qed.

Lemma inherited_names k :
  k ∈ object_prototype_names -> forall st, is_Some (inherited st k).
Proof.
  intros Hk st. unfold inherited. destruct (prototype st) as [r|].
  - rewrite (bool_decide_true (k ∈ object_prototype_names)) by done.
    repeat case_bool_decide; subst; try by eexists.
    + apply list_elem_of_In in Hk. vm_compute in Hk. intuition discriminate.
    + apply list_elem_of_In in Hk. vm_compute in Hk. intuition discriminate.
  - rewrite bool_decide_true by done. by eexists.
Qed.

(** The accessor [__proto__] always gives an object. *)
Lemma inherited_accessor st : is_Some (inherited st (lit "__proto__")).
Proof.
  unfold inherited. destruct (prototype st) as [r|].
  - rewrite (bool_decide_false (lit "__proto__" = lit "location")) by discriminate.
    rewrite (bool_decide_false (lit "__proto__" = lit "updatedAt")) by discriminate.
    rewrite bool_decide_true by done. by eexists.
  - rewrite bool_decide_true; [by eexists|].
    apply list_elem_of_In. vm_compute. tauto.
Qed.

(** While the prototype is [Object.prototype], its names are all that is
    inherited. *)
Lemma inherited_None st k :
  prototype st = None -> k ∉ object_prototype_names -> inherited st k = None.
Proof.
  intros Hp Hk. unfold inherited. rewrite Hp. by rewrite bool_decide_false.
Qed.

(** Only the accessor [__proto__] can give a record. *)
Lemma inherited_location st k :
  k <> lit "__proto__" -> inherited st k ≫= location_of = None.
Proof.
  intros Hk. unfold inherited. destruct (prototype st) as [r|].
  - repeat case_bool_decide; try done.
    + by destruct (truthy_location (location r)).
    + by destruct (updatedAt r =? 0).
  - by case_bool_decide.
Qed.

Section Store.
Variable normalizePath : jsstring -> jsstring.

Local Abbreviation key := (normalizeProgressKey normalizePath).
Local Abbreviation get := (getProgress normalizePath).
Local Abbreviation set := (setProgress normalizePath).
Local Abbreviation rename := (onRenameFile normalizePath).

(** After [setProgress], a read of the key gives the new record. *)
Lemma setProgress_read st p loc now :
  read (set st p loc now) (key p) = Some (VRecord {| location := loc; updatedAt := now |}).
Proof.
  unfold setProgress, write_record, read.
  destruct (progress st !! key p) as [v|] eqn:Hown; simpl.
  - by rewrite lookup_insert_eq.
  - case_bool_decide as Hproto; simpl.
    + rewrite Hown. unfold inherited. simpl. rewrite Hproto.
      by repeat (rewrite bool_decide_false by discriminate).
    + by rewrite lookup_insert_eq.
Qed.

(** [setProgress] leaves the own properties of the other keys alone. *)
Lemma setProgress_others st p loc now k :
  k <> key p -> progress (set st p loc now) !! k = progress st !! k.
Proof.
  intros Hk. unfold setProgress, write_record.
  destruct (progress st !! key p) as [v|]; simpl.
  - by rewrite lookup_insert_ne.
  - case_bool_decide; simpl; [done|]. by rewrite lookup_insert_ne.
Qed.

(** With a key that the prototype chain does not know, [setProgress]
    writes an own property and leaves the prototype as it is. *)
Lemma setProgress_own st p loc now :
  key p <> lit "__proto__" ->
  progress (set st p loc now)
    = <[key p := VRecord {| location := loc; updatedAt := now |}]> (progress st)
  /\ prototype (set st p loc now) = prototype st.
Proof.
  intros Hk. unfold setProgress, write_record.
  destruct (progress st !! key p); simpl; [done|].
  by rewrite bool_decide_false.
Qed.

(** The own properties after a file was renamed, in closed form; the
    prototype stays. *)
Lemma onRenameFile_progress st newPath oldPath :
  progress (rename st newPath oldPath) =
    match read st (key oldPath) with
    | None => progress st
    | Some v =>
        match read st (key newPath) with
        | None => delete (key oldPath) (<[key newPath := v]> (progress st))
        | Some _ => delete (key oldPath) (progress st)
        end
    end
  /\ prototype (rename st newPath oldPath) = prototype st
  /\ saveTimer (rename st newPath oldPath) =
       match read st (key oldPath) with
       | None => saveTimer st
       | Some _ => true
       end.
Proof.
  unfold onRenameFile.
  destruct (read st (key oldPath)) as [v|] eqn:Hold.
  - destruct (read st (key newPath)) as [v'|] eqn:Hnew.
    + by rewrite Hold.
    + assert (key newPath <> key oldPath) as Hne by congruence.
      rewrite read_set_progress_ne by (by rewrite lookup_insert_ne).
      by rewrite Hold.
  - by rewrite Hold.
Qed.

(** Renaming a file whose old key reads as a value: the own property of
    the old key is deleted in every case; the value is copied to the new
    key when that key read as nothing; otherwise the copy is skipped and
    the value is lost.  No other key changes, and a save is requested. *)
Lemma rename_file_migration st newPath oldPath v :
  read st (key oldPath) = Some v ->
  let st' := rename st newPath oldPath in
  progress st' !! key oldPath = None
  /\ (read st (key newPath) = None -> progress st' !! key newPath = Some v)
  /\ (forall v', read st (key newPath) = Some v' ->
        progress st' = delete (key oldPath) (progress st))
  /\ (forall k, k <> key oldPath -> k <> key newPath ->
        progress st' !! k = progress st !! k)
  /\ saveTimer st' = true.
Proof.
  intros Hold st'. subst st'.
  destruct (onRenameFile_progress st newPath oldPath) as (-> & _ & ->).
  rewrite Hold. split; [|split; [|split; [|split]]].
  - destruct (read st (key newPath)); apply lookup_delete_eq.
  - intros Hnew. rewrite Hnew.
    assert (key newPath <> key oldPath) as Hne by congruence.
    rewrite lookup_delete_ne by done. apply lookup_insert_eq.
  - intros v' Hnew. by rewrite Hnew.
  - intros k Hk1 Hk2. destruct (read st (key newPath)).
    + by rewrite lookup_delete_ne.
    + rewrite lookup_delete_ne by done. by rewrite lookup_insert_ne.
  - done.
Qed.

(** C5 fails on the code for a new name that [Object.prototype] knows.
    The old key holds a record and the new key holds nothing of its own,
    but [this.data.progress[newKey]] is the inherited member, which is
    truthy: the copy is skipped, the record is deleted, and the progress of
    the book is lost under both names. *)
Theorem rename_to_inherited_name_loses_record st newPath oldPath rec :
  let oldKey := normalizeProgressKey normalizePath oldPath in
  let newKey := normalizeProgressKey normalizePath newPath in
  progress st !! oldKey = Some (VRecord rec) ->
  progress st !! newKey = None ->
  newKey ∈ object_prototype_names ->
  prototype st = None ->
  let st' := onRenameFile normalizePath st newPath oldPath in
  progress st' = delete oldKey (progress st)
  /\ progress st' !! newKey = None
  /\ getProgress normalizePath st' newPath = None
  /\ getProgress normalizePath st' oldPath = None.
Proof.
  intros oldKey newKey Hold Hnew Hname Hproto st'. subst oldKey newKey st'.
  destruct (onRenameFile_progress st newPath oldPath) as (Hprog & Hp & _).
  rewrite (read_own _ _ _ Hold) in Hprog.
  destruct (inherited_names _ Hname st) as [member Hmember].
  assert (read st (key newPath) = Some member) as Hread.
  { unfold read. by rewrite Hnew. }
  rewrite Hread in Hprog.
  assert (key newPath <> key oldPath) as Hne by congruence.
  assert (forall k, is_Some (read (rename st newPath oldPath) k ≫= location_of) ->
                    is_Some (progress (rename st newPath oldPath) !! k)) as Hloc.
  { intros k. unfold read, inherited. rewrite Hp, Hproto.
    destruct (progress (rename st newPath oldPath) !! k); [by eexists|].
    case_bool_decide; simpl; by intros [? ?]. }
  split; [done|]. split; [|split].
  - rewrite Hprog. by rewrite lookup_delete_ne.
  - unfold getProgress. apply eq_None_not_Some. intros Hsome%Hloc.
    rewrite Hprog, lookup_delete_ne, Hnew in Hsome by done. by destruct Hsome.
  - unfold getProgress. apply eq_None_not_Some. intros Hsome%Hloc.
    rewrite Hprog, lookup_delete_eq in Hsome. by destruct Hsome.
Qed.

(** A file whose old key reads as nothing: the handler changes nothing. *)
Lemma rename_file_without_record st newPath oldPath :
  read st (key oldPath) = None -> rename st newPath oldPath = st.
Proof.
  intros Hold. unfold onRenameFile. rewrite Hold. by rewrite Hold.
Qed.

(** C10. After [setProgress(p, loc)], [getProgress(q)] is [loc] for every
    [q] with the same normalized key as [p], and the records under all
    other keys are the ones from before: the properties of the object, and
    what [getProgress] returns. *)
Theorem progress_set_get st p loc now :
  let st' := setProgress normalizePath st p loc now in
  (forall q, normalizeProgressKey normalizePath q = normalizeProgressKey normalizePath p ->
     getProgress normalizePath st' q = Some loc)
  /\ (forall k, k <> normalizeProgressKey normalizePath p ->
        progress st' !! k = progress st !! k)
  /\ (forall q, normalizeProgressKey normalizePath q <> normalizeProgressKey normalizePath p ->
        getProgress normalizePath st' q = getProgress normalizePath st q).
Proof.
  split; [|split].
  - intros q Hq. unfold getProgress. rewrite Hq, setProgress_read. done.
  - intros k Hk. by apply setProgress_others.
  - intros q Hq. unfold getProgress, read. rewrite setProgress_others by done.
    destruct (progress st !! key q) as [v|]; [done|].
    destruct (decide (key q = lit "__proto__")) as [Hproto|Hproto].
    + assert (key p <> lit "__proto__") as Hp by congruence.
      destruct (setProgress_own st p loc now Hp) as [_ Hsame].
      unfold inherited. by rewrite Hsame.
    + by rewrite !inherited_location.
Qed.

End Store.

(** The rename of the specification: [A/Book.epub] becomes [B/Book.epub]. *)
Example rename_file_moves_record :
  progress (onRenameFile trim_slashes store_A (lit "B/Book.epub") (lit "A/Book.epub"))
    = {[ lit "B/Book.epub" := VRecord record_42 ]}.
Proof.
by vm_compute. Qed.

(** [A/Book.epub] is renamed to [constructor]: the record is gone. *)
Lemma rename_to_inherited_name_loses_record_witness :
  let st' := onRenameFile trim_slashes store_A (lit "constructor") (lit "A/Book.epub") in
  progress st' = delete (lit "A/Book.epub") (progress store_A)
  /\ getProgress trim_slashes st' (lit "constructor") = None
  /\ getProgress trim_slashes st' (lit "A/Book.epub") = None.
Proof.
  destruct (rename_to_inherited_name_loses_record trim_slashes store_A
              (lit "constructor") (lit "A/Book.epub") record_42)
    as (H1 & _ & H3 & H4); try reflexivity.
  - apply list_elem_of_In. vm_compute. left. reflexivity.
  - done.
Defined.

Lemma progress_set_get_witness :
  getProgress trim_slashes
    (setProgress trim_slashes store_A (lit "A/Book.epub/") (LocNumber 7) 1000)
    (lit "/A/Book.epub") = Some (LocNumber 7).
Proof.
  apply (proj1 (progress_set_get trim_slashes store_A (lit "A/Book.epub/") (LocNumber 7) 1000)).
  reflexivity.
Defined.

End ProgressFacts.

(** ** The highlight reconciler *)

Module ReconcilerFacts.
Import Resolver Reader.

Lemma filter_all {A} (P : A -> Prop) `{forall x, Decision (P x)} (l : list A) :
  Forall P l -> filter P l = l.
Proof.
  induction 1 as [|x l Hx _ IH]; [done|].
  rewrite filter_cons_True by done. by rewrite IH.
Qed.

Lemma remove_one_absent x l : x ∉ l -> remove_one x l = l.
Proof.
  induction l as [|y l IH]; intros Hx; simpl; [done|].
  rewrite not_elem_of_cons in Hx. destruct Hx as [Hxy Hx].
  rewrite bool_decide_false by done. by rewrite IH.
Qed.

Lemma remove_one_perm x l l' :
  l ≡ₚ l' -> remove_one x l ≡ₚ remove_one x l'.
Proof.
  induction 1 as [|y l l' Hl IH|y z l|l1 l2 l3 _ IH1 _ IH2]; simpl.
  - done.
  - case_bool_decide; [done|]. by constructor.
  - repeat case_bool_decide; subst; try done. apply perm_swap.
  - by etrans.
Qed.

Lemma remove_one_middle x u v : remove_one x (u ++ x :: v) ≡ₚ u ++ v.
Proof.
  rewrite (remove_one_perm x (u ++ x :: v) (x :: u ++ v)).
  - simpl. by rewrite bool_decide_true.
  - by rewrite Permutation_middle.
Qed.

Lemma remove_all_perm added l l' :
  l ≡ₚ l' -> remove_all added l ≡ₚ remove_all added l'.
Proof.
  revert l l'. induction added as [|x added IH]; intros l l' Hl; simpl; [done|].
  apply IH. by apply remove_one_perm.
Qed.

(** Removing what was appended gives back what was there. *)
Lemma remove_all_app u v : remove_all v (u ++ v) ≡ₚ u.
Proof.
  revert u. induction v as [|x v IH]; intros u; simpl.
  - by rewrite app_nil_r.
  - rewrite (remove_all_perm v _ (u ++ v)); [apply IH|apply remove_one_middle].
Qed.

Lemma annotations_remove_marks cfi r :
  try_catch (annotations_remove cfi r) (fun _ => r) = set_marks r (remove_one cfi (marks r)).
Proof.
  unfold annotations_remove. case_bool_decide as Hin; simpl; [done|].
  rewrite remove_one_absent by done. by destruct r.
Qed.

Lemma remove_old_spec added r :
  remove_old added r = set_marks r (remove_all added (marks r)).
Proof.
  revert r. induction added as [|cfi added IH]; intros r; simpl.
  - by destruct r.
  - rewrite annotations_remove_marks, IH. done.
Qed.

Lemma add_new_spec capped r added :
  add_new capped r added =
    let v := filter (fun cfi => annotatable r cfi = true) (cfiRange <$> capped) in
    (set_marks r (add_all v (marks r)), added ++ v).
Proof.
  revert r added. induction capped as [|hl capped IH]; intros r added.
  - simpl. rewrite !app_nil_r. by destruct r.
  - cbn [add_new]. unfold annotations_add. rewrite fmap_cons, filter_cons.
    destruct (annotatable r (cfiRange hl)) eqn:Hok.
    + rewrite decide_True by done. rewrite IH. simpl.
      by rewrite <- !app_assoc.
    + rewrite decide_False by done. apply IH.
Qed.

(** One call, in closed form: the tracked list is the valid part of the
    capped descriptors whatever the state before. *)
Lemma applyBacklinkHighlights_spec r added next :
  applyBacklinkHighlights r added next =
    (set_marks r (add_all (valid_capped r next) (remove_all added (marks r))),
     valid_capped r next).
Proof.
  unfold applyBacklinkHighlights. rewrite add_new_spec, remove_old_spec. done.
Qed.

Lemma valid_capped_length r next : (length (valid_capped r next) <= 80)%nat.
Proof.
  unfold valid_capped. etrans; [apply length_filter|].
  rewrite length_fmap, length_take. lia.
Qed.

Lemma elem_of_remove_one x y l : x ∈ remove_one y l -> x ∈ l.
Proof.
  induction l as [|z l IH]; simpl; [done|].
  case_bool_decide; [by right|].
  intros [->|Hx]%elem_of_cons; [by left|right; by apply IH].
Qed.

Lemma elem_of_remove_one_ne x y l : x <> y -> x ∈ l -> x ∈ remove_one y l.
Proof.
  intros Hne. induction l as [|z l IH]; simpl; [done|].
  case_bool_decide as Hyz.
  - intros [->|Hx]%elem_of_cons; [congruence|done].
  - intros [->|Hx]%elem_of_cons; [by left|right; by apply IH].
Qed.

Lemma NoDup_remove_one y l : NoDup l -> NoDup (remove_one y l).
Proof.
  induction 1 as [|z l Hz Hnd IH]; simpl; [constructor|].
  case_bool_decide; [done|]. constructor; [|done].
  intros Hin. by apply Hz, (elem_of_remove_one _ y).
Qed.

(** On marks without a repeated range, taking one mark away takes the
    range away. *)
Lemma remove_one_gone y l : NoDup l -> y ∉ remove_one y l.
Proof.
  induction 1 as [|z l Hz Hnd IH]; simpl; [by intros ?%elem_of_nil|].
  case_bool_decide as Hyz; [by subst|].
  intros [->|Hin]%elem_of_cons; [done|by apply IH].
Qed.

Lemma NoDup_remove_all added l : NoDup l -> NoDup (remove_all added l).
Proof.
  revert l. induction added as [|x added IH]; intros l Hnd; simpl; [done|].
  by apply IH, NoDup_remove_one.
Qed.

Lemma elem_of_remove_all added l x :
  NoDup l -> x ∈ remove_all added l <-> x ∈ l /\ x ∉ added.
Proof.
  revert l. induction added as [|y added IH]; intros l Hnd; simpl.
  - split; [intros Hx; split; [done|by intros ?%elem_of_nil]|by intros [? _]].
  - rewrite IH by (by apply NoDup_remove_one). rewrite not_elem_of_cons. split.
    + intros [Hx Hout]. split; [by eapply elem_of_remove_one|]. split; [|done].
      intros ->. by apply (remove_one_gone y l).
    + intros (Hx & Hne & Hout). split; [by apply elem_of_remove_one_ne|done].
Qed.

Lemma elem_of_add_all added l x : x ∈ add_all added l <-> x ∈ l \/ x ∈ added.
Proof.
  revert l. induction added as [|y added IH]; intros l; simpl.
  - split; [by left|]. by intros [?|?%elem_of_nil].
  - rewrite IH, elem_of_cons. case_bool_decide as Hy.
    + split; [intros [?|?]; auto|]. intros [?|[->|?]]; auto.
    + rewrite elem_of_app, list_elem_of_singleton. tauto.
Qed.

Lemma NoDup_add_all added l : NoDup l -> NoDup (add_all added l).
Proof.
  revert l. induction added as [|y added IH]; intros l Hnd; simpl; [done|].
  apply IH. case_bool_decide as Hy; [done|].
  apply NoDup_app. split; [done|]. split; [|apply NoDup_singleton].
  intros x Hx ->%list_elem_of_singleton. done.
Qed.

(** C2, as the code has it.  Reconciling twice with the same descriptors,
    from any state of the surface and of the tracked list: the tracked
    annotations are the valid part of the first [min 80 (length next)]
    descriptors, one entry for each of them, as after one call.  On a
    surface that holds a range once, the second call leaves the marks as
    the first left them; when all of them were tracked, the ranges marked
    are exactly the valid ones.  Descriptors with distinct ranges give a
    tracked list without a repeated range; at most 80 entries are tracked,
    and exactly 80 of 100 valid descriptors. *)
Theorem reconcile_idempotent_capped r added next :
  let '(r1, added1) := applyBacklinkHighlights r added next in
  let '(r2, added2) := applyBacklinkHighlights r1 added1 next in
  added2 = valid_capped r next
  /\ added2 = added1
  /\ (NoDup (marks r) -> NoDup (marks r2) /\ marks r2 ≡ₚ marks r1)
  /\ (NoDup (marks r) -> (forall cfi, cfi ∈ marks r -> cfi ∈ added) ->
      forall cfi, cfi ∈ marks r2 <-> cfi ∈ valid_capped r next)
  /\ (NoDup (cfiRange <$> take 80 next) -> NoDup added2)
  /\ (length added2 <= 80)%nat
  /\ (Forall (fun hl => annotatable r (cfiRange hl) = true) next ->
      length next = 100%nat -> length added2 = 80%nat).
Proof.
  rewrite !applyBacklinkHighlights_spec. simpl.
  set (valid := valid_capped r next).
  set (base := remove_all added (marks r)).
  assert (valid_capped (set_marks r (add_all valid base)) next = valid) as -> by done.
  assert (NoDup (marks r) -> NoDup (add_all valid base)) as Hnd1.
  { intros Hnd. by apply NoDup_add_all, NoDup_remove_all. }
  assert (NoDup (marks r) ->
          forall cfi, cfi ∈ add_all valid (remove_all valid (add_all valid base))
                      <-> cfi ∈ add_all valid base) as Hsame.
  { intros Hnd cfi. rewrite elem_of_add_all, elem_of_remove_all by auto.
    rewrite elem_of_add_all. destruct (decide (cfi ∈ valid)); tauto. }
  split; [done|]. split; [done|]. split; [|split; [|split; [|split]]].
  - intros Hnd.
    assert (NoDup (add_all valid (remove_all valid (add_all valid base)))) as Hnd2.
    { apply NoDup_add_all, NoDup_remove_all. auto. }
    split; [done|]. apply NoDup_Permutation; auto.
  - intros Hnd Htracked cfi. rewrite Hsame by done. rewrite elem_of_add_all.
    subst base. rewrite elem_of_remove_all by done.
    split; [|by right]. intros [[Hin Hout]|?]; [|done]. destruct Hout. by apply Htracked.
  - intros Hnodup. by apply NoDup_filter.
  - apply valid_capped_length.
  - intros Hall Hlen. subst valid. unfold valid_capped.
    rewrite filter_all.
    + rewrite length_fmap, length_take. lia.
    + apply Forall_fmap. apply Forall_take. done.
Qed.

(** The claim of C2 fails in its clause on duplicates: the reconciler
    does not compare ranges, and descriptors that carry the same range are
    added and tracked once each.  The tokens [QQ] and [QR] of the example
    vault decode to the same range; the resolver returns a descriptor for
    each, and after two reconciliations of what it returns the tracked list
    holds that range twice. *)
Lemma reconcile_repeated_range_duplicates :
  let next := getHighlightsForBook ResolverExamples.vault ResolverExamples.book 200 in
  let '(r1, added1) := applyBacklinkHighlights blank_rendition [] next in
  let '(r2, added2) := applyBacklinkHighlights r1 added1 next in
  cfiRange <$> next = [lit "A"; lit "A"; lit "B"]
  /\ added2 = [lit "A"; lit "A"; lit "B"]
  /\ ~ NoDup added2.
Proof.
  vm_compute. split; [done|]. split; [done|].
  intros Hnd. apply NoDup_cons in Hnd as [Hnot _]. apply Hnot. by left.
Qed.

Lemma reconcile_idempotent_capped_witness :
  let '(r1, added1) := applyBacklinkHighlights blank_rendition [] hundred_descriptors in
  let '(r2, added2) := applyBacklinkHighlights r1 added1 hundred_descriptors in
  length added2 = 80%nat /\ NoDup added2 /\ NoDup (marks r2)
  /\ forall cfi, cfi ∈ marks r2 <-> cfi ∈ added2.
Proof.
  pose proof (reconcile_idempotent_capped blank_rendition [] hundred_descriptors) as H.
  destruct (applyBacklinkHighlights blank_rendition [] hundred_descriptors) as [r1 added1].
  destruct (applyBacklinkHighlights r1 added1 hundred_descriptors) as [r2 added2].
  destruct H as (Hadded & _ & Hkeep & Hmarks & Hnodup & _ & Hfull).
  split; [|split; [|split]].
  - apply Hfull; [|reflexivity]. apply Forall_forall. by intros hl _.
  - apply Hnodup. apply (bool_decide_unpack _). by vm_compute.
  - apply Hkeep. constructor.
  - rewrite Hadded. apply Hmarks; [constructor|]. by intros cfi ?%elem_of_nil.
Defined.

End ReconcilerFacts.

(** ** The jump controller *)

Module JumpFacts.
Import Reader StringFacts.

Lemma lazy_until_comma_app s m :
  lazy_until_comma s = Some m -> exists rest, s = m ++ chr "," :: rest.
Proof.
  revert m. induction s as [|c s IH]; intros m; simpl; [done|].
  destruct (c =? chr ",") eqn:Hc.
  - intros [= <-]. apply Z.eqb_eq in Hc as ->. by exists s.
  - destruct (is_line_terminator c); [done|].
    destruct (lazy_until_comma s) as [m'|]; simpl; [|done].
    intros [= <-]. destruct (IH m' eq_refl) as [rest ->]. by exists rest.
Qed.

(** The start anchor of a range is never the range itself: the guard
    [fallback !== cfi] always lets the fallback through. *)
Lemma getRangeStartCfi_differs cfi fallback :
  getRangeStartCfi cfi = Some fallback -> fallback <> cfi.
Proof.
  unfold getRangeStartCfi.
  destruct (starts_with (lit "epubcfi(") cfi) eqn:Hpre; [|done].
  apply starts_with_app in Hpre. change (length (lit "epubcfi(")) with 8%nat in Hpre.
  destruct (drop 8 cfi) as [|c tl]; [done|].
  destruct (is_line_terminator c); [done|].
  destruct (lazy_until_comma tl) as [m|] eqn:Hm; [|done].
  intros Hfb.
  assert (fallback = lit "epubcfi(" ++ (c :: m) ++ lit ")") as -> by congruence.
  apply lazy_until_comma_app in Hm as [rest ->].
  rewrite Hpre. intros Heq. apply app_inv_head in Heq.
  injection Heq as Heq. apply app_inv_head in Heq. discriminate Heq.
Qed.

Lemma insert_snoc {A} (l : list A) x y : <[length l := y]> (l ++ [x]) = l ++ [y].
Proof. rewrite insert_app_r_alt by lia. by rewrite Nat.sub_diag. Qed.

Ltac fields :=
  cbn [renditions renditionRef pendingJumpRef addedBacklinkCfisRef jumps
       set_renditions set_pending set_jumps].

Lemma alter_insert {A} (f : A -> A) (l : list A) i x :
  alter f i (<[i := x]> l) = <[i := f x]> l.
Proof.
  apply list_eq. intros k. destruct (decide (k = i)) as [->|Hne].
  - rewrite list_lookup_alter_eq. destruct (decide (i < length l)%nat) as [Hlt|Hge].
    + by rewrite !list_lookup_insert_eq.
    + rewrite !lookup_ge_None_2; [done|rewrite length_insert; lia..].
  - rewrite list_lookup_alter_ne by done. by rewrite !list_lookup_insert_ne.
Qed.

(** The steps of a call, on a state in which the call and its rendition
    are in view. *)
Section Steps.

Variables (rs : list Rendition) (ref : option nat)
  (added : list jsstring) (js : list JumpCall) (i j : nat).
Hypothesis Hi : (i < length rs)%nat.
Hypothesis Hj : (j < length js)%nat.

Local Abbreviation state r q call :=
  {| renditions := <[i := r]> rs; renditionRef := ref; pendingJumpRef := q;
     addedBacklinkCfisRef := added; jumps := <[j := call]> js |}.

Lemma resume_AwaitReady r p cfi target fallback :
  resume (state r p (AwaitReady i cfi target fallback)) j
  = state (log_display target r) p (AwaitDisplay i cfi target fallback).
Proof.
  unfold resume. cbn [jumps renditions]. rewrite list_lookup_insert_eq by done.
  unfold set_jumps, set_renditions. cbn. by rewrite alter_insert, list_insert_insert_eq.
Qed.

Lemma resume_AwaitDisplay r p cfi target fallback :
  resume (state r p (AwaitDisplay i cfi target fallback)) j
  = state (display_settled target r).1 p
      (after_display i cfi fallback (display_settled target r).2).
Proof.
  unfold resume. cbn [jumps renditions]. rewrite !list_lookup_insert_eq by done.
  destruct (display_settled target r) as [r' outcome].
  unfold set_jumps, set_renditions. cbn. by rewrite !list_insert_insert_eq.
Qed.

Lemma resume_Returned r p ok :
  resume (state r p (Returned ok)) j = state r (if ok then None else p) Handled.
Proof.
  unfold resume. cbn [jumps renditions]. rewrite !list_lookup_insert_eq by done.
  destruct ok; unfold set_jumps, set_pending; cbn; by rewrite list_insert_insert_eq.
Qed.

Lemma resume_Handled r p : resume (state r p Handled) j = state r p Handled.
Proof.
  unfold resume. cbn [jumps renditions]. by rewrite !list_lookup_insert_eq.
Qed.

(** A call that runs alone from its start, in closed form. *)
Lemma run_alone_state r p cfi :
  run_alone (state r p (AwaitReady i cfi cfi false)) j
  = state (after_jump r cfi) (if accepts r cfi then None else p) Handled.
Proof.
  unfold run_alone, Nat.iter. cbn [nat_rect].
  rewrite resume_AwaitReady, resume_AwaitDisplay.
  unfold display_settled, after_jump, accepts. cbn [displayable log_display].
  destruct (displayable r cfi) eqn:Hfirst; cbn [fst snd after_display orb].
  { by rewrite resume_Returned, !resume_Handled. }
  destruct (getRangeStartCfi cfi) as [anchor|] eqn:Hanchor.
  2:{ by rewrite resume_Returned, !resume_Handled. }
  rewrite bool_decide_true by (by eapply getRangeStartCfi_differs).
  rewrite resume_AwaitReady, resume_AwaitDisplay.
  unfold display_settled. cbn [displayable log_display].
  destruct (displayable r anchor); cbn [fst snd after_display];
    by rewrite resume_Returned.
Qed.

End Steps.

(** The same, on any state. *)
Lemma run_alone_spec st j i r cfi :
  jumps st !! j = Some (AwaitReady i cfi cfi false) ->
  renditions st !! i = Some r ->
  run_alone st j =
    {| renditions := <[i := after_jump r cfi]> (renditions st);
       renditionRef := renditionRef st;
       pendingJumpRef := if accepts r cfi then None else pendingJumpRef st;
       addedBacklinkCfisRef := addedBacklinkCfisRef st;
       jumps := <[j := Handled]> (jumps st) |}.
Proof.
  intros Hj Hi. destruct st as [rs ref p added js]. cbn in *.
  rewrite <- (list_insert_id js j _ Hj) at 1.
  rewrite <- (list_insert_id rs i _ Hi) at 1.
  apply run_alone_state; by eapply lookup_lt_Some.
Qed.

(** A call that found no rendition has returned [false]: its handler
    leaves the state as it is. *)
Lemma run_alone_without_rendition st j :
  jumps st !! j = Some (Returned false) ->
  run_alone st j = set_jumps st (<[j := Handled]> (jumps st)).
Proof.
  intros Hj. pose proof (lookup_lt_Some _ _ _ Hj) as Hlt.
  assert (resume st j = set_jumps st (<[j := Handled]> (jumps st))) as Hone.
  { unfold resume. by rewrite Hj. }
  assert (forall s, jumps s !! j = Some Handled -> resume s j = s) as Hdone.
  { intros s Hs. unfold resume. by rewrite Hs. }
  unfold run_alone, Nat.iter. cbn [nat_rect]. rewrite Hone.
  assert (jumps (set_jumps st (<[j := Handled]> (jumps st))) !! j = Some Handled) as Hs.
  { cbn. by rewrite list_lookup_insert_eq. }
  by rewrite !(Hdone _ Hs).
Qed.

(** What a step of a call does to the pending request: the handler of a
    call that returned [true] clears it, whatever request it holds, and no
    other step touches it. *)
Lemma resume_pending st j :
  pendingJumpRef (resume st j) =
    match jumps st !! j with
    | Some (Returned true) => None
    | _ => pendingJumpRef st
    end.
Proof.
  unfold resume. destruct (jumps st !! j) as [[i cfi t fb|i cfi t fb|[]|]|]; try done.
  destruct (renditions st !! i) as [r|]; [|done].
  by destruct (display_settled t r).
Qed.

Lemma after_jump_calls r cfi :
  exists later, display_calls (after_jump r cfi) = display_calls r ++ cfi :: later.
Proof.
  unfold after_jump. destruct (displayable r cfi); [by exists []|].
  destruct (getRangeStartCfi cfi) as [anchor|]; [|by exists []].
  exists [anchor]. destruct (displayable r anchor); cbn; by rewrite <- app_assoc.
Qed.

Lemma at_rest_snoc js : Forall (fun call => call = Handled) js ->
  Forall (fun call => call = Handled) (<[length js := Handled]> (js ++ [Handled])).
Proof.
  intros Hjs. rewrite list_insert_id by (by apply list_lookup_middle).
  apply Forall_app. split; [done|]. by constructor.
Qed.

(** The state after a request that was received at rest and whose call
    ran alone. *)
Lemma onJumpRequest_run_alone st cfi :
  cfi <> [] ->
  (is_Some (renditionRef st) -> is_Some (current_rendition st)) ->
  run_alone (onJumpRequest st (Some cfi)) (length (jumps st)) =
    match renditionRef st, current_rendition st with
    | Some i, Some r =>
        {| renditions := <[i := after_jump r cfi]> (renditions st);
           renditionRef := renditionRef st;
           pendingJumpRef := if accepts r cfi then None else Some cfi;
           addedBacklinkCfisRef := addedBacklinkCfisRef st;
           jumps := jumps st ++ [Handled] |}
    | _, _ =>
        {| renditions := renditions st;
           renditionRef := renditionRef st;
           pendingJumpRef := Some cfi;
           addedBacklinkCfisRef := addedBacklinkCfisRef st;
           jumps := jumps st ++ [Handled] |}
    end.
Proof.
  intros Hne Hsound. destruct cfi as [|c tl]; [done|].
  unfold onJumpRequest. cbn [truthy]. unfold displayJumpCfi_then, displayJumpCfi.
  cbn [renditionRef set_pending jumps]. unfold current_rendition in *.
  destruct (renditionRef st) as [i|] eqn:Href.
  - destruct Hsound as [r Hr]; [by eexists|]. cbn in Hr. cbn [mbind option_bind]. rewrite Hr.
    rewrite (run_alone_spec _ _ i r (c :: tl)).
    + fields. by rewrite Href, insert_snoc.
    + fields. by apply list_lookup_middle.
    + done.
  - cbn [mbind option_bind]. rewrite run_alone_without_rendition.
    + unfold set_jumps, set_pending. fields. by rewrite Href, insert_snoc.
    + fields. by apply list_lookup_middle.
Qed.

(** C3, as the code has it.  A request is received while no call of
    [displayJumpCfi] is on its way, and its call runs alone.  When the
    display succeeds (of the range or of its start anchor) the pending
    request is cleared, and a rendition created later starts no call.
    When it fails (no rendition yet, or both rejected) the request stays
    pending, and the next rendition that is created is asked to display it
    again.  In either case no call is left on its way.  And at any time,
    with other calls on their way or not: the handler of a call that
    returned [true] clears the pending request whatever request that is,
    and no other step of a call changes it. *)
Theorem jump_request_consumption st cfi :
  cfi <> [] ->
  at_rest st ->
  (is_Some (renditionRef st) -> is_Some (current_rendition st)) ->
  let st1 := run_alone (onJumpRequest st (Some cfi)) (length (jumps st)) in
  let ok := match current_rendition st with Some r => accepts r cfi | None => false end in
  at_rest st1
  /\ (ok = true ->
      pendingJumpRef st1 = None
      /\ forall r, jumps (getRendition st1 r) = jumps st1)
  /\ (ok = false ->
      pendingJumpRef st1 = Some cfi
      /\ forall r,
           let st2 := run_alone (getRendition st1 r) (length (jumps st1)) in
           at_rest st2
           /\ exists r' later,
                current_rendition st2 = Some r'
                /\ display_calls r' = display_calls r ++ cfi :: later)
  /\ (forall st' j,
        pendingJumpRef (resume st' j) =
          match jumps st' !! j with
          | Some (Returned true) => None
          | _ => pendingJumpRef st'
          end).
Proof.
  intros Hne Hrest Hsound st1 ok. subst st1 ok.
  rewrite (onJumpRequest_run_alone st cfi Hne Hsound).
  assert (Forall (fun call => call = Handled) (jumps st ++ [Handled])) as Hrest1.
  { apply Forall_app. split; [done|]. by constructor. }
  split; [|split; [|split; [|apply resume_pending]]].
  - unfold at_rest. by destruct (renditionRef st), (current_rendition st).
  - intros Hok. unfold current_rendition in *.
    destruct (renditionRef st) as [i|] eqn:Href; [|done]. cbn [mbind option_bind] in *.
    destruct (renditions st !! i) as [r|] eqn:Hcur; [|done].
    cbn [pendingJumpRef]. rewrite Hok. split; [done|].
    intros r'. unfold getRendition. cbn. done.
  - intros Hok.
    set (st1 := match renditionRef st with Some i => _ | None => _ end).
    assert (pendingJumpRef st1 = Some cfi) as Hpending.
    { subst st1. destruct (renditionRef st), (current_rendition st); cbn; by rewrite ?Hok. }
    assert (jumps st1 = jumps st ++ [Handled]) as Hjumps.
    { subst st1. by destruct (renditionRef st), (current_rendition st). }
    split; [done|]. intros r st2. subst st2.
    destruct cfi as [|c tl]; [done|].
    unfold getRendition. cbn [pendingJumpRef]. rewrite Hpending. cbn [truthy].
    unfold displayJumpCfi_then, displayJumpCfi. cbn [renditionRef jumps].
    rewrite (run_alone_spec _ _ (length (renditions st1)) r (c :: tl)).
    + split.
      * unfold at_rest. fields. rewrite Hjumps, insert_snoc.
        apply Forall_app. split; [done|]. by constructor.
      * destruct (after_jump_calls r (c :: tl)) as [later Hcalls].
        exists (after_jump r (c :: tl)), later. split; [|done].
        unfold current_rendition. fields. cbn [mbind option_bind].
        rewrite insert_snoc. by apply list_lookup_middle.
    + fields. by apply list_lookup_middle.
    + fields. by apply list_lookup_middle.
Qed.

(** C4, as the code has it.  A request is received while no call is on
    its way, the rendition rejects the range, and the call runs alone.  If
    the range has a start anchor, the anchor differs from the range and is
    tried once; accepted, it is what the surface shows and the pending
    request is cleared; rejected too, nothing is shown, no further call of
    [display] is made and the request stays pending.  If the range has no
    start anchor the fallback is skipped: [display] was called once, and
    the request stays pending. *)
Theorem jump_fallback st r cfi :
  current_rendition st = Some r ->
  cfi <> [] ->
  at_rest st ->
  displayable r cfi = false ->
  let st1 := run_alone (onJumpRequest st (Some cfi)) (length (jumps st)) in
  at_rest st1
  /\ match getRangeStartCfi cfi with
     | Some anchor =>
         anchor <> cfi
         /\ (display_calls <$> current_rendition st1) = Some (display_calls r ++ [cfi; anchor])
         /\ if displayable r anchor
            then (shown <$> current_rendition st1) = Some (Some anchor)
                 /\ pendingJumpRef st1 = None
            else (shown <$> current_rendition st1) = Some (shown r)
                 /\ pendingJumpRef st1 = Some cfi
     | None =>
         (display_calls <$> current_rendition st1) = Some (display_calls r ++ [cfi])
         /\ (shown <$> current_rendition st1) = Some (shown r)
         /\ pendingJumpRef st1 = Some cfi
     end.
Proof.
  intros Hcur Hne Hrest Hrej st1. subst st1.
  rewrite (onJumpRequest_run_alone st cfi Hne) by (intros _; by eexists).
  rewrite Hcur. unfold current_rendition in Hcur.
  destruct (renditionRef st) as [i|] eqn:Href; [|done]. cbn in Hcur.
  pose proof (lookup_lt_Some _ _ _ Hcur) as Hlt.
  split.
  { unfold at_rest. cbn. apply Forall_app. split; [done|]. by constructor. }
  unfold current_rendition. cbn [renditionRef renditions pendingJumpRef mbind option_bind].
  rewrite ?Href. cbn [mbind option_bind]. rewrite !list_lookup_insert_eq by done.
  unfold after_jump, accepts. rewrite Hrej. cbn [orb fmap option_fmap option_map].
  destruct (getRangeStartCfi cfi) as [anchor|] eqn:Hanchor.
  - split; [by eapply getRangeStartCfi_differs|].
    destruct (displayable r anchor); cbn; by rewrite <- app_assoc.
  - done.
Qed.

(** The claim of C3 fails: the range and its start anchor are both
    rejected, the attempt is over, and the request is still pending; a
    rendition created afterwards is asked to display it again. *)
Lemma jump_not_consumed_after_exhausted_fallback :
  let st1 := run_alone (onJumpRequest (reader_with stubborn_rendition) (Some range_cfi)) 0 in
  let st2 := run_alone (getRendition st1 stubborn_rendition) 1 in
  jumps st1 = [Handled]
  /\ (display_calls <$> current_rendition st1) = Some [range_cfi; range_start_cfi]
  /\ pendingJumpRef st1 <> None
  /\ jumps st2 = [Handled; Handled]
  /\ (display_calls <$> current_rendition st2) = Some [range_cfi; range_start_cfi].
Proof. vm_compute. by repeat split. Qed.

(** The claim of C4 fails in its last part: with both attempts rejected
    the call is over and the controller is left with the request pending. *)
Lemma jump_rejected_twice_stays_pending :
  let st1 := run_alone (onJumpRequest (reader_with stubborn_rendition) (Some range_cfi)) 0 in
  displayable stubborn_rendition range_cfi = false
  /\ getRangeStartCfi range_cfi = Some range_start_cfi
  /\ displayable stubborn_rendition range_start_cfi = false
  /\ jumps st1 = [Handled]
  /\ pendingJumpRef st1 = Some range_cfi
  /\ pendingJumpRef st1 <> None.
Proof. vm_compute. by repeat split. Qed.

(** Two requests, the second received while the display of the first is
    awaited.  The second is rejected with its start anchor and stays
    pending; then the display of the first succeeds, and its handler clears
    the pending request, which is the second: that one was never displayed
    and will not be tried again. *)
Example late_success_clears_newer_request :
  let st0 := reader_with (single_range_rendition point_cfi) in
  let st1 := resume (onJumpRequest st0 (Some point_cfi)) 0 in
  let st2 := run_alone (onJumpRequest st1 (Some range_cfi)) 1 in
  let st3 := resume (resume st2 0) 0 in
  jumps st1 = [AwaitDisplay 0 point_cfi point_cfi false]
  /\ jumps st2 = [AwaitDisplay 0 point_cfi point_cfi false; Handled]
  /\ pendingJumpRef st2 = Some range_cfi
  /\ jumps st3 = [Handled; Handled]
  /\ pendingJumpRef st3 = None
  /\ (shown <$> current_rendition st3) = Some (Some point_cfi)
  /\ (display_calls <$> current_rendition st3)
     = Some [point_cfi; range_cfi; range_start_cfi].
Proof. vm_compute. by repeat split. Qed.

Lemma jump_request_consumption_witness :
  pendingJumpRef
    (run_alone (onJumpRequest (reader_with points_only_rendition) (Some range_cfi)) 0) = None
  /\ pendingJumpRef
       (run_alone (onJumpRequest (reader_with stubborn_rendition) (Some point_cfi)) 0)
     = Some point_cfi.
Proof.
  split.
  - destruct (jump_request_consumption (reader_with points_only_rendition) range_cfi)
      as (_ & Hcleared & _); [discriminate|exact (Forall_nil_2 _)|intros _; by eexists|].
    by apply Hcleared.
  - destruct (jump_request_consumption (reader_with stubborn_rendition) point_cfi)
      as (_ & _ & Hkept & _); [discriminate|exact (Forall_nil_2 _)|intros _; by eexists|].
    by apply Hkept.
Defined.

Lemma jump_fallback_witness :
  let st1 := run_alone (onJumpRequest (reader_with points_only_rendition) (Some range_cfi)) 0 in
  (shown <$> current_rendition st1) = Some (Some range_start_cfi)
  /\ pendingJumpRef st1 = None.
Proof.
  pose proof (jump_fallback (reader_with points_only_rendition) points_only_rendition
                range_cfi eq_refl ltac:(discriminate) (Forall_nil_2 _) eq_refl) as [_ H].
  apply H.
Defined.

End JumpFacts.

(** ** The backlink resolver *)

Module ResolverFacts.
Import Resolver StringFacts.

Lemma exec_loop_for_each limit file label skip text st :
  exec_loop limit file label skip text st =
    for_each (visit_token limit file label) (exec_all skip text) st.
Proof.
  revert skip st. induction text as [|c text IH]; intros skip st; [done|].
  cbn [exec_loop exec_all].
  destruct skip as [|skip]; [|apply IH].
  destruct (match_key_here CFI64_KEY (c :: text)) as [[encoded len]|]; [|apply IH].
  cbn [for_each]. destruct (visit_token limit file label encoded st); [apply IH|done].
Qed.

Lemma visit_item_occurrences app book limit file item st :
  visit_item app book limit file item st =
    for_each (visit_occurrence limit) (item_occurrences app book file item) st.
Proof.
  unfold visit_item, item_occurrences.
  destruct (getFirstLinkpathDest app (link item) (path file)) as [dest|]; [|done].
  case_bool_decide; [|done].
  destruct (original item) as [[|c text]|]; [done| |done].
  destruct (negb (includes CFI64_KEY (c :: text))); [done|].
  rewrite exec_loop_for_each, for_each_fmap. done.
Qed.

Lemma visit_candidate_occurrences app book limit file st :
  visit_candidate app book limit file st =
    for_each (visit_occurrence limit) (candidate_occurrences app book file) st.
Proof.
  unfold visit_candidate, candidate_occurrences.
  destruct (getFileCache app file) as [cache|]; [|done].
  assert (match items_of cache with
          | [] => Continue st
          | items => for_each (visit_item app book limit file) items st
          end = for_each (visit_item app book limit file) (items_of cache) st) as ->
    by (by destruct (items_of cache)).
  rewrite <- for_each_flat_map. apply for_each_ext.
  intros item st'. apply visit_item_occurrences.
Qed.

(** The three loops are one loop over the occurrences. *)
Lemma getHighlightsForBook_occurrences app book limit :
  getHighlightsForBook app book limit =
    finish (for_each (visit_occurrence limit) (occurrences app book) (∅, [])).
Proof.
  unfold getHighlightsForBook, occurrences.
  rewrite <- for_each_flat_map.
  rewrite (for_each_ext (visit_candidate app book limit)
             (fun file => for_each (visit_occurrence limit) (candidate_occurrences app book file))).
  - by destruct (for_each _ _ _) as [[seen results]|results].
  - intros file st. apply visit_candidate_occurrences.
Qed.

Lemma omap_cons_eq {A B} (f : A -> option B) x l :
  omap f (x :: l) = match f x with Some y => y :: omap f l | None => omap f l end.
Proof. done. Qed.

Lemma for_each_visit_closed limit occs seen results :
  finish (for_each (visit_occurrence limit) occs (seen, results)) =
    results ++ take (room limit (length results))
                 (omap descriptor_of (first_occurrences seen occs)).
Proof.
  revert seen results. induction occs as [|o occs IH]; intros seen results.
  - simpl. rewrite take_nil. by rewrite app_nil_r.
  - cbn [for_each first_occurrences]. unfold visit_occurrence at 1, visit_token.
    destruct (occ_token o) as [|c tok] eqn:Htok.
    { rewrite bool_decide_true by (by left). apply IH. }
    destruct (decide (c :: tok ∈ seen)) as [Hseen|Hseen].
    { rewrite (bool_decide_true (_ ∈ _)) by done.
      rewrite bool_decide_true by (by right). apply IH. }
    rewrite (bool_decide_false (_ ∈ _)) by done.
    rewrite bool_decide_false by (intros [?|?]; done).
    rewrite omap_cons_eq.
    assert (descriptor_of o =
              match base64UrlDecode (c :: tok) with
              | Ok range => Some {| cfiRange := range; sourceFile := occ_file o;
                                    display := occ_display o |}
              | Throw _ => None
              end) as -> by (unfold descriptor_of; by rewrite Htok).
    destruct (base64UrlDecode (c :: tok)) as [range|e]; [|apply IH].
    rewrite length_app. cbn [length].
    destruct (limit <=? Z.of_nat (length results + 1)) eqn:Hfull.
    + apply Z.leb_le in Hfull. cbn [finish].
      replace (room limit (length results)) with 1%nat by (unfold room; lia).
      done.
    + apply Z.leb_gt in Hfull. rewrite IH. rewrite length_app. cbn [length].
      replace (room limit (length results))
        with (S (room limit (length results + 1))) by (unfold room; lia).
      cbn [take]. by rewrite <- app_assoc.
Qed.

(** The resolver in closed form: the descriptors of the first occurrences
    of the tokens, as far as the bound lets them through. *)
Lemma getHighlightsForBook_closed app book limit :
  getHighlightsForBook app book limit =
    take (Z.to_nat (Z.max 1 limit))
      (omap descriptor_of (first_occurrences ∅ (occurrences app book))).
Proof.
  rewrite getHighlightsForBook_occurrences, for_each_visit_closed.
  simpl. unfold room. simpl. by rewrite Z.sub_0_r.
Qed.

Lemma first_occurrences_fresh seen occs o :
  o ∈ first_occurrences seen occs ->
  o ∈ occs /\ occ_token o <> [] /\ occ_token o ∉ seen.
Proof.
  revert seen. induction occs as [|o' occs IH]; intros seen; simpl.
  - by intros ?%elem_of_nil.
  - case_bool_decide as Hskip.
    + intros Ho. destruct (IH _ Ho) as (? & ? & ?). split; [by right|done].
    + intros [->|Ho]%elem_of_cons.
      * split; [by left|]. split; intros ?; apply Hskip; [by left|by right].
      * destruct (IH _ Ho) as (? & ? & Hnot). split; [by right|].
        split; [done|]. intros Hin. apply Hnot. by apply elem_of_union_r.
Qed.

Lemma first_occurrences_NoDup seen occs :
  NoDup (occ_token <$> first_occurrences seen occs).
Proof.
  revert seen. induction occs as [|o occs IH]; intros seen; simpl.
  - constructor.
  - case_bool_decide as Hskip; [apply IH|].
    rewrite fmap_cons. constructor; [|apply IH].
    intros (o1 & Heq & Ho1)%list_elem_of_fmap.
    apply first_occurrences_fresh in Ho1 as (_ & _ & Hnot).
    rewrite <- Heq in Hnot. set_solver.
Qed.

Lemma first_occurrences_cover seen occs o :
  o ∈ occs -> occ_token o <> [] -> occ_token o ∉ seen ->
  exists o1, o1 ∈ first_occurrences seen occs /\ occ_token o1 = occ_token o.
Proof.
  revert seen. induction occs as [|o' occs IH]; intros seen Ho Hne Hnot.
  - by apply elem_of_nil in Ho.
  - simpl. case_bool_decide as Hskip.
    + apply elem_of_cons in Ho as [->|Ho]; [by destruct Hskip|]. by apply IH.
    + destruct (decide (occ_token o' = occ_token o)) as [Heq|Hdiff].
      * exists o'. split; [by left|done].
      * apply elem_of_cons in Ho as [->|Ho]; [done|].
        destruct (IH ({[occ_token o']} ∪ seen) Ho Hne) as (o1 & Ho1 & Htok).
        { intros [Heq%elem_of_singleton|Hin]%elem_of_union; [by apply Hdiff|by apply Hnot]. }
        exists o1. split; [by right|done].
Qed.

Lemma filter_absent {A B} `{EqDecision B} (f : A -> B) (l : list A) b :
  b ∉ f <$> l -> filter (fun y => f y = b) l = [].
Proof.
  induction l as [|y l IH]; [done|].
  rewrite fmap_cons. intros [Hy Hl]%not_elem_of_cons.
  rewrite filter_cons_False by done. by apply IH.
Qed.

Lemma filter_unique {A B} `{EqDecision B} (f : A -> B) (l : list A) x :
  NoDup (f <$> l) -> x ∈ l -> filter (fun y => f y = f x) l = [x].
Proof.
  induction l as [|y l IH]; intros Hnd Hx; [by apply elem_of_nil in Hx|].
  rewrite fmap_cons in Hnd. apply NoDup_cons in Hnd as [Hy Hnd].
  apply elem_of_cons in Hx as [->|Hx].
  - rewrite filter_cons_True by done. by rewrite filter_absent.
  - rewrite filter_cons_False; [by apply IH|].
    intros Heq. apply Hy. rewrite Heq. by apply list_elem_of_fmap_2.
Qed.

Lemma exec_all_matches skip text tok :
  tok ∈ exec_all skip text ->
  tok <> [] /\ Forall (fun c => token_char c = true) tok
  /\ exists pre post, text = pre ++ CFI64_KEY ++ tok ++ post.
Proof.
  revert skip. induction text as [|c text IH]; intros skip; [by intros ?%elem_of_nil|].
  cbn [exec_all].
  assert (forall k, tok ∈ exec_all k text ->
            tok <> [] /\ Forall (fun c => token_char c = true) tok
            /\ exists pre post, c :: text = pre ++ CFI64_KEY ++ tok ++ post) as Htail.
  { intros k Hk. destruct (IH k Hk) as (? & ? & pre & post & ->).
    repeat split; [done..|]. by exists (c :: pre), post. }
  destruct skip as [|skip]; [|apply Htail].
  destruct (match_key_here CFI64_KEY (c :: text)) as [[encoded len]|] eqn:Hm; [|apply Htail].
  intros [->|Hin]%elem_of_cons; [|by eapply Htail].
  apply match_key_here_app in Hm as (? & ? & _ & rest & ->).
  repeat split; [done..|]. by exists [], rest.
Qed.

Lemma occurrences_provenance app book o :
  o ∈ occurrences app book ->
  occ_token o <> [] /\ token_of_link app book (occ_token o) (occ_file o).
Proof.
  unfold occurrences. intros (file & Hfile & Ho)%elem_of_flat_map.
  unfold candidate_occurrences in Ho.
  destruct (getFileCache app file) as [cache|] eqn:Hcache; [|by apply elem_of_nil in Ho].
  apply elem_of_flat_map in Ho as (item & Hitem & Ho).
  unfold item_occurrences in Ho.
  destruct (getFirstLinkpathDest app (link item) (path file)) as [dest|] eqn:Hdest;
    [|by apply elem_of_nil in Ho].
  case_bool_decide as Hpath; [|by apply elem_of_nil in Ho].
  destruct (original item) as [[|c text]|] eqn:Horig; try by apply elem_of_nil in Ho.
  destruct (negb (includes CFI64_KEY (c :: text))); [by apply elem_of_nil in Ho|].
  apply list_elem_of_fmap in Ho as (tok & -> & Htok).
  apply exec_all_matches in Htok as (Hne & _ & pre & post & Htext).
  split; [done|]. simpl. by exists cache, item, dest, (c :: text), pre, post.
Qed.

(** C6. The descriptors are those of the first occurrence of each token,
    in the order of the visit and as far as the bound lets them through.
    The first occurrences have pairwise distinct tokens.  A token that
    occurs anywhere, in one note or in several, has exactly one first
    occurrence: every later occurrence of it is skipped, whichever note it
    is in; and when the token decodes and the bound does not cut the
    result, the descriptor of that one occurrence is in the result. *)
Theorem resolver_dedup_global app book limit :
  let firsts := first_occurrences ∅ (occurrences app book) in
  getHighlightsForBook app book limit
    = take (Z.to_nat (Z.max 1 limit)) (omap descriptor_of firsts)
  /\ NoDup (occ_token <$> firsts)
  /\ (forall o, o ∈ firsts -> o ∈ occurrences app book)
  /\ (forall o, o ∈ occurrences app book ->
        exists o1,
          filter (fun o2 => occ_token o2 = occ_token o) firsts = [o1]
          /\ occ_token o1 = occ_token o
          /\ (forall d,
                descriptor_of o1 = Some d ->
                (length (omap descriptor_of firsts) <= Z.to_nat (Z.max 1 limit))%nat ->
                d ∈ getHighlightsForBook app book limit)).
Proof.
  intros firsts. split; [apply getHighlightsForBook_closed|].
  split; [apply first_occurrences_NoDup|].
  split; [intros o Ho; by apply first_occurrences_fresh in Ho as (? & _)|].
  intros o Ho.
  destruct (occurrences_provenance app book o Ho) as [Hne _].
  destruct (first_occurrences_cover ∅ _ o Ho Hne) as (o1 & Ho1 & Heq); [set_solver|].
  exists o1. split; [|split; [done|]].
  - rewrite <- Heq. apply filter_unique; [apply first_occurrences_NoDup|done].
  - intros d Hd Hroom. rewrite getHighlightsForBook_closed.
    rewrite take_ge by done. apply list_elem_of_omap. by exists o1.
Qed.

(** The token [QQ] of the example vault is in both notes; its descriptor
    comes from the note visited first. *)
Lemma resolver_dedup_global_witness :
  {| cfiRange := lit "A"; sourceFile := ResolverExamples.note_a; display := lit "a" |}
    ∈ getHighlightsForBook ResolverExamples.vault ResolverExamples.book 200.
Proof.
  destruct (resolver_dedup_global ResolverExamples.vault ResolverExamples.book 200)
    as (_ & _ & _ & Hone).
  destruct (Hone {| occ_token := lit "QQ"; occ_file := ResolverExamples.note_b;
                    occ_item := ResolverExamples.link_to "Books/Book.epub#cfi64=QQ"
                                  "[[Books/Book.epub#cfi64=QQ|y]]" |})
    as (o1 & Hfirst & _ & Hin).
  { apply list_elem_of_In. vm_compute. right. left. reflexivity. }
  vm_compute in Hfirst. injection Hfirst as <-.
  apply Hin; [reflexivity|]. vm_compute. lia.
Defined.

(** The two notes of the example embed the token [QQ]: one descriptor,
    from the note visited first. *)
Example resolver_dedup_two_notes :
  filter (fun d => cfiRange d = lit "A" /\ display d = lit "a")
    (getHighlightsForBook ResolverExamples.vault ResolverExamples.book 200)
  = [{| cfiRange := lit "A"; sourceFile := ResolverExamples.note_a; display := lit "a" |}]
  /\ length (getHighlightsForBook ResolverExamples.vault ResolverExamples.book 200) = 3%nat.
Proof. by vm_compute. Qed.

(** The claim of C6 fails in "exactly one": a token that two notes embed
    gives no descriptor at all when it does not decode, or when the bound
    is reached before its first occurrence.  Both notes of the example
    embed [QQQQQ], which is not base64, and [Qg], which decodes: with the
    default limit the result has no descriptor of [QQQQQ], and with the
    limit 1 it has none of [Qg]. *)
Lemma resolver_shared_token_without_descriptor :
  let app := ResolverExamples.shared_vault in
  let book := ResolverExamples.book in
  let a := ResolverExamples.note_a in
  let b := ResolverExamples.note_b in
  a <> b
  /\ (token_of_link app book (lit "QQQQQ") a /\ token_of_link app book (lit "QQQQQ") b)
  /\ is_throw (base64UrlDecode (lit "QQQQQ")) = true
  /\ getHighlightsForBook app book default_limit
     = [{| cfiRange := lit "A"; sourceFile := a; display := lit "a" |};
        {| cfiRange := lit "B"; sourceFile := a; display := lit "a" |}]
  /\ (token_of_link app book (lit "Qg") a /\ token_of_link app book (lit "Qg") b)
  /\ base64UrlDecode (lit "Qg") = Ok (lit "B")
  /\ getHighlightsForBook app book 1
     = [{| cfiRange := lit "A"; sourceFile := a; display := lit "a" |}].
Proof.
  intros app book a b.
  assert (forall file bad_link good_link,
            In file [a; b] ->
            (exists cache, getFileCache app file = Some cache
                           /\ In bad_link (items_of cache) /\ In good_link (items_of cache)) ->
            link bad_link = lit "Books/Book.epub#cfi64=QQQQQ" ->
            original bad_link = Some (lit "[[Books/Book.epub#cfi64=QQQQQ]]") ->
            link good_link = lit "Books/Book.epub#cfi64=Qg" ->
            original good_link = Some (lit "[[Books/Book.epub#cfi64=Qg]]") ->
            token_of_link app book (lit "QQQQQ") file
            /\ token_of_link app book (lit "Qg") file) as Hlinks.
  { intros file bad_link good_link Hfile (cache & Hcache & Hbad & Hgood) Hl1 Ho1 Hl2 Ho2.
    split.
    - exists cache, bad_link, book, (lit "[[Books/Book.epub#cfi64=QQQQQ]]"),
        (lit "[[Books/Book.epub"), (lit "]]").
      split; [by apply list_elem_of_In|]. split; [done|].
      split; [by apply list_elem_of_In|]. rewrite Hl1. by repeat split.
    - exists cache, good_link, book, (lit "[[Books/Book.epub#cfi64=Qg]]"),
        (lit "[[Books/Book.epub"), (lit "]]").
      split; [by apply list_elem_of_In|]. split; [done|].
      split; [by apply list_elem_of_In|]. rewrite Hl2. by repeat split. }
  set (bad := ResolverExamples.link_to "Books/Book.epub#cfi64=QQQQQ"
                "[[Books/Book.epub#cfi64=QQQQQ]]").
  set (good := ResolverExamples.link_to "Books/Book.epub#cfi64=Qg"
                 "[[Books/Book.epub#cfi64=Qg]]").
  destruct (Hlinks a bad good) as [Ha1 Ha2]; try reflexivity.
  { by left. }
  { eexists. split; [reflexivity|]. split; [right; by left|right; right; by left]. }
  destruct (Hlinks b bad good) as [Hb1 Hb2]; try reflexivity.
  { right. by left. }
  { eexists. split; [reflexivity|]. split; [by left|right; by left]. }
  split; [discriminate|]. split; [done|].
  split; [by vm_compute|]. split; [by vm_compute|].
  split; [done|]. split; by vm_compute.
Qed.

(** The bound, for a limit of at least one. *)
Lemma getHighlightsForBook_bound app book limit :
  1 <= limit -> Z.of_nat (length (getHighlightsForBook app book limit)) <= limit.
Proof.
  intros Hlimit. rewrite getHighlightsForBook_closed, length_take. lia.
Qed.

(** Every descriptor decodes a token that stands in the text of a link of
    a candidate note, and names that note. *)
Lemma getHighlightsForBook_provenance app book limit d :
  d ∈ getHighlightsForBook app book limit ->
  exists tok,
    token_of_link app book tok (sourceFile d)
    /\ base64UrlDecode tok = Ok (cfiRange d).
Proof.
  rewrite getHighlightsForBook_closed. intros (i & Hd & _)%elem_of_take.
  apply list_elem_of_lookup_2 in Hd.
  apply list_elem_of_omap in Hd as (o & Ho & Hdesc).
  apply first_occurrences_fresh in Ho as (Ho & _ & _).
  apply occurrences_provenance in Ho as [_ Hlink].
  unfold descriptor_of in Hdesc.
  destruct (base64UrlDecode (occ_token o)) as [range|] eqn:Hdec; [|done].
  injection Hdesc as <-. by exists (occ_token o).
Qed.

(** C7 below the limit 1: the bound is tested only after a descriptor was
    pushed, so with a limit of 0 or less the resolver returns one
    descriptor as soon as some token of the candidate notes decodes, and
    that is more than the limit. *)
Theorem resolver_limit_zero_returns_one app book limit :
  limit <= 0 ->
  omap descriptor_of (first_occurrences ∅ (occurrences app book)) <> [] ->
  length (getHighlightsForBook app book limit) = 1%nat
  /\ limit < Z.of_nat (length (getHighlightsForBook app book limit)).
Proof.
  intros Hlimit Hsome. rewrite getHighlightsForBook_closed.
  replace (Z.to_nat (Z.max 1 limit)) with 1%nat by lia.
  destruct (omap descriptor_of _) as [|d ds]; [done|].
  change (take 1 (d :: ds)) with [d]. cbn [length]. lia.
Qed.

Lemma resolver_limit_zero_returns_one_witness :
  length (getHighlightsForBook ResolverExamples.vault ResolverExamples.book 0) = 1%nat
  /\ 0 < Z.of_nat (length (getHighlightsForBook ResolverExamples.vault ResolverExamples.book 0)).
Proof.
  apply (resolver_limit_zero_returns_one ResolverExamples.vault ResolverExamples.book 0).
  - lia.
  - by vm_compute.
Defined.

(** A token that does not decode is dropped and the loop goes on: the
    results are left as they were. *)
Lemma visit_token_ignores_failure limit file label tok seen results e :
  base64UrlDecode tok = Throw e ->
  exists seen',
    visit_token limit file label tok (seen, results) = Continue (seen', results)
    /\ seen ⊆ seen'.
Proof.
  intros Hdec. unfold visit_token. destruct tok as [|c tok]; [by exists seen|].
  case_bool_decide; [by exists seen|].
  rewrite Hdec. eexists. split; [done|]. set_solver.
Qed.

End ResolverFacts.

(** ** Tokens that do not decode *)

Module FailureFacts.
Import Resolver ResolverFacts CodecFacts.

Lemma handleJumpFromCfi64_ignores_failure jump t e :
  base64UrlDecode t = Throw e -> handleJumpFromCfi64 jump t = jump.
Proof. intros Hdec. unfold handleJumpFromCfi64. by rewrite Hdec. Qed.

(** C9, as the code has it.  A token over [[A-Za-z0-9_-]] is rejected
    exactly when it is not base64 (its length is 1 modulo 4); otherwise it
    decodes, whatever its bytes are.  When a token is rejected the callers
    catch the error: the resolver leaves its results as they are and goes
    on with the next match, and the view keeps the jump it had. *)
Theorem malformed_token_ignored t :
  (Forall (fun c => token_char c = true) t ->
     (base64UrlDecode t = Throw InvalidCharacterError <-> (length t mod 4 = 1)%nat)
     /\ ((length t mod 4 <> 1)%nat -> exists range, base64UrlDecode t = Ok range))
  /\ (forall e, base64UrlDecode t = Throw e ->
        (forall jump, handleJumpFromCfi64 jump t = jump)
        /\ (forall limit file label seen results,
              exists seen',
                visit_token limit file label t (seen, results) = Continue (seen', results)
                /\ seen ⊆ seen')).
Proof.
  split.
  - intros Ht. pose proof (base64UrlDecode_token t Ht) as Hdec.
    destruct (Nat.eqb_spec (length t mod 4) 1) as [Hlen|Hlen].
    + split; [done|]. intros Hne. by destruct Hne.
    + destruct Hdec as [range Hdec]. split.
      * split; [|done]. rewrite Hdec. discriminate.
      * intros _. by exists range.
  - intros e Hdec. split.
    + intros jump. by eapply handleJumpFromCfi64_ignores_failure.
    + intros limit file label seen results. by eapply visit_token_ignores_failure.
Qed.

Lemma malformed_token_ignored_witness :
  base64UrlDecode (lit "A") = Throw InvalidCharacterError
  /\ handleJumpFromCfi64 (Some Reader.point_cfi) (lit "A") = Some Reader.point_cfi.
Proof.
  destruct (malformed_token_ignored (lit "A")) as [Htoken Hcatch].
  assert (base64UrlDecode (lit "A") = Throw InvalidCharacterError) as Hdec.
  { apply (proj1 (Htoken ltac:(by repeat constructor))). reflexivity. }
  split; [exact Hdec|].
  apply (proj1 (Hcatch _ Hdec)).
Defined.

(** The claim of C9 fails for bytes that are not UTF-8: the token [_w] is
    base64 for the byte 0xFF, which no UTF-8 text contains, and it decodes
    without an error, to U+FFFD; the resolver makes a descriptor of it. *)
Lemma invalid_utf8_token_decodes :
  atob (pad_loop 3 (lit "/w")) = Ok [0xFF]
  /\ Unicode.utf8_valid [0xFF] = false
  /\ base64UrlDecode (lit "_w") = Ok [Unicode.replacement]
  /\ is_throw (base64UrlDecode (lit "_w")) = false
  /\ descriptor_of {| occ_token := lit "_w"; occ_file := ResolverExamples.note_a;
                      occ_item := ResolverExamples.link_to "Book.epub" "[[Book.epub#cfi64=_w]]" |}
     = Some {| cfiRange := [Unicode.replacement]; sourceFile := ResolverExamples.note_a;
               display := lit "a" |}.
Proof. vm_compute. by repeat split. Qed.

End FailureFacts.

(** ** The link parser *)

Module LinkParserFacts.

Lemma decode_from_plain_prefix name rest :
  Forall (fun c => c <> chr "%") name ->
  URI.decode_from O (name ++ rest) =
    (R <-! URI.decode_from O rest ;; Ok (name ++ R)).
Proof.
  induction 1 as [|c name Hc _ IH]; cbn [app].
  - by destruct (URI.decode_from 0 rest).
  - cbn [URI.decode_from]. destruct (Z.eqb_spec c (chr "%")); [done|].
    rewrite IH. by destruct (URI.decode_from 0 rest).
Qed.

Lemma split_hash_first_plain_prefix name rest :
  Forall (fun c => c <> chr "#") name ->
  split_hash_first (name ++ rest) =
    (name ++ (split_hash_first rest).1, (split_hash_first rest).2).
Proof.
  induction 1 as [|c name Hc _ IH]; cbn [app].
  - by destruct (split_hash_first rest).
  - cbn [split_hash_first]. destruct (Z.eqb_spec c (chr "#")); [done|].
    by rewrite IH.
Qed.

(** C8 at a path with a percent sign that opens no escape, such as a book
    named [100%.epub]: the call of [decodeURIComponent] on the path is
    outside every [try], and its [URIError] leaves the parser. *)
Theorem parseEpubCfi64Link_raises normalizePath URL_parse name :
  name <> [] ->
  Forall (fun c => c <> chr "%" /\ c <> chr "#" /\ c <> chr ":") name ->
  parseEpubCfi64Link normalizePath URL_parse (name ++ lit "%.epub#cfi64=QQ")
    = Throw URIError.
Proof.
  intros Hne Hname.
  assert (starts_with (lit "obsidian://") (name ++ lit "%.epub#cfi64=QQ") = false) as Hraw.
  { destruct (starts_with _ _) eqn:Hpre; [|done].
    apply StringFacts.starts_with_app in Hpre.
    assert (chr ":" ∈ name ++ lit "%.epub#cfi64=QQ") as Hcolon.
    { rewrite Hpre. apply elem_of_app. left. by apply (bool_decide_unpack _). }
    apply elem_of_app in Hcolon as [Hin|Hin].
    - apply (proj1 (Forall_forall _ _) Hname) in Hin. by destruct Hin as (_ & _ & ?).
    - assert (chr ":" ∉ lit "%.epub#cfi64=QQ") as Hnot
        by (by apply (bool_decide_unpack _)).
      by destruct (Hnot Hin). }
  assert (forall (A : Type) (a b : A),
            match name ++ lit "%.epub#cfi64=QQ" with [] => a | _ :: _ => b end = b) as Hcons
    by (intros; by destruct name).
  unfold parseEpubCfi64Link. rewrite Hcons.
  unfold unwrap_obsidian_url. rewrite Hraw.
  unfold split_hash_2.
  rewrite (split_hash_first_plain_prefix name).
  2:{ eapply Forall_impl; [exact Hname|]. by intros c (_ & ? & _). }
  change (split_hash_first (lit "%.epub#cfi64=QQ"))
    with (lit "%.epub", Some (lit "cfi64=QQ")).
  cbn [fst snd fmap option_fmap option_map].
  unfold URI.decodeURIComponent. rewrite decode_from_plain_prefix.
  2:{ eapply Forall_impl; [exact Hname|]. by intros c (? & _). }
  done.
Qed.

Lemma parseEpubCfi64Link_raises_witness :
  parseEpubCfi64Link (fun p => p) (fun _ => Throw TypeError) (lit "100%.epub#cfi64=QQ")
    = Throw URIError.
Proof.
  apply (parseEpubCfi64Link_raises _ _ (lit "100")).
  - discriminate.
  - repeat constructor; discriminate.
Defined.

(** The parser raises exactly when [decodeURIComponent] rejects the text
    before the first [#]; in every other case it returns [null] or a pair. *)
Lemma parseEpubCfi64Link_raises_iff normalizePath URL_parse input e :
  parseEpubCfi64Link normalizePath URL_parse input = Throw e <->
  input <> []
  /\ URI.decodeURIComponent (split_hash_2 (unwrap_obsidian_url URL_parse input)).1 = Throw e.
Proof.
  unfold parseEpubCfi64Link. destruct input as [|c input]; [by split; [|intros []]|].
  destruct (split_hash_2 _) as [pathPartRaw hashRaw]. cbn [fst].
  destruct (URI.decodeURIComponent pathPartRaw) as [pathPart|e']; cbn [rbind].
  - split; [|by intros [_ ?]].
    destruct (negb _); [done|]. destruct hashRaw as [[|h hashRaw]|]; try done.
    by destruct (match_key _ _).
  - split; [by intros [= ->]|by intros [_ [= ->]]].
Qed.

(** The same escape inside an [obsidian://] link is caught. *)
Lemma unwrap_obsidian_url_catches URL_parse raw u :
  URL_parse raw = Ok u ->
  searchParams_get_file u = Some (lit "100%.epub") ->
  unwrap_obsidian_url URL_parse raw = raw.
Proof.
  intros Hu Hfile. unfold unwrap_obsidian_url.
  destruct (starts_with (lit "obsidian://") raw); [|done].
  rewrite Hu. cbn [rbind]. rewrite Hfile. done.
Qed.

(** The literal cases of the specification, with the key [cfi64=]. *)
Example parseEpubCfi64Link_table normalizePath URL_parse :
  parseEpubCfi64Link normalizePath URL_parse (lit "Book.epub#cfi64=abc123")
    = Ok (Some {| link_path := normalizePath (lit "Book.epub"); link_cfi64 := lit "abc123" |})
  /\ parseEpubCfi64Link normalizePath URL_parse (lit "Notes/Book.epub#cfi64=Zg_9")
    = Ok (Some {| link_path := normalizePath (lit "Notes/Book.epub"); link_cfi64 := lit "Zg_9" |})
  /\ parseEpubCfi64Link normalizePath URL_parse (lit "Book.pdf#cfi64=abc") = Ok None
  /\ parseEpubCfi64Link normalizePath URL_parse (lit "Book.epub") = Ok None
  /\ parseEpubCfi64Link normalizePath URL_parse [] = Ok None.
Proof. by repeat split. Qed.

End LinkParserFacts.

(** ** Texts made safe *)

Module TextFacts.
Import Text.

Lemma spaced_iff b s :
  spaced b s = true <->
  Forall plain_space s /\ no_double_space s /\ (b = true -> head s <> Some space).
Proof.
  revert b. induction s as [|c s IH]; intros b.
  - split; [|done]. intros _. split; [constructor|]. split; [|by intros _].
    intros u v Heq. by destruct u.
  - cbn [spaced]. destruct (is_white_space c) eqn:Hc.
    + rewrite !andb_true_iff, negb_true_iff, Z.eqb_eq, IH. split.
      * intros [[-> ->] (Hall & Hnd & Hhead)]. split; [by constructor|]. split; [|done].
        intros [|x u] v Heq.
        -- injection Heq as Heq. apply Hhead; [done|]. by rewrite Heq.
        -- injection Heq as _ Heq. by eapply Hnd.
      * intros (Hall & Hnd & Hhead). apply Forall_cons in Hall as [Hc' Hall].
        specialize (Hc' Hc). subst c. split; [split; [done|]|].
        -- destruct b; [|done]. by destruct Hhead.
        -- split; [done|]. split.
           ++ intros u v Heq. apply (Hnd (space :: u) v). by rewrite Heq.
           ++ intros _ Hh. destruct s as [|d s]; [done|]. injection Hh as ->.
              by apply (Hnd [] s).
    + rewrite IH. split.
      * intros (Hall & Hnd & _). split; [constructor; [|done]|].
        { intros Hw. congruence. }
        split.
        -- intros [|x u] v Heq.
           ++ injection Heq as -> _. by vm_compute in Hc.
           ++ injection Heq as _ Heq. by eapply Hnd.
        -- intros _ [= ->]. by vm_compute in Hc.
      * intros (Hall & Hnd & _). apply Forall_cons in Hall as [_ Hall].
        split; [done|]. split; [|done].
        intros u v Heq. apply (Hnd (c :: u) v). by rewrite Heq.
Qed.

Lemma collapse_spaced b s : spaced b (collapse is_white_space b s) = true.
Proof.
  revert b. induction s as [|c s IH]; intros b; [done|].
  cbn [collapse]. destruct (is_white_space c) eqn:Hc.
  - destruct b; [apply IH|]. cbn [spaced].
    change (is_white_space space) with true. cbv iota.
    rewrite Z.eqb_refl. apply IH.
  - cbn [spaced]. rewrite Hc. apply IH.
Qed.

Lemma collapse_fixed b s : spaced b s = true -> collapse is_white_space b s = s.
Proof.
  revert b. induction s as [|c s IH]; intros b; [done|].
  cbn [spaced collapse]. destruct (is_white_space c).
  - intros [[->%Z.eqb_eq ->%negb_true_iff]%andb_true_iff Hs]%andb_true_iff.
    f_equal. by apply IH.
  - intros Hs. f_equal. by apply IH.
Qed.

(** A class that meets no character of the string leaves it as it is. *)
Lemma collapse_absent class b s :
  Forall (fun c => class c = false) s -> collapse class b s = s.
Proof.
  intros Hs. revert b. induction Hs as [|c s Hc _ IH]; intros b; [done|].
  cbn [collapse]. rewrite Hc. f_equal. apply IH.
Qed.

Lemma blank_absent class s :
  Forall (fun c => class c = false) s -> blank class s = s.
Proof.
  induction 1 as [|c s Hc _ IH]; [done|]. cbn [blank map]. rewrite Hc. f_equal. apply IH.
Qed.

Lemma strip_absent class s :
  Forall (fun c => class c = false) s -> strip class s = s.
Proof.
  intros Hs. unfold strip, jsstring. induction Hs as [|c s Hc _ IH]; [done|].
  rewrite filter_cons_True by done. by rewrite IH.
Qed.

Lemma collapse_Forall (P : Z -> Prop) class b s :
  P space -> Forall P s -> Forall P (collapse class b s).
Proof.
  intros Hsp Hs. revert b. induction Hs as [|c s Hc _ IH]; intros b; [constructor|].
  cbn [collapse]. destruct (class c); [destruct b|]; try constructor; auto.
Qed.

Lemma blank_Forall (P : Z -> Prop) class s :
  P space -> Forall P s -> Forall P (blank class s).
Proof.
  intros Hsp. induction 1 as [|c s Hc _ IH]; [constructor|].
  cbn [blank map]. constructor; [by destruct (class c)|done].
Qed.

Lemma blank_class class s :
  class space = false -> Forall (fun c => class c = false) (blank class s).
Proof.
  intros Hsp. induction s as [|c s IH]; [constructor|].
  cbn [blank map]. constructor; [|done]. by destruct (class c) eqn:Hc.
Qed.

Lemma strip_Forall (P : Z -> Prop) class s : Forall P s -> Forall P (strip class s).
Proof.
  intros Hs. apply Forall_forall. intros c Hc. unfold strip in Hc.
  apply list_elem_of_filter in Hc as [_ Hc]. by apply (proj1 (Forall_forall _ _) Hs).
Qed.

Lemma strip_class class s : Forall (fun c => class c = false) (strip class s).
Proof.
  unfold strip. apply Forall_forall. intros c Hc.
  by apply list_elem_of_filter in Hc as [? _].
Qed.

Lemma drop_while_suffix p s : exists pre, s = pre ++ drop_while p s /\ Forall (fun c => p c = true) pre.
Proof.
  induction s as [|c s (pre & IH & Hpre)]; [by exists []|].
  cbn [drop_while]. destruct (p c) eqn:Hc.
  - exists (c :: pre). split; [by rewrite IH at 1|by constructor].
  - by exists [].
Qed.

Lemma drop_while_head p s c : head (drop_while p s) = Some c -> p c = false.
Proof.
  induction s as [|d s IH]; [done|]. cbn [drop_while].
  destruct (p d) eqn:Hd; [done|]. by intros [= <-].
Qed.

Lemma drop_while_fixed p s :
  (forall c, head s = Some c -> p c = false) -> drop_while p s = s.
Proof.
  destruct s as [|c s]; [done|]. intros Hh. cbn [drop_while]. by rewrite Hh.
Qed.

Lemma last_rev (s : jsstring) : last (rev s) = head s.
Proof. destruct s as [|c s]; [done|]. cbn [rev]. apply last_snoc. Qed.

Lemma head_rev (s : jsstring) : head (rev s) = last s.
Proof. rewrite <- (rev_involutive s) at 2. by rewrite last_rev. Qed.

(** [trim] takes a run of whitespace off each end. *)
Lemma trim_middle s :
  exists pre post,
    s = pre ++ trim s ++ post
    /\ Forall (fun c => is_white_space c = true) pre
    /\ Forall (fun c => is_white_space c = true) post.
Proof.
  unfold trim.
  destruct (drop_while_suffix is_white_space s) as (pre & Hs & Hpre).
  destruct (drop_while_suffix is_white_space (rev (drop_while is_white_space s)))
    as (post & Hr & Hpost).
  exists pre, (rev post). split; [|split; [done|]].
  - rewrite Hs at 1. f_equal. rewrite <- rev_app_distr, <- Hr. by rewrite rev_involutive.
  - by apply Forall_rev.
Qed.

Lemma trim_ends s :
  (forall c, head (trim s) = Some c -> is_white_space c = false)
  /\ (forall c, last (trim s) = Some c -> is_white_space c = false).
Proof.
  unfold trim. set (E := drop_while is_white_space s).
  set (D := drop_while is_white_space (rev E)).
  split; intros c Hc.
  - destruct (drop_while_suffix is_white_space (rev E)) as (pre & Hr & Hpre).
    fold D in Hr. apply (f_equal (@rev Z)) in Hr. rewrite rev_involutive, rev_app_distr in Hr.
    apply (drop_while_head is_white_space s). fold E. rewrite Hr.
    destruct (rev D) as [|d l]; [done|]. done.
  - rewrite last_rev in Hc. by apply drop_while_head in Hc.
Qed.

Lemma trim_fixed s :
  (forall c, head s = Some c -> is_white_space c = false) ->
  (forall c, last s = Some c -> is_white_space c = false) ->
  trim s = s.
Proof.
  intros Hh Hl. unfold trim. rewrite (drop_while_fixed _ s) by done.
  rewrite drop_while_fixed; [apply rev_involutive|].
  intros c Hc. rewrite head_rev in Hc. by apply Hl.
Qed.

Lemma trim_Forall (P : Z -> Prop) s : Forall P s -> Forall P (trim s).
Proof.
  intros Hs. destruct (trim_middle s) as (pre & post & Heq & _).
  rewrite Heq in Hs. by apply Forall_app in Hs as [_ [? _]%Forall_app].
Qed.

Lemma trim_no_double_space s : no_double_space s -> no_double_space (trim s).
Proof.
  intros Hs u v Heq. destruct (trim_middle s) as (pre & post & Hmid & _).
  apply (Hs (pre ++ u) (v ++ post)). rewrite Hmid at 1. rewrite Heq.
  by rewrite <- !app_assoc.
Qed.

Lemma trim_collapse_tidy s : tidy (trim (collapse is_white_space false s)).
Proof.
  pose proof (collapse_spaced false s) as (Hall & Hnd & _)%spaced_iff.
  destruct (trim_ends (collapse is_white_space false s)) as [Hh Hl].
  split; [by apply trim_Forall|]. split; [by apply trim_no_double_space|].
  split; intros Heq; [apply Hh in Heq|apply Hl in Heq]; by vm_compute in Heq.
Qed.

Lemma tidy_fixed s : tidy s -> trim (collapse is_white_space false s) = s.
Proof.
  intros (Hall & Hnd & Hh & Hl).
  rewrite collapse_fixed by (apply spaced_iff; by repeat split).
  assert (forall c, c ∈ s -> c <> space -> is_white_space c = false) as Hcase.
  { intros c Hc Hne. destruct (is_white_space c) eqn:Hw; [|done].
    apply (proj1 (Forall_forall _ _) Hall) in Hc. by apply Hc in Hw. }
  apply trim_fixed; intros c Hc; apply Hcase.
  - destruct s; [done|]. injection Hc as ->. by left.
  - congruence.
  - destruct (last_Some s c) as [[l' ->] _]; [done|]. apply elem_of_app. right. by left.
  - congruence.
Qed.

Lemma tidy_no_newline s : tidy s -> Forall (fun c => is_newline c = false) s.
Proof.
  intros (Hall & _). eapply Forall_impl; [exact Hall|]. intros c Hc. simpl.
  destruct (is_newline c) eqn:Hn; [|done].
  unfold is_newline in Hn. apply orb_true_iff in Hn as [->%Z.eqb_eq| ->%Z.eqb_eq];
    by specialize (Hc eq_refl).
Qed.

Lemma starts_with_prefix key rest : starts_with key (key ++ rest) = true.
Proof. induction key as [|k key IH]; [done|]. cbn [app starts_with]. by rewrite Z.eqb_refl. Qed.

Lemma sanitizeLinkText_clean text :
  Forall (fun c => is_pipe c = false /\ is_bracket c = false) (sanitizeLinkText text)
  /\ tidy (sanitizeLinkText text).
Proof.
  unfold sanitizeLinkText. split; [|apply trim_collapse_tidy].
  apply trim_Forall. apply collapse_Forall; [done|]. apply collapse_Forall; [done|].
  apply Forall_and. split; [apply strip_Forall; by apply blank_class|apply strip_class].
Qed.

(** A character of the label is a character of the text, or a space. *)
Lemma sanitizeLinkText_chars text c :
  c ∈ sanitizeLinkText text -> c ∈ default [] text \/ c = space.
Proof.
  revert c. apply Forall_forall. unfold sanitizeLinkText.
  apply trim_Forall. apply collapse_Forall; [by right|]. apply collapse_Forall; [by right|].
  apply strip_Forall. apply blank_Forall; [by right|].
  apply Forall_forall. intros c Hc. by left.
Qed.

(** X1. The label that [sanitizeLinkText] returns can stand as the alias
    of a wikilink: it has no [|], no [[] and no []], its only whitespace
    is single spaces between other characters (so no line break), it
    neither starts nor ends with one, and its characters are characters of
    the text or spaces. *)
Theorem sanitizeLinkText_alias_safe text :
  let label := sanitizeLinkText text in
  Forall (fun c => is_pipe c = false /\ is_bracket c = false) label
  /\ tidy label
  /\ (forall c, c ∈ label -> c ∈ default [] text \/ c = space).
Proof.
  intros label. subst label.
  destruct (sanitizeLinkText_clean text) as [Hsafe Htidy].
  split; [exact Hsafe|]. split; [exact Htidy|].
  intros c Hc. by apply sanitizeLinkText_chars.
Qed.

(** X2. [sanitizeLinkText] is idempotent: a label that was sanitized is
    left as it is. *)
Theorem sanitizeLinkText_idempotent text :
  sanitizeLinkText (Some (sanitizeLinkText text)) = sanitizeLinkText text.
Proof.
  destruct (sanitizeLinkText_clean text) as [Hsafe Htidy].
  set (label := sanitizeLinkText text) in *.
  unfold sanitizeLinkText at 1. change (default [] (Some label)) with label.
  rewrite blank_absent by (eapply Forall_impl; [exact Hsafe|]; by intros c [? _]).
  rewrite strip_absent by (eapply Forall_impl; [exact Hsafe|]; by intros c [_ ?]).
  rewrite (collapse_absent is_newline) by (by apply tidy_no_newline).
  by apply tidy_fixed.
Qed.

Lemma sanitizeFileName_unreserved input :
  Forall (fun c => is_reserved c = false) (sanitizeFileName input).
Proof.
  unfold sanitizeFileName. apply trim_Forall. apply collapse_Forall; [done|].
  by apply blank_class.
Qed.

(** X3. [sanitizeFileName] returns a name without any of the characters
    [\ / : * ? < > |] and the double quote, with whitespace only as single
    spaces inside it; and it leaves such a name as it is. *)
Theorem sanitizeFileName_safe input :
  let name := sanitizeFileName input in
  Forall (fun c => is_reserved c = false) name
  /\ tidy name
  /\ sanitizeFileName (Some name) = name.
Proof.
  intros name. subst name.
  pose proof (sanitizeFileName_unreserved input) as Hsafe.
  pose proof (trim_collapse_tidy (blank is_reserved (default [] input))) as Htidy.
  split; [done|]. split; [done|].
  unfold sanitizeFileName at 1.
  change (default [] (Some (sanitizeFileName input))) with (sanitizeFileName input).
  rewrite blank_absent by done. by apply tidy_fixed.
Qed.

End TextFacts.

(** ** The link of a selection *)

Module SelectionFacts.
Import Text TextFacts Selection Resolver StringFacts CodecFacts Base64Facts Utf16Facts UnicodeFacts.

(** A well-formed string that does not open with U+FEFF: its token
    decodes to it. *)
Lemma token_restores s :
  well_formed_utf16 s = true ->
  head s <> Some Unicode.byte_order_mark ->
  base64UrlEncode s = Ok (token_of_bytes (TextEncoder_encode s))
  /\ Forall (fun c => token_char c = true) (token_of_bytes (TextEncoder_encode s))
  /\ base64UrlDecode (token_of_bytes (TextEncoder_encode s)) = Ok s.
Proof.
  intros Hwf Hbom. destruct (utf16_roundtrip s Hwf) as (Hsc & _ & _).
  pose proof (utf8_encode_bytes _ Hsc) as Hb.
  split; [by apply base64UrlEncode_bytes|]. split; [by apply token_of_bytes_chars|].
  rewrite base64UrlDecode_token_of_bytes by done.
  by rewrite TextDecoder_TextEncoder.
Qed.

Lemma token_of_bytes_nonempty bytes : bytes <> [] -> token_of_bytes bytes <> [].
Proof. unfold token_of_bytes. by destruct bytes as [|a [|b [|c tl]]]. Qed.

Lemma TextEncoder_encode_nonempty s : s <> [] -> TextEncoder_encode s <> [].
Proof.
  unfold TextEncoder_encode, Unicode.utf8_encode.
  assert (forall cp, Unicode.utf8_encode_cp cp <> []) as Hcp.
  { intros cp. unfold Unicode.utf8_encode_cp. by repeat case_match. }
  assert (forall cps, cps <> [] -> concat (map Unicode.utf8_encode_cp cps) <> []) as Hcat.
  { intros [|cp cps]; [done|]. intros _. cbn [map concat].
    specialize (Hcp cp). by destruct (Unicode.utf8_encode_cp cp). }
  intros Hs. apply Hcat. destruct s as [|c tl]; [done|].
  cbn [Unicode.to_scalar_values]. by repeat case_match.
Qed.

(** *** The scan of the resolver on a text *)

Lemma span_token_exact tok rest :
  Forall (fun c => token_char c = true) tok ->
  (forall c, head rest = Some c -> token_char c = false) ->
  span_token (tok ++ rest) = (tok, rest).
Proof.
  intros Htok Hrest. induction Htok as [|c tok Hc _ IH].
  - destruct rest as [|c rest]; [done|]. cbn [app span_token]. by rewrite Hrest.
  - cbn [app span_token]. by rewrite Hc, IH.
Qed.

Lemma match_key_here_exact key tok rest :
  tok <> [] ->
  Forall (fun c => token_char c = true) tok ->
  (forall c, head rest = Some c -> token_char c = false) ->
  match_key_here key (key ++ tok ++ rest) = Some (tok, (length key + length tok)%nat).
Proof.
  intros Hne Htok Hrest. unfold match_key_here.
  rewrite starts_with_prefix, drop_app_length, span_token_exact by done.
  by destruct tok.
Qed.

Lemma exec_all_skip pre rest : exec_all (length pre) (pre ++ rest) = exec_all 0 rest.
Proof. induction pre as [|c pre IH]; [done|]. apply IH. Qed.

Lemma exec_all_plain pre rest :
  chr "#" ∉ pre -> exec_all 0 (pre ++ rest) = exec_all 0 rest.
Proof.
  induction pre as [|c pre IH]; [done|]. intros [Hc Hpre]%not_elem_of_cons.
  cbn [app exec_all]. unfold match_key_here.
  change (starts_with CFI64_KEY (c :: pre ++ rest))
    with ((chr "#" =? c) && starts_with (lit "cfi64=") (pre ++ rest)).
  destruct (Z.eqb_spec (chr "#") c) as [Heq|_]; [by destruct Hc|].
  by apply IH.
Qed.

Lemma exec_all_token tok rest :
  tok <> [] ->
  Forall (fun c => token_char c = true) tok ->
  (forall c, head rest = Some c -> token_char c = false) ->
  exec_all 0 (CFI64_KEY ++ tok ++ rest) = tok :: exec_all 0 rest.
Proof.
  intros Hne Htok Hrest.
  pose proof (match_key_here_exact CFI64_KEY tok rest Hne Htok Hrest) as Hm.
  change (CFI64_KEY ++ tok ++ rest) with (chr "#" :: lit "cfi64=" ++ tok ++ rest) in *.
  cbn [exec_all]. rewrite Hm. f_equal.
  change (length CFI64_KEY) with 7%nat.
  replace (7 + length tok - 1)%nat with (length (lit "cfi64=" ++ tok))
    by (rewrite length_app; change (length (lit "cfi64=")) with 6%nat; lia).
  rewrite app_assoc. apply exec_all_skip.
Qed.

Lemma includes_app needle pre rest :
  includes needle (pre ++ needle ++ rest) = true.
Proof.
  induction pre as [|c pre IH].
  - cbn [app]. destruct (needle ++ rest) eqn:Heq; cbn [includes];
      rewrite <- Heq, starts_with_prefix; done.
  - cbn [app includes]. rewrite IH. apply orb_true_r.
Qed.

(** *** The label and the link of a selection *)

(** X4. The label of a copied link is never empty, has at most 63 code
    units, and no [|], bracket or line break; it is the sanitized
    selection when that is not empty and has at most 60 code units. *)
Theorem selection_label_safe text :
  let label := selection_label text in
  label <> []
  /\ (length label <= 63)%nat
  /\ Forall (fun c => is_pipe c = false /\ is_bracket c = false /\ is_newline c = false) label
  /\ (sanitizeLinkText (Some text) <> [] ->
      (length (sanitizeLinkText (Some text)) <= 60)%nat ->
      label = sanitizeLinkText (Some text)).
Proof.
  intros label. subst label. unfold selection_label.
  destruct (sanitizeLinkText_clean (Some text)) as [Hsafe Htidy].
  apply tidy_no_newline in Htidy.
  set (clean := sanitizeLinkText (Some text)) in *.
  set (label := match clean with [] => lit "Quote" | _ :: _ => clean end).
  assert (label <> []) as Hne by (subst label; by destruct clean).
  assert (Forall (fun c => is_pipe c = false /\ is_bracket c = false /\ is_newline c = false)
            label) as Hlabel.
  { subst label. destruct clean as [|c tl]; [by repeat constructor|].
    eapply Forall_impl; [apply Forall_and; split; [exact Hsafe|exact Htidy]|].
    by intros d [[? ?] ?]. }
  destruct (Nat.ltb_spec 60 (length label)) as [Hlong|Hshort].
  - split; [by destruct (take 60 label)|]. split.
    { rewrite length_app, length_take. change (length (lit "...")) with 3%nat. lia. }
    split.
    + apply Forall_app. split; [by apply Forall_take|by repeat constructor].
    + intros Hclean Hlen. subst label. destruct clean; [done|]. lia.
  - split; [done|]. split; [lia|]. split; [done|].
    intros Hclean _. subst label. by destruct clean.
Qed.

Lemma selection_label_chars text c :
  c ∈ selection_label text -> c ∈ text \/ c ∈ lit " Quote.".
Proof.
  unfold selection_label.
  set (clean := sanitizeLinkText (Some text)).
  assert (forall d, d ∈ match clean with [] => lit "Quote" | _ :: _ => clean end ->
            d ∈ text \/ d ∈ lit " Quote.") as Hlabel.
  { intros d Hd. destruct clean as [|x tl] eqn:Hclean.
    - right. apply list_elem_of_In. apply list_elem_of_In in Hd.
      simpl in *. tauto.
    - rewrite <- Hclean in Hd. apply sanitizeLinkText_chars in Hd as [?| ->]; [by left|].
      right. by left. }
  destruct (_ <? _)%nat; [|apply Hlabel].
  intros [Hc|Hc]%elem_of_app.
  - apply Hlabel. apply elem_of_take in Hc as (i & Hi & _).
    by eapply list_elem_of_lookup_2.
  - right. apply list_elem_of_In. apply list_elem_of_In in Hc. simpl in *. tauto.
Qed.

(** X5. A link copied from a selection, as the resolver reads it: the
    text contains the key, the first token the scan finds is the token of
    the selected range, and that token decodes to the range.  When the
    selected text has no [#], it is the only token of the link. *)
Theorem copied_link_resolves path cfiRange text :
  well_formed_utf16 cfiRange = true ->
  head cfiRange <> Some Unicode.byte_order_mark ->
  cfiRange <> [] ->
  chr "#" ∉ path ->
  exists cfi64 link,
    selection_link path cfiRange text = Ok link
    /\ includes CFI64_KEY link = true
    /\ head (exec_all 0 link) = Some cfi64
    /\ base64UrlDecode cfi64 = Ok cfiRange
    /\ (chr "#" ∉ text -> exec_all 0 link = [cfi64]).
Proof.
  intros Hwf Hbom Hne Hpath.
  destruct (token_restores cfiRange Hwf Hbom) as (Henc & Htok & Hdec).
  set (cfi64 := token_of_bytes (TextEncoder_encode cfiRange)) in *.
  assert (cfi64 <> []) as Htokne
    by (by apply token_of_bytes_nonempty, TextEncoder_encode_nonempty).
  exists cfi64, (lit "[[" ++ link_target path cfi64 ++ lit "|" ++ selection_label text ++ lit "]]").
  split; [unfold selection_link; by rewrite Henc|].
  assert (exec_all 0 (lit "[[" ++ link_target path cfi64 ++ lit "|" ++ selection_label text
                        ++ lit "]]")
          = cfi64 :: exec_all 0 (lit "|" ++ selection_label text ++ lit "]]")) as Hscan.
  { unfold link_target. rewrite exec_all_plain by (by apply (bool_decide_unpack _)).
    rewrite <- !app_assoc. rewrite exec_all_plain by done.
    apply (exec_all_token cfi64); [done|done|]. intros c Hc.
    change (lit "|" ++ selection_label text ++ lit "]]")
      with (chr "|" :: selection_label text ++ lit "]]") in Hc.
    by injection Hc as <-. }
  split; [|split; [by rewrite Hscan|split; [done|]]].
  - unfold link_target. rewrite <- !app_assoc.
    rewrite (app_assoc (lit "[[")). apply includes_app.
  - intros Htext. rewrite Hscan. f_equal.
    rewrite <- (app_nil_r (lit "|" ++ selection_label text ++ lit "]]")).
    apply (exec_all_plain (lit "|" ++ selection_label text ++ lit "]]") []).
    rewrite !not_elem_of_app. split; [by apply (bool_decide_unpack _)|].
    split; [|by apply (bool_decide_unpack _)].
    intros [?|Hq]%selection_label_chars; [done|].
    revert Hq. by apply (bool_decide_unpack _).
Qed.

Lemma copied_link_resolves_witness :
  exists cfi64 link,
    selection_link (lit "Books/Book.epub") Reader.range_cfi (lit "a | [quoted] line") = Ok link
    /\ includes CFI64_KEY link = true
    /\ head (exec_all 0 link) = Some cfi64
    /\ base64UrlDecode cfi64 = Ok Reader.range_cfi
    /\ (chr "#" ∉ lit "a | [quoted] line" -> exec_all 0 link = [cfi64]).
Proof.
  apply (copied_link_resolves (lit "Books/Book.epub") Reader.range_cfi
           (lit "a | [quoted] line")).
  - reflexivity.
  - discriminate.
  - discriminate.
  - by apply (bool_decide_unpack _).
Defined.

End SelectionFacts.

(** ** A renamed folder *)

Module ProgressFolderFacts.
Import Progress ProgressFolder StringFacts TextFacts.

(** A text that starts with [a] after [b] was put before it: one of [a]
    and [b] starts with the other. *)
Lemma starts_with_app_prefix a b s :
  starts_with a (b ++ s) = true -> starts_with a b = true \/ starts_with b a = true.
Proof.
  revert b. induction a as [|x a IH]; intros [|y b]; cbn [app starts_with]; try by auto.
  intros [Hxy Hrest]%andb_true_iff. rewrite Hxy. cbn [andb].
  rewrite Z.eqb_sym in Hxy. rewrite Hxy. cbn [andb]. by apply IH.
Qed.

Section Folder.

Variable normalizePath : jsstring -> jsstring.
Variables (M : gmap jsstring Value) (old new : jsstring).
Hypothesis Hapart : forall s, starts_with old (new ++ s) = false.

Lemma move_entry_step visited next changed k v :
  moved_so_far M old new visited next ->
  M !! k = Some v ->
  k ∉ visited.*1 ->
  moved_so_far M old new (visited ++ [(k, v)]) (move_entry old new (next, changed) (k, v)).1
  /\ (move_entry old new (next, changed) (k, v)).2 = changed || starts_with old k.
Proof.
  intros Hinv Hk Hfresh. unfold move_entry, moved_so_far in *. unfold jsstring in *.
  destruct (starts_with old k) eqn:Hold; cbn [negb fst snd].
  2:{ split; [|by rewrite orb_false_r]. intros k'. rewrite (Hinv k').
      rewrite fmap_app. cbn [fmap list_fmap fst].
      destruct (starts_with old k') eqn:Hold'.
      - assert (k' <> k) by congruence.
        destruct (decide (k' ∈ visited.*1)) as [Hin|Hout].
        + rewrite decide_True; [done|]. apply elem_of_app. by left.
        + rewrite decide_False; [done|].
          intros [?|?%list_elem_of_singleton]%elem_of_app; done.
      - destruct (M !! k'); [done|]. destruct (starts_with new k'); [|done]. cbn [andb].
        assert (old ++ drop (length new) k' <> k) as Hne.
        { intros <-. by rewrite starts_with_prefix in Hold. }
        case_bool_decide as Hin.
        + rewrite bool_decide_true; [done|]. apply elem_of_app. by left.
        + rewrite bool_decide_false; [done|].
          intros [?|?%list_elem_of_singleton]%elem_of_app; done. }
  split; [|by rewrite orb_true_r].
  pose proof (starts_with_app _ _ Hold) as Hksplit.
  set (rest := drop (length old) k) in *.
  set (moved := new ++ rest).
  assert (starts_with old moved = false) as Hmoved by apply Hapart.
  assert (moved <> k) as Hmk by congruence.
  assert (next !! moved = M !! moved) as Hat.
  { rewrite (Hinv moved), Hmoved. destruct (M !! moved); [done|].
    subst moved. rewrite starts_with_prefix, drop_app_length. cbn [andb].
    rewrite <- Hksplit. by rewrite bool_decide_false. }
  intros k'. rewrite fmap_app. cbn [fmap list_fmap fst].
  destruct (decide (k' = k)) as [->|Hne].
  { rewrite Hold. rewrite decide_True by (apply elem_of_app; right; by left).
    apply lookup_delete_eq. }
  rewrite lookup_delete_ne by done.
  destruct (decide (k' = moved)) as [->|Hnm].
  - rewrite Hmoved. destruct (M !! moved) as [r|] eqn:HM.
    + rewrite Hat in *. by rewrite Hat.
    + rewrite Hat. rewrite lookup_insert_eq.
      subst moved. rewrite starts_with_prefix, drop_app_length. cbn [andb].
      rewrite <- Hksplit. rewrite bool_decide_true by (apply elem_of_app; right; by left).
      done.
  - assert ((match next !! moved with Some _ => next | None => <[moved := v]> next end) !! k'
            = next !! k') as ->.
    { destruct (next !! moved); [done|]. by rewrite lookup_insert_ne. }
    rewrite (Hinv k'). destruct (starts_with old k') eqn:Hold'.
    + destruct (decide (k' ∈ visited.*1)) as [Hin|Hout].
      * rewrite decide_True; [done|]. apply elem_of_app. by left.
      * rewrite decide_False; [done|].
        intros [?|?%list_elem_of_singleton]%elem_of_app; done.
    + destruct (M !! k'); [done|]. destruct (starts_with new k') eqn:Hnew'; [|done].
      cbn [andb].
      assert (old ++ drop (length new) k' <> k) as Hsrc.
      { intros Heq. apply Hnm. rewrite (starts_with_app _ _ Hnew'). subst moved. f_equal.
        rewrite Hksplit in Heq. by apply app_inv_head in Heq. }
      case_bool_decide as Hin.
      * rewrite bool_decide_true; [done|]. apply elem_of_app. by left.
      * rewrite bool_decide_false; [done|].
        intros [?|?%list_elem_of_singleton]%elem_of_app; done.
Qed.

Lemma move_entries visited todo next changed :
  moved_so_far M old new visited next ->
  (forall k v, (k, v) ∈ todo -> M !! k = Some v) ->
  NoDup ((visited ++ todo).*1) ->
  let r := foldl (move_entry old new) (next, changed) todo in
  moved_so_far M old new (visited ++ todo) r.1
  /\ r.2 = changed || existsb (fun e => starts_with old e.1) todo.
Proof.
  revert visited next changed. induction todo as [|[k v] todo IH];
    intros visited next changed Hinv Hin Hnd r; subst r.
  - cbn [foldl existsb fst snd]. rewrite app_nil_r, orb_false_r. done.
  - cbn [foldl existsb].
    destruct (move_entry_step visited next changed k v Hinv) as [Hinv' Hch].
    { apply Hin. by left. }
    { rewrite fmap_app in Hnd. apply NoDup_app in Hnd as (_ & Hdis & _).
      intros Hk. apply (Hdis k Hk). rewrite fmap_cons. by left. }
    destruct (move_entry old new (next, changed) (k, v)) as [next' changed'].
    cbn [fst snd] in *. subst changed'.
    destruct (IH (visited ++ [(k, v)]) next' (changed || starts_with old k) Hinv')
      as [Hfinal Hch'].
    { intros k' v' Hk'. apply Hin. by right. }
    { by rewrite <- app_assoc. }
    rewrite <- app_assoc in Hfinal. split; [exact Hfinal|].
    rewrite Hch'. cbn [fst]. by rewrite orb_assoc.
Qed.

End Folder.

(** X10. A folder was renamed, and neither of the two prefixes starts
    with the other.  Whatever the order in which the progress map
    enumerates its entries: no key is left under the old prefix; a key
    under the new prefix keeps the record it had, and a free one receives
    the record of the key it stands for under the old prefix; every other
    key is untouched; and a save is requested exactly when some key was
    under the old prefix. *)
Theorem rename_folder_migration normalizePath st entries newPath oldPath :
  let oldPrefix := normalizePath oldPath ++ lit "/" in
  let newPrefix := normalizePath newPath ++ lit "/" in
  entries ≡ₚ map_to_list (progress st) ->
  starts_with oldPrefix newPrefix = false ->
  starts_with newPrefix oldPrefix = false ->
  let st' := onRenameFolder normalizePath entries st newPath oldPath in
  (forall rest, progress st' !! (oldPrefix ++ rest) = None)
  /\ (forall rest,
        progress st' !! (newPrefix ++ rest) =
          match progress st !! (newPrefix ++ rest) with
          | Some r => Some r
          | None => progress st !! (oldPrefix ++ rest)
          end)
  /\ (forall k, starts_with oldPrefix k = false -> starts_with newPrefix k = false ->
        progress st' !! k = progress st !! k)
  /\ (saveTimer st' = true <->
        saveTimer st = true \/ exists rest, is_Some (progress st !! (oldPrefix ++ rest))).
Proof.
  intros old new Hperm Hon Hno st'.
  assert (forall s, starts_with old (new ++ s) = false) as Hapart.
  { intros s. destruct (starts_with old (new ++ s)) eqn:Hs; [|done].
    apply starts_with_app_prefix in Hs as [Hs|Hs]; congruence. }
  assert (forall k v, (k, v) ∈ entries -> progress st !! k = Some v) as Hin.
  { intros k v Hkv. apply elem_of_map_to_list. by rewrite <- Hperm. }
  assert (forall k, k ∈ entries.*1 <-> is_Some (progress st !! k)) as Hdom.
  { intros k. rewrite list_elem_of_fmap. split.
    - intros ([k' v] & -> & Hkv). exists v. by apply Hin.
    - intros [v Hv]. exists (k, v). split; [done|].
      rewrite Hperm. by apply elem_of_map_to_list. }
  assert (NoDup (([] ++ entries).*1)) as Hnd.
  { cbn [app]. rewrite Hperm. apply NoDup_fst_map_to_list. }
  destruct (move_entries (progress st) old new Hapart [] entries (progress st) false)
    as [Hfinal Hchanged]; [|done|done|].
  { intros k. rewrite decide_False by (by intros ?%elem_of_nil).
    rewrite bool_decide_false by (by intros ?%elem_of_nil). rewrite andb_false_r.
    destruct (starts_with old k); [done|]. by destruct (progress st !! k). }
  cbn [app orb] in Hfinal, Hchanged.
  assert (progress st' = (foldl (move_entry old new) (progress st, false) entries).1) as Hprog.
  { subst st'. unfold onRenameFolder. fold old new.
    destruct (foldl (move_entry old new) (progress st, false) entries) as [next changed] eqn:Hfold.
    cbn [fst snd] in *. destruct changed; [done|].
    assert (forall k, next !! k = progress st !! k) as Hsame; [|by apply map_eq in Hsame as ->].
    intros k. rewrite (Hfinal k).
    assert (forall k', k' ∈ entries.*1 -> starts_with old k' = false) as Hnone.
    { intros k' ([k'' v] & -> & Hkv)%list_elem_of_fmap.
      symmetry in Hchanged. rewrite <- not_true_iff_false, existsb_exists in Hchanged.
      destruct (starts_with old k'') eqn:Hs; [|done].
      destruct Hchanged. exists (k'', v). split; [by apply list_elem_of_In|done]. }
    destruct (starts_with old k) eqn:Hk.
    - case_decide as Hkin; [|done]. apply Hnone in Hkin. congruence.
    - destruct (progress st !! k) eqn:HM; [done|].
      destruct (starts_with new k); [|done]. cbn [andb].
      case_bool_decide as Hsrc; [|done]. apply Hnone in Hsrc.
      by rewrite starts_with_prefix in Hsrc. }
  assert (saveTimer st' = saveTimer st || existsb (fun e => starts_with old e.1) entries) as Hsave.
  { subst st'. unfold onRenameFolder. fold old new.
    destruct (foldl (move_entry old new) (progress st, false) entries) as [next changed].
    cbn [fst snd] in Hchanged. rewrite <- Hchanged.
    destruct changed; cbn [requestSave saveTimer]; [by rewrite orb_true_r|by rewrite orb_false_r]. }
  unfold moved_so_far in Hfinal. unfold jsstring in *.
  split; [|split; [|split]].
  - intros rest. rewrite Hprog, (Hfinal (old ++ rest)), starts_with_prefix.
    case_decide as Hkin; [done|].
    match goal with |- ?x = _ => destruct x eqn:HM end; [|done].
    destruct Hkin. apply Hdom. eexists. exact HM.
  - intros rest. rewrite Hprog, (Hfinal (new ++ rest)), Hapart.
    match goal with |- context [match ?x with _ => _ end] => destruct x eqn:HN end; [done|].
    rewrite starts_with_prefix, drop_app_length. cbn [andb].
    case_bool_decide as Hsrc; [done|].
    match goal with |- _ = ?x => destruct x eqn:HM end; [|done].
    destruct Hsrc. apply Hdom. eexists. exact HM.
  - intros k Hk1 Hk2. rewrite Hprog, (Hfinal k), Hk1, Hk2.
    by match goal with |- context [match ?x with _ => _ end] => destruct x end.
  - rewrite Hsave.
    rewrite orb_true_iff, existsb_exists. split; (intros [?|Hex]; [by left|right]).
    + destruct Hex as ([k v] & Hkv%list_elem_of_In & Hs). cbn [fst] in Hs.
      exists (drop (length old) k). rewrite <- (starts_with_app _ _ Hs).
      exists v. by apply Hin.
    + destruct Hex as (rest & v & Hv). exists (old ++ rest, v).
      split; [|by apply starts_with_prefix].
      apply list_elem_of_In. rewrite Hperm. by apply elem_of_map_to_list.
Qed.

(** The folder [A] becomes [B]: the record of [A/Book.epub] is found under
    [B/Book.epub]. *)
Lemma rename_folder_migration_witness :
  let st' := onRenameFolder trim_slashes (map_to_list (progress store_A))
               store_A (lit "B") (lit "A") in
  progress st' !! lit "A/Book.epub" = None
  /\ progress st' !! lit "B/Book.epub" = Some (VRecord record_42)
  /\ saveTimer st' = true.
Proof.
  destruct (rename_folder_migration trim_slashes store_A
              (map_to_list (progress store_A)) (lit "B") (lit "A"))
    as (Hold & Hnew & _ & Hsave); [done|reflexivity|reflexivity|].
  split; [exact (Hold (lit "Book.epub"))|]. split.
  - etrans; [exact (Hnew (lit "Book.epub"))|]. reflexivity.
  - apply Hsave. right. exists (lit "Book.epub"). by eexists.
Defined.

End ProgressFolderFacts.

(** ** More on tokens, limits and renames *)

Module TokenFacts.
Import Base64 Unicode BitFacts Base64Facts UnicodeFacts Utf16Facts CodecFacts.

Lemma token_of_bytes_inj b1 b2 :
  Forall is_byte b1 -> Forall is_byte b2 ->
  token_of_bytes b1 = token_of_bytes b2 -> b1 = b2.
Proof.
  intros H1 H2 Heq.
  destruct (token_of_bytes_chars b1 H1) as (_ & _ & Hs1).
  destruct (token_of_bytes_chars b2 H2) as (_ & _ & Hs2).
  rewrite Heq, Hs2 in Hs1.
  apply (f_equal sextets_of_chars) in Hs1.
  rewrite !sextets_of_chars_of_sextets in Hs1 by (by apply sextets_of_bytes_range).
  injection Hs1 as Hs1. apply (f_equal bytes_of_sextets) in Hs1.
  by rewrite !bytes_of_sextets_of_bytes in Hs1.
Qed.

(** X13. Well-formed strings that differ have tokens that differ:
    distinct ranges never share a token, also when one of them opens with
    U+FEFF. *)
Theorem base64UrlEncode_injective s1 s2 :
  well_formed_utf16 s1 = true ->
  well_formed_utf16 s2 = true ->
  s1 <> s2 ->
  base64UrlEncode s1 <> base64UrlEncode s2.
Proof.
  intros Hwf1 Hwf2 Hne Heq. apply Hne.
  destruct (utf16_roundtrip s1 Hwf1) as (Hsc1 & Hr1 & _).
  destruct (utf16_roundtrip s2 Hwf2) as (Hsc2 & Hr2 & _).
  pose proof (utf8_encode_bytes _ Hsc1) as Hb1.
  pose proof (utf8_encode_bytes _ Hsc2) as Hb2.
  rewrite !base64UrlEncode_bytes in Heq by done.
  assert (TextEncoder_encode s1 = TextEncoder_encode s2) as Hbytes.
  { apply token_of_bytes_inj; [done|done|congruence]. }
  unfold TextEncoder_encode in Hbytes.
  apply (f_equal utf8_decode) in Hbytes. rewrite !utf8_decode_encode in Hbytes by done.
  apply (f_equal (map with_replacement)) in Hbytes.
  rewrite !with_replacement_code_points in Hbytes.
  rewrite <- Hr1, <- Hr2. by rewrite Hbytes.
Qed.

Lemma base64UrlEncode_injective_witness :
  base64UrlEncode Reader.range_cfi <> base64UrlEncode Reader.point_cfi.
Proof.
  apply (base64UrlEncode_injective Reader.range_cfi Reader.point_cfi).
  - reflexivity.
  - reflexivity.
  - intros H. vm_compute in H. discriminate H.
Defined.

(** The bytes of a text of ASCII characters are its code units. *)
Lemma TextEncoder_encode_ascii s :
  Forall (fun c => 0 <= c < 128) s -> TextEncoder_encode s = s.
Proof.
  unfold TextEncoder_encode, utf8_encode.
  induction 1 as [|c s Hc _ IH]; [done|].
  cbn [to_scalar_values]. unfold is_high_surrogate, is_low_surrogate.
  destruct (Z.leb_spec 55296 c); [lia|]. destruct (Z.leb_spec 56320 c); [lia|].
  cbn [andb map concat]. rewrite IH. unfold utf8_encode_cp.
  destruct (Z.leb_spec c 127); [done|lia].
Qed.

Lemma sextets_of_bytes_count bytes :
  length (sextets_of_bytes bytes) = ((4 * length bytes + 2) / 3)%nat.
Proof.
  revert bytes. fix IH 1. intros [|a [|b [|c tl]]]; cbn [sextets_of_bytes length];
    [done..|].
  rewrite (IH tl).
  replace (4 * S (S (S (length tl))) + 2)%nat with ((4 * length tl + 2) + 4 * 3)%nat by lia.
  rewrite Nat.div_add by done. lia.
Qed.

(** X14. The token of a text of [n] ASCII characters, as a range
    identifier is, has [(4 n + 2) / 3] characters, all of them of
    [[A-Za-z0-9_-]]: a third longer than the text, without padding. *)
Theorem base64UrlEncode_length s :
  Forall (fun c => 0 <= c < 128) s ->
  exists t,
    base64UrlEncode s = Ok t
    /\ length t = ((4 * length s + 2) / 3)%nat
    /\ Forall (fun c => token_char c = true) t.
Proof.
  intros Hs. pose proof (TextEncoder_encode_ascii s Hs) as Hbytes.
  assert (Forall is_byte s) as Hb.
  { eapply Forall_impl; [exact Hs|]. unfold is_byte. intros c Hc. simpl. lia. }
  exists (token_of_bytes s). split; [|split].
  - rewrite base64UrlEncode_bytes; rewrite Hbytes; done.
  - unfold token_of_bytes. rewrite length_fmap. apply sextets_of_bytes_count.
  - by apply token_of_bytes_chars.
Qed.

Lemma base64UrlEncode_length_witness :
  exists t,
    base64UrlEncode Reader.range_cfi = Ok t
    /\ length t = ((4 * length Reader.range_cfi + 2) / 3)%nat
    /\ Forall (fun c => token_char c = true) t.
Proof.
  apply (base64UrlEncode_length Reader.range_cfi).
  apply (bool_decide_unpack _). by vm_compute.
Defined.

End TokenFacts.

Module ResolverLimitFacts.
Import Resolver ResolverFacts.

(** X12. For limits [1 <= n <= m], the descriptors returned with the
    limit [n] are the first [n] of those returned with the limit [m], and
    they are at most [n]: a larger limit only adds descriptors at the end. *)
Theorem getHighlightsForBook_limit_prefix app book n m :
  1 <= n <= m ->
  getHighlightsForBook app book n = take (Z.to_nat n) (getHighlightsForBook app book m)
  /\ Z.of_nat (length (getHighlightsForBook app book n)) <= n.
Proof.
  intros Hnm. rewrite !getHighlightsForBook_closed. split.
  - rewrite take_take. f_equal. lia.
  - rewrite length_take. lia.
Qed.

Lemma getHighlightsForBook_limit_prefix_witness :
  getHighlightsForBook ResolverExamples.vault ResolverExamples.book 2
    = take 2 (getHighlightsForBook ResolverExamples.vault ResolverExamples.book 200)
  /\ Z.of_nat (length (getHighlightsForBook ResolverExamples.vault ResolverExamples.book 2)) <= 2.
Proof.
  apply (getHighlightsForBook_limit_prefix ResolverExamples.vault ResolverExamples.book 2 200).
  lia.
Defined.

End ResolverLimitFacts.

Module RenameFacts.
Import Progress ProgressFacts.

(** X11. A file is renamed and then renamed back.  When the old key had
    a value of its own and is no name that the prototype chain knows, and
    the key of the new name read as nothing, the progress map is again what
    it was. *)
Theorem rename_file_round_trip normalizePath st a b v :
  progress st !! normalizeProgressKey normalizePath a = Some v ->
  inherited st (normalizeProgressKey normalizePath a) = None ->
  read st (normalizeProgressKey normalizePath b) = None ->
  let st' := onRenameFile normalizePath (onRenameFile normalizePath st b a) a b in
  progress st' = progress st /\ prototype st' = prototype st.
Proof.
  intros Ha Hfree Hb st'. subst st'.
  set (ka := normalizeProgressKey normalizePath a) in *.
  set (kb := normalizeProgressKey normalizePath b) in *.
  pose proof (read_own _ _ _ Ha) as Hra.
  assert (ka <> kb) as Hne by congruence.
  pose proof Hb as Hrb. apply read_None in Hb as [Hbown _].
  destruct (onRenameFile_progress normalizePath st b a) as (H1 & Hp1 & _).
  fold ka kb in H1. rewrite Hra, Hrb in H1.
  set (st1 := onRenameFile normalizePath st b a) in *.
  assert (read st1 kb = Some v) as Hr1b.
  { apply read_own. rewrite H1, lookup_delete_ne, lookup_insert_eq by done. done. }
  assert (read st1 ka = None) as Hr1a.
  { apply read_None. rewrite H1, lookup_delete_eq. split; [done|].
    unfold inherited in *. by rewrite Hp1. }
  destruct (onRenameFile_progress normalizePath st1 a b) as (H2 & Hp2 & _).
  fold ka kb in H2. rewrite Hr1b, Hr1a in H2.
  split; [|by rewrite Hp2].
  rewrite H2, H1. apply map_eq. intros k.
  destruct (decide (k = kb)) as [->|Hkb]; [by rewrite lookup_delete_eq|].
  rewrite lookup_delete_ne by done.
  destruct (decide (k = ka)) as [->|Hka]; [by rewrite lookup_insert_eq|].
  rewrite lookup_insert_ne, lookup_delete_ne, lookup_insert_ne by done. done.
Qed.

Lemma rename_file_round_trip_witness :
  progress (onRenameFile trim_slashes
              (onRenameFile trim_slashes store_A (lit "B/Book.epub") (lit "A/Book.epub"))
              (lit "A/Book.epub") (lit "B/Book.epub"))
    = progress store_A.
Proof.
  apply (rename_file_round_trip trim_slashes store_A (lit "A/Book.epub") (lit "B/Book.epub")
           (VRecord record_42)); reflexivity.
Defined.

End RenameFacts.

(** ** From a link back to the range *)

Module LinkRoundTripFacts.
Import StringFacts LinkParserFacts SelectionFacts Selection.

Lemma match_key_Some key s tok :
  match_key key s = Some tok ->
  tok <> [] /\ Forall (fun c => token_char c = true) tok
  /\ exists pre post, s = pre ++ key ++ tok ++ post.
Proof.
  induction s as [|c s IH]; cbn [match_key].
  - destruct (match_key_here key []) as [[tok' len]|] eqn:Hm; [|done].
    intros [= ->]. apply match_key_here_app in Hm as (? & ? & _ & rest & Heq).
    repeat split; [done..|]. by exists [], rest.
  - destruct (match_key_here key (c :: s)) as [[tok' len]|] eqn:Hm.
    + intros [= ->]. apply match_key_here_app in Hm as (? & ? & _ & rest & Heq).
      repeat split; [done..|]. by exists [], rest.
    + intros (? & ? & pre & post & ->)%IH. repeat split; [done..|].
      by exists (c :: pre), post.
Qed.

Lemma match_key_exact key tok :
  tok <> [] ->
  Forall (fun c => token_char c = true) tok ->
  match_key key (key ++ tok) = Some tok.
Proof.
  intros Hne Htok.
  pose proof (match_key_here_exact key tok [] Hne Htok ltac:(done)) as Hm.
  rewrite app_nil_r in Hm. destruct (key ++ tok); cbn [match_key]; by rewrite Hm.
Qed.

Lemma split_hash_first_plain s :
  chr "#" ∉ s -> split_hash_first s = (s, None).
Proof.
  induction s as [|c s IH]; [done|]. intros [Hc Hs]%not_elem_of_cons.
  cbn [split_hash_first]. destruct (Z.eqb_spec c (chr "#")); [done|]. by rewrite IH.
Qed.

Lemma starts_with_app_head p a b :
  starts_with p (a ++ b) = true ->
  starts_with p a = true \/ exists c, c ∈ p /\ head b = Some c.
Proof.
  revert a. induction p as [|x p IH]; intros a; [by left|].
  destruct a as [|y a]; cbn [app].
  - destruct b as [|c b]; [done|]. cbn [starts_with].
    intros [->%Z.eqb_eq _]%andb_true_iff. right. exists c. split; [by left|done].
  - cbn [starts_with]. intros [Hxy Hrest]%andb_true_iff. rewrite Hxy. cbn [andb].
    destruct (IH a Hrest) as [?|(c & Hc & Hb)]; [by left|].
    right. exists c. split; [by right|done].
Qed.

(** The target of a link, parsed. *)
Lemma parseEpubCfi64Link_link_target normalizePath URL_parse path tok :
  Forall (fun c => c <> chr "%" /\ c <> chr "#") path ->
  starts_with (lit "obsidian://") path = false ->
  ends_with (lit ".epub") (toLowerCase_ascii path) = true ->
  tok <> [] ->
  Forall (fun c => token_char c = true) tok ->
  parseEpubCfi64Link normalizePath URL_parse (link_target path tok)
    = Ok (Some {| link_path := normalizePath path; link_cfi64 := tok |}).
Proof.
  intros Hpath Hobs Hepub Hne Htok. unfold link_target.
  assert (chr "#" ∉ lit "cfi64=" ++ tok) as Hfrag.
  { rewrite not_elem_of_app. split; [by apply (bool_decide_unpack _)|].
    intros Hin. apply (proj1 (Forall_forall _ _) Htok) in Hin. done. }
  assert (starts_with (lit "obsidian://") (path ++ lit "#cfi64=" ++ tok) = false) as Hraw.
  { destruct (starts_with _ (path ++ _)) eqn:Hpre; [|done].
    apply starts_with_app_head in Hpre as [?|(c & Hc & Hhead)]; [congruence|].
    injection Hhead as <-. revert Hc. by apply (bool_decide_unpack _). }
  assert (forall (A : Type) (a b : A),
            match path ++ lit "#cfi64=" ++ tok with [] => a | _ :: _ => b end = b) as Hcons
    by (intros; by destruct path).
  unfold parseEpubCfi64Link. rewrite Hcons.
  unfold unwrap_obsidian_url. rewrite Hraw.
  unfold split_hash_2.
  rewrite (split_hash_first_plain_prefix path).
  2:{ eapply Forall_impl; [exact Hpath|]. by intros c (_ & ?). }
  change (split_hash_first (lit "#cfi64=" ++ tok)) with ([] : jsstring, Some (lit "cfi64=" ++ tok)).
  cbn [fst snd fmap option_fmap option_map]. rewrite app_nil_r.
  rewrite split_hash_first_plain by done. cbn [fst].
  unfold URI.decodeURIComponent.
  rewrite <- (app_nil_r path) at 1. rewrite decode_from_plain_prefix.
  2:{ eapply Forall_impl; [exact Hpath|]. by intros c (? & _). }
  cbn [URI.decode_from rbind]. rewrite app_nil_r, Hepub. cbn [negb].
  rewrite match_key_exact by done.
  change (lit "cfi64=" ++ tok) with (chr "c" :: lit "fi64=" ++ tok). done.
Qed.

(** X6. The target of a copied link, clicked: the parser returns the
    path of the book and the token, and the token makes the view jump to
    the range that was selected. *)
Theorem copied_link_opens normalizePath URL_parse path cfiRange jump :
  well_formed_utf16 cfiRange = true ->
  head cfiRange <> Some Unicode.byte_order_mark ->
  cfiRange <> [] ->
  Forall (fun c => c <> chr "%" /\ c <> chr "#") path ->
  starts_with (lit "obsidian://") path = false ->
  ends_with (lit ".epub") (toLowerCase_ascii path) = true ->
  exists cfi64,
    base64UrlEncode cfiRange = Ok cfi64
    /\ parseEpubCfi64Link normalizePath URL_parse (link_target path cfi64)
       = Ok (Some {| link_path := normalizePath path; link_cfi64 := cfi64 |})
    /\ handleJumpFromCfi64 jump cfi64 = Some cfiRange.
Proof.
  intros Hwf Hbom Hne Hpath Hobs Hepub.
  destruct (token_restores cfiRange Hwf Hbom) as (Henc & Htok & Hdec).
  eexists. split; [exact Henc|]. split.
  - apply parseEpubCfi64Link_link_target; try done.
    by apply token_of_bytes_nonempty, TextEncoder_encode_nonempty.
  - unfold handleJumpFromCfi64. by rewrite Hdec.
Qed.

Lemma copied_link_opens_witness :
  exists cfi64,
    base64UrlEncode Reader.range_cfi = Ok cfi64
    /\ parseEpubCfi64Link Progress.trim_slashes (fun _ => Throw TypeError)
         (link_target (lit "Books/Book.epub") cfi64)
       = Ok (Some {| link_path := Progress.trim_slashes (lit "Books/Book.epub"); link_cfi64 := cfi64 |})
    /\ handleJumpFromCfi64 None cfi64 = Some Reader.range_cfi.
Proof.
  apply (copied_link_opens Progress.trim_slashes (fun _ => Throw TypeError) (lit "Books/Book.epub")
           Reader.range_cfi None).
  - reflexivity.
  - discriminate.
  - discriminate.
  - apply (bool_decide_unpack _). by vm_compute.
  - reflexivity.
  - reflexivity.
Defined.

(** X7. Whenever the parser returns a pair: the token is not empty and
    has only characters of [[A-Za-z0-9_-]], it stands behind [cfi64=] in
    the text between the first [#] and the second, and the path is
    [normalizePath] of the decoded text before the first [#], which ends
    in [.epub] in any case of the letters. *)
Theorem parseEpubCfi64Link_result normalizePath URL_parse input p :
  parseEpubCfi64Link normalizePath URL_parse input = Ok (Some p) ->
  let raw := unwrap_obsidian_url URL_parse input in
  link_cfi64 p <> []
  /\ Forall (fun c => token_char c = true) (link_cfi64 p)
  /\ (exists hashRaw pre post,
        (split_hash_2 raw).2 = Some hashRaw
        /\ hashRaw = pre ++ lit "cfi64=" ++ link_cfi64 p ++ post)
  /\ (exists pathPart,
        URI.decodeURIComponent (split_hash_2 raw).1 = Ok pathPart
        /\ ends_with (lit ".epub") (toLowerCase_ascii pathPart) = true
        /\ link_path p = normalizePath pathPart).
Proof.
  intros Hp raw. subst raw. revert Hp.
  unfold parseEpubCfi64Link. destruct input as [|c input]; [done|].
  destruct (split_hash_2 _) as [pathPartRaw hashRaw]. cbn [fst snd].
  destruct (URI.decodeURIComponent pathPartRaw) as [pathPart|e]; cbn [rbind]; [|done].
  destruct (ends_with _ _) eqn:Hepub; cbn [negb]; [|done].
  destruct hashRaw as [[|h hashRaw]|]; try done.
  destruct (match_key _ _) as [tok|] eqn:Hm; [|done].
  intros [= <-]. cbn [link_cfi64 link_path].
  apply match_key_Some in Hm as (Hne & Htok & pre & post & Hhash).
  repeat split; [done|done| |].
  - by exists (h :: hashRaw), pre, post.
  - by exists pathPart.
Qed.

Lemma parseEpubCfi64Link_result_witness :
  Forall (fun c => token_char c = true) (lit "abc123")
  /\ exists pathPart,
       URI.decodeURIComponent (lit "Book.epub") = Ok pathPart
       /\ ends_with (lit ".epub") (toLowerCase_ascii pathPart) = true
       /\ lit "Book.epub" = pathPart.
Proof.
  destruct (parseEpubCfi64Link_result (fun p => p) (fun _ => Throw TypeError)
              (lit "Book.epub#cfi64=abc123")
              {| link_path := lit "Book.epub"; link_cfi64 := lit "abc123" |} eq_refl)
    as (_ & Htok & _ & Hpath).
  split; [exact Htok|exact Hpath].
Defined.

End LinkRoundTripFacts.

Module AnchorFacts.
Import Reader StringFacts JumpFacts.

Lemma lazy_until_comma_Some s m :
  lazy_until_comma s = Some m <->
  exists rest, s = m ++ chr "," :: rest
    /\ Forall (fun d => d <> chr "," /\ is_line_terminator d = false) m.
Proof.
  revert m. induction s as [|c s IH]; intros m; cbn [lazy_until_comma].
  - split; [done|]. intros (rest & Heq & _). by destruct m.
  - destruct (Z.eqb_spec c (chr ",")) as [->|Hc].
    + split.
      * intros [= <-]. by exists s.
      * intros (rest & Heq & Hm). destruct m as [|d m]; [done|].
        injection Heq as <- _. apply Forall_cons in Hm as [[? _] _]. done.
    + destruct (is_line_terminator c) eqn:Hlt.
      * split; [done|]. intros (rest & Heq & Hm). destruct m as [|d m].
        -- injection Heq as ->. done.
        -- injection Heq as <- _. apply Forall_cons in Hm as [[_ ?] _]. congruence.
      * split.
        -- destruct (lazy_until_comma s) as [m'|] eqn:Hs; [|done].
           intros [= <-]. destruct (proj1 (IH m') eq_refl) as (rest & -> & Hm').
           exists rest. split; [done|]. by constructor.
        -- intros (rest & Heq & Hm). destruct m as [|d m].
           ++ injection Heq as ->. done.
           ++ injection Heq as <- ->. apply Forall_cons in Hm as [_ Hm].
              rewrite (proj2 (IH m)); [done|]. by exists rest.
Qed.

Lemma lazy_until_comma_none m tail :
  Forall (fun d => d <> chr ",") (m ++ tail) -> lazy_until_comma (m ++ tail) = None.
Proof.
  induction (m ++ tail) as [|c s IH]; [done|]. intros [Hc Hs]%Forall_cons.
  cbn [lazy_until_comma]. destruct (Z.eqb_spec c (chr ",")); [done|].
  destruct (is_line_terminator c); [done|]. by rewrite IH.
Qed.

(** X15. [getRangeStartCfi] returns a start anchor exactly for a text
    [epubcfi(] + [c] + [m] + [,] + ... in which [c] is one character, [m]
    has no comma, and neither has a line terminator: the anchor is
    [epubcfi(] + [c] + [m] + [)].  An anchor has no anchor of its own, so
    a fallback is never followed by another. *)
Theorem getRangeStartCfi_anchor cfi fallback :
  (getRangeStartCfi cfi = Some fallback <->
   exists c m rest,
     cfi = lit "epubcfi(" ++ c :: m ++ chr "," :: rest
     /\ fallback = lit "epubcfi(" ++ c :: m ++ lit ")"
     /\ is_line_terminator c = false
     /\ Forall (fun d => d <> chr "," /\ is_line_terminator d = false) m)
  /\ (getRangeStartCfi cfi = Some fallback -> getRangeStartCfi fallback = None).
Proof.
  assert (getRangeStartCfi cfi = Some fallback <->
          exists c m rest,
            cfi = lit "epubcfi(" ++ c :: m ++ chr "," :: rest
            /\ fallback = lit "epubcfi(" ++ c :: m ++ lit ")"
            /\ is_line_terminator c = false
            /\ Forall (fun d => d <> chr "," /\ is_line_terminator d = false) m) as Hiff.
  { unfold getRangeStartCfi. split.
    - destruct (starts_with (lit "epubcfi(") cfi) eqn:Hpre; [|done].
      apply starts_with_app in Hpre. change (length (lit "epubcfi(")) with 8%nat in Hpre.
      destruct (drop 8 cfi) as [|c tl]; [done|].
      destruct (is_line_terminator c) eqn:Hc; [done|].
      destruct (lazy_until_comma tl) as [m|] eqn:Hm; [|done].
      intros Hfb. apply lazy_until_comma_Some in Hm as (rest & -> & Hm).
      exists c, m, rest. repeat split; [done| |done|done].
      by injection Hfb as <-.
    - intros (c & m & rest & -> & -> & Hc & Hm).
      change (starts_with (lit "epubcfi(") (lit "epubcfi(" ++ c :: m ++ chr "," :: rest))
        with true.
      change (drop 8 (lit "epubcfi(" ++ c :: m ++ chr "," :: rest))
        with (c :: m ++ chr "," :: rest).
      cbv iota. rewrite Hc. rewrite (proj2 (lazy_until_comma_Some _ m)); [done|].
      by exists rest. }
  split; [exact Hiff|].
  intros (c & m & rest & -> & -> & Hc & Hm)%Hiff.
  unfold getRangeStartCfi.
  change (starts_with (lit "epubcfi(") (lit "epubcfi(" ++ c :: m ++ lit ")")) with true.
  change (drop 8 (lit "epubcfi(" ++ c :: m ++ lit ")")) with (c :: m ++ lit ")").
  cbv iota. rewrite Hc. rewrite lazy_until_comma_none; [done|].
  apply Forall_app. split; [|by repeat constructor].
  eapply Forall_impl; [exact Hm|]. by intros d [? _].
Qed.

End AnchorFacts.

Module ViewFacts.
Import View StringFacts.

Lemma match_key_here_hash s :
  match_key_here (lit "cfi64=") (chr "#" :: s) = None.
Proof. done. Qed.

Lemma match_hash_key_eq s : match_hash_key s = match_key (lit "cfi64=") s.
Proof.
  induction s as [|c s IH]; [done|].
  cbn [match_hash_key match_key]. unfold match_hash_key_here.
  destruct (Z.eqb_spec c (chr "#")) as [->|Hc].
  - rewrite match_key_here_hash. cbn [fmap option_fmap option_map].
    rewrite IH. destruct s as [|d s]; cbn [match_key].
    + by destruct (match_key_here (lit "cfi64=") []) as [[tok len]|].
    + by destruct (match_key_here (lit "cfi64=") (d :: s)) as [[tok len]|].
  - destruct (match_key_here (lit "cfi64=") (c :: s)) as [[tok len]|]; [done|].
    cbn [fmap option_fmap option_map]. apply IH.
Qed.

(** X8. A subpath [#...] handed to the view is read as the link parser
    reads the fragment of a link: the view jumps to the token behind
    the first [cfi64=] of the fragment, as if that token had come as
    [cfi64]; without such a token the view is left as it is. *)
Theorem setEphemeralState_subpath v frag :
  setEphemeralState v (Some {| cfi64 := None; subpath := Some (chr "#" :: frag) |})
  = match match_key (lit "cfi64=") frag with
    | Some tok => setEphemeralState v (Some {| cfi64 := Some tok; subpath := None |})
    | None => v
    end.
Proof.
  unfold setEphemeralState. cbn [cfi64 subpath Reader.truthy].
  rewrite match_hash_key_eq. cbn [match_key]. rewrite match_key_here_hash.
  destruct (match_key (lit "cfi64=") frag) as [tok|] eqn:Hm; [|done].
  apply LinkRoundTripFacts.match_key_Some in Hm as (Hne & _).
  by destruct tok.
Qed.

Lemma renderReader_later v n :
  loaded v = true ->
  jumpCfiRange v = None ->
  rendered (Nat.iter n renderReader v) = rendered v ++ repeat None n
  /\ jumpCfiRange (Nat.iter n renderReader v) = None
  /\ loaded (Nat.iter n renderReader v) = true.
Proof.
  intros Hl Hj. induction n as [|n (IH1 & IH2 & IH3)].
  - cbn [Nat.iter repeat]. by rewrite app_nil_r.
  - rewrite Nat.iter_succ. set (w := Nat.iter n renderReader v) in *.
    unfold renderReader. rewrite IH3. cbn [rendered jumpCfiRange loaded].
    rewrite IH1, IH2. split; [|done].
    rewrite <- app_assoc. f_equal. cbn [repeat]. by rewrite repeat_cons.
Qed.

(** X9. A jump is handed to the reader in exactly one render.  When the
    token decodes and the book is loaded, the view renders the reader with
    the range at once.  When the book is not loaded the view keeps the
    range, and [onLoadFile] renders the reader with it, unless the
    ephemeral state of the leaf has a token that decodes: then the range of
    that token takes the place of the one kept, which is never rendered,
    and [onLoadFile] renders twice.  Every render after the one with the
    range carries no jump. *)
Theorem jump_rendered_once v encoded range state later :
  base64UrlDecode encoded = Ok range ->
  let v1 := handleJumpFromCfi64 v encoded in
  let v2 := if loaded v then v1 else onLoadFile v1 state in
  rendered (Nat.iter later renderReader v2)
    = rendered v ++
        (if loaded v then Some range :: repeat None later
         else
           match state_range state with
           | Some other => Some other :: None :: repeat None later
           | None => Some range :: repeat None later
           end)
  /\ jumpCfiRange (Nat.iter later renderReader v2) = None
  /\ (loaded v = false -> rendered v1 = rendered v /\ jumpCfiRange v1 = Some range).
Proof.
  intros Hdec v1 v2.
  set (shown_to := fun l => {| loaded := true; jumpCfiRange := None;
                               rendered := rendered v ++ l |}).
  assert (v1 = if loaded v then shown_to [Some range] else set_jump v (Some range)) as Hv1.
  { subst v1 shown_to. unfold handleJumpFromCfi64. rewrite Hdec. cbn [rbind try_catch].
    unfold renderReader, set_jump. cbn [loaded jumpCfiRange rendered].
    by destruct (loaded v). }
  assert (v2 = shown_to (if loaded v then [Some range]
                         else match state_range state with
                              | Some other => [Some other; None]
                              | None => [Some range]
                              end)) as ->.
  { subst v2. rewrite Hv1. destruct (loaded v) eqn:Hl; [done|].
    unfold onLoadFile, state_range, set_jump. cbn [loaded jumpCfiRange rendered].
    destruct (Reader.truthy (state ≫= cfi64)) as [token|]; [|done].
    unfold handleJumpFromCfi64.
    destruct (base64UrlDecode token) as [other|e]; cbn [rbind try_catch]; [|done].
    unfold renderReader, set_jump, shown_to. cbn [loaded jumpCfiRange rendered].
    by rewrite <- app_assoc. }
  match goal with |- context [shown_to ?l] =>
    destruct (renderReader_later (shown_to l) later eq_refl eq_refl) as (H1 & H2 & _) end.
  rewrite H1, H2. subst shown_to. cbn [rendered]. rewrite <- app_assoc.
  split; [|split; [done|]].
  - f_equal. destruct (loaded v); [done|]. by destruct (state_range state).
  - intros Hl. rewrite Hv1, Hl. done.
Qed.

(** The view keeps the range of [QQ] while the book is read; the leaf has
    the token [Qg] in its state, and its range is the one rendered. *)
Lemma jump_rendered_once_witness :
  rendered (Nat.iter 2 renderReader
              (onLoadFile (handleJumpFromCfi64 opening_view (lit "QQ"))
                 (Some {| cfi64 := Some (lit "Qg"); subpath := None |})))
    = [Some (lit "B"); None; None; None].
Proof.
  apply (jump_rendered_once opening_view (lit "QQ") (lit "A")
           (Some {| cfi64 := Some (lit "Qg"); subpath := None |}) 2).
  reflexivity.
Defined.

End ViewFacts.

(** ** Numbers, notes and colours *)

Module NumberFacts.
Import Numbers Note BitFacts Base64Facts.

Lemma digits_of_digits fuel n acc :
  Forall (fun c => is_digit c = true) acc ->
  Forall (fun c => is_digit c = true) (digits_of fuel n acc).
Proof.
  revert n acc. induction fuel as [|fuel IH]; intros n acc Hacc; cbn [digits_of].
  - constructor; [|done]. unfold is_digit. change (chr "0") with 48. change (chr "9") with 57.
    pose proof (Z.mod_pos_bound n 10). lia.
  - assert (is_digit (chr "0" + n mod 10) = true) as Hd.
    { unfold is_digit. change (chr "0") with 48. change (chr "9") with 57.
      pose proof (Z.mod_pos_bound n 10). lia. }
    destruct (n <? 10); [by constructor|]. apply IH. by constructor.
Qed.

(** The text of an integer: digits, after a [-] when it is negative. *)
Lemma decimal_chars n :
  Forall (fun c => is_digit c = true \/ c = chr "-") (decimal n).
Proof.
  unfold decimal. destruct (n <? 0).
  - constructor; [by right|]. eapply Forall_impl; [by apply digits_of_digits|].
    intros c Hc. by left.
  - eapply Forall_impl; [by apply digits_of_digits|]. intros c Hc. by left.
Qed.

Lemma decimal_year n :
  1000 <= n <= 9999 ->
  length (decimal n) = 4%nat
  /\ undecimal (decimal n) = n
  /\ Forall (fun c => is_digit c = true) (decimal n).
Proof.
  intros Hn. unfold decimal. destruct (Z.ltb_spec n 0); [lia|].
  pose proof (Z.log2_le_mono 1000 n ltac:(lia)) as Hlog.
  change (Z.log2 1000) with 9 in Hlog.
  destruct (Z.to_nat (Z.log2 n)) as [|[|[|fuel]]] eqn:Hfuel; [lia..|].
  cbn [digits_of].
  destruct (Z.ltb_spec n 10); [lia|].
  destruct (Z.ltb_spec (n / 10) 10); [dlia|].
  destruct (Z.ltb_spec (n / 10 / 10) 10); [dlia|].
  assert (n / 10 / 10 / 10 < 10) by dlia.
  assert (forall f acc, digits_of f (n / 10 / 10 / 10) acc
                        = (chr "0" + (n / 10 / 10 / 10) mod 10) :: acc) as ->.
  { intros [|f] acc; cbn [digits_of]; [done|]. by destruct (Z.ltb_spec (n / 10 / 10 / 10) 10); [|lia]. }
  split; [done|]. split.
  - unfold undecimal. cbn [foldl]. change (chr "0") with 48. dlia.
  - unfold is_digit. change (chr "0") with 48. change (chr "9") with 57.
    repeat constructor; dlia.
Qed.

Lemma pad_field n :
  0 <= n <= 99 ->
  length (pad n) = 2%nat
  /\ undecimal (pad n) = n
  /\ Forall (fun c => is_digit c = true) (pad n).
Proof.
  intros Hn.
  pose proof (forall_range
    (fun n => bool_decide (length (pad n) = 2%nat /\ undecimal (pad n) = n
                           /\ Forall (fun c => is_digit c = true) (pad n)))
    0 100 ltac:(by vm_compute) n) as H.
  apply bool_decide_eq_true in H; [done|]. lia.
Qed.

Lemma pad_chars n : Forall (fun c => is_digit c = true \/ c = chr "-") (pad n).
Proof.
  unfold pad, padStart2. apply Forall_app. split; [|apply decimal_chars].
  apply Forall_forall. intros c Hc%list_elem_of_In%repeat_spec. subst c. by left.
Qed.

End NumberFacts.

Module NoteFacts.
Import Text TextFacts Numbers Note NumberFacts Selection SelectionFacts.

Lemma app_inj_length {A} (l1 k1 l2 k2 : list A) :
  length l1 = length k1 -> l1 ++ l2 = k1 ++ k2 -> l1 = k1 /\ l2 = k2.
Proof. intros Hlen Heq. by apply app_inj_1. Qed.

Lemma toTimestampId_shape d :
  calendar_time d ->
  exists day time,
    toTimestampId d = day ++ lit "-" ++ time
    /\ length day = 8%nat /\ length time = 6%nat
    /\ Forall (fun c => is_digit c = true) (day ++ time).
Proof.
  intros (Hy & Hm & Hd & Hh & Hi & Hs).
  destruct (decimal_year _ Hy) as (Ly & _ & Dy).
  destruct (pad_field (getMonth d + 1)) as (Lm & _ & Dm); [lia|].
  destruct (pad_field (getDate d)) as (Ld & _ & Dd); [lia|].
  destruct (pad_field (getHours d)) as (Lh & _ & Dh); [lia|].
  destruct (pad_field (getMinutes d)) as (Li & _ & Di); [lia|].
  destruct (pad_field (getSeconds d)) as (Ls & _ & Ds); [lia|].
  exists (decimal (getFullYear d) ++ pad (getMonth d + 1) ++ pad (getDate d)),
    (pad (getHours d) ++ pad (getMinutes d) ++ pad (getSeconds d)).
  split; [unfold toTimestampId; by rewrite <- !app_assoc|].
  rewrite !length_app, Ly, Lm, Ld, Lh, Li, Ls. split; [done|]. split; [done|].
  rewrite !Forall_app. done.
Qed.

(** X18. The time stamp of a date of the years 1000 to 9999 is eight
    digits, a [-] and six digits, and two dates with the same stamp are the
    same second. *)
Theorem toTimestampId_injective d1 d2 :
  calendar_time d1 ->
  calendar_time d2 ->
  (exists day time,
     toTimestampId d1 = day ++ lit "-" ++ time
     /\ length day = 8%nat /\ length time = 6%nat
     /\ Forall (fun c => is_digit c = true) (day ++ time))
  /\ (toTimestampId d1 = toTimestampId d2 -> d1 = d2).
Proof.
  intros Hd1 Hd2. split; [by apply toTimestampId_shape|].
  destruct Hd1 as (Hy1 & Hm1 & Hd1 & Hh1 & Hi1 & Hs1).
  destruct Hd2 as (Hy2 & Hm2 & Hd2 & Hh2 & Hi2 & Hs2).
  destruct (decimal_year _ Hy1) as (Ly1 & Uy1 & _).
  destruct (decimal_year _ Hy2) as (Ly2 & Uy2 & _).
  destruct (pad_field (getMonth d1 + 1)) as (Lm1 & Um1 & _); [lia|].
  destruct (pad_field (getMonth d2 + 1)) as (Lm2 & Um2 & _); [lia|].
  destruct (pad_field (getDate d1)) as (Ld1 & Ud1 & _); [lia|].
  destruct (pad_field (getDate d2)) as (Ld2 & Ud2 & _); [lia|].
  destruct (pad_field (getHours d1)) as (Lh1 & Uh1 & _); [lia|].
  destruct (pad_field (getHours d2)) as (Lh2 & Uh2 & _); [lia|].
  destruct (pad_field (getMinutes d1)) as (Li1 & Ui1 & _); [lia|].
  destruct (pad_field (getMinutes d2)) as (Li2 & Ui2 & _); [lia|].
  destruct (pad_field (getSeconds d1)) as (Ls1 & Us1 & _); [lia|].
  destruct (pad_field (getSeconds d2)) as (Ls2 & Us2 & _); [lia|].
  unfold toTimestampId. intros Heq.
  apply app_inj_length in Heq as [Ey Heq]; [|congruence].
  apply app_inj_length in Heq as [Em Heq]; [|congruence].
  apply app_inj_length in Heq as [Ed Heq]; [|congruence].
  apply app_inj_length in Heq as [_ Heq]; [|done].
  apply app_inj_length in Heq as [Eh Heq]; [|congruence].
  apply app_inj_length in Heq as [Ei Es]; [|congruence].
  destruct d1 as [y1 m1 a1 h1 i1 s1], d2 as [y2 m2 a2 h2 i2 s2]. cbn in *.
  f_equal; [congruence| |congruence..].
  assert (m1 + 1 = m2 + 1) by congruence. lia.
Qed.

Lemma toTimestampId_injective_witness :
  (exists day time,
     toTimestampId noon_2025 = day ++ lit "-" ++ time
     /\ length day = 8%nat /\ length time = 6%nat
     /\ Forall (fun c => is_digit c = true) (day ++ time))
  /\ (toTimestampId noon_2025 = toTimestampId midnight_2026 -> noon_2025 = midnight_2026).
Proof.
  apply (toTimestampId_injective noon_2025 midnight_2026).
  - unfold calendar_time. cbn. lia.
  - unfold calendar_time. cbn. lia.
Defined.

Lemma ends_with_suffix suffix s : ends_with suffix (s ++ suffix) = true.
Proof. unfold ends_with. rewrite rev_app_distr. apply starts_with_prefix. Qed.

Lemma unreserved_digit c : is_digit c = true \/ c = chr "-" -> is_reserved c = false.
Proof.
  intros [Hc| ->]; [|done]. unfold is_digit in Hc. change (chr "0") with 48 in Hc.
  change (chr "9") with 57 in Hc. unfold is_reserved.
  change (chr "/") with 47. change (chr ":") with 58. change (chr "*") with 42.
  change (chr "?") with 63. change (chr "<") with 60. change (chr ">") with 62.
  change (chr "|") with 124. lia.
Qed.

Lemma toTimestampId_unreserved d : Forall (fun c => is_reserved c = false) (toTimestampId d).
Proof.
  unfold toTimestampId. rewrite !Forall_app.
  repeat split;
    try (eapply Forall_impl; [apply pad_chars|cbv beta; apply unreserved_digit]);
    try (eapply Forall_impl; [apply decimal_chars|cbv beta; apply unreserved_digit]).
  by repeat constructor.
Qed.

(** X19. The name of the note that [createSelectionNote] writes has none
    of the characters [\ / : * ? < > |] and the double quote, whatever the
    name of the book and the selected text are; it ends in [.md]; and for a
    date of the years 1000 to 9999 it has at most 100 code units. *)
Theorem selection_note_name_safe basename text now :
  let name := selection_note_name basename text now in
  Forall (fun c => is_reserved c = false) name
  /\ ends_with (lit ".md") name = true
  /\ (calendar_time now -> (length name <= 100)%nat).
Proof.
  intros name. subst name. unfold selection_note_name.
  set (safeBook := match take 40 (sanitizeFileName (Some basename)) with
                   | [] => lit "Book" | s => s end).
  set (safeLabel := take 40 (sanitizeFileName (Some (selection_label text)))).
  assert (Forall (fun c => is_reserved c = false) safeBook /\ (length safeBook <= 40)%nat)
    as [Hbook Hblen].
  { subst safeBook.
    assert (length (take 40 (sanitizeFileName (Some basename))) <= 40)%nat as Hlen
      by (rewrite length_take; lia).
    destruct (take 40 (sanitizeFileName (Some basename))) as [|c s] eqn:Ht.
    - split; [by repeat constructor|]. change (length (lit "Book")) with 4%nat. lia.
    - split; [|done]. rewrite <- Ht. apply Forall_take.
      apply sanitizeFileName_unreserved. }
  assert (Forall (fun c => is_reserved c = false) safeLabel /\ (length safeLabel <= 40)%nat)
    as [Hlabel Hllen].
  { subst safeLabel. split; [|rewrite length_take; lia]. apply Forall_take.
    apply sanitizeFileName_unreserved. }
  pose proof (toTimestampId_unreserved now) as Hstamp.
  split; [|split].
  - destruct safeLabel; rewrite !Forall_app; repeat split; try done; by repeat constructor.
  - apply ends_with_suffix.
  - intros Hnow.
    destruct (toTimestampId_shape now Hnow) as (day & time & -> & Hday & Htime & _).
    destruct safeLabel; rewrite !length_app in *; cbn [length] in *;
      change (length (lit "-")) with 1%nat; change (length (lit ".md")) with 3%nat; lia.
Qed.

End NoteFacts.

Module ColorFacts.
Import Text TextFacts Numbers Color NumberFacts BitFacts Base64Facts.

Lemma is_hex_range c :
  is_hex c = true <->
  chr "0" <= c <= chr "9" \/ chr "a" <= c <= chr "f" \/ chr "A" <= c <= chr "F".
Proof.
  unfold is_hex, URI.hex_digit.
  change (chr "0") with 48. change (chr "9") with 57. change (chr "a") with 97.
  change (chr "f") with 102. change (chr "A") with 65. change (chr "F") with 70.
  destruct (Z.leb_spec 48 c), (Z.leb_spec c 57), (Z.leb_spec 97 c), (Z.leb_spec c 102),
    (Z.leb_spec 65 c), (Z.leb_spec c 70); cbn [andb]; split; try done; lia.
Qed.

Lemma lower_hex_range c :
  lower_hex c = true <-> chr "0" <= c <= chr "9" \/ chr "a" <= c <= chr "f".
Proof.
  unfold lower_hex.
  change (chr "0") with 48. change (chr "9") with 57. change (chr "a") with 97.
  change (chr "f") with 102. lia.
Qed.

(** Hexadecimal digits in lower case. *)
Lemma toLowerCase_hex hex :
  forallb is_hex hex = true ->
  Forall (fun c => lower_hex c = true) (toLowerCase_ascii hex)
  /\ length (toLowerCase_ascii hex) = length hex.
Proof.
  intros Hhex. split; [|apply length_map].
  unfold toLowerCase_ascii. apply Forall_forall. intros c Hc%list_elem_of_In%in_map_iff.
  destruct Hc as (d & <- & Hd). rewrite forallb_forall in Hhex. apply Hhex in Hd.
  apply is_hex_range in Hd. apply lower_hex_range.
  change (chr "0") with 48 in *. change (chr "9") with 57 in *. change (chr "a") with 97 in *.
  change (chr "f") with 102 in *. change (chr "A") with 65 in *. change (chr "F") with 70 in *.
  change (chr "Z") with 90.
  destruct (Z.leb_spec 65 d), (Z.leb_spec d 90); cbn [andb]; lia.
Qed.

Lemma lower_hex_fixed hex :
  Forall (fun c => lower_hex c = true) hex ->
  toLowerCase_ascii hex = hex
  /\ forallb is_hex hex = true
  /\ Forall (fun c => is_white_space c = false) hex.
Proof.
  induction 1 as [|c hex Hc _ (IH1 & IH2 & IH3)]; [done|].
  apply lower_hex_range in Hc.
  change (chr "0") with 48 in Hc. change (chr "9") with 57 in Hc.
  change (chr "a") with 97 in Hc. change (chr "f") with 102 in Hc.
  split; [|split].
  - unfold toLowerCase_ascii in *. cbn [map]. rewrite IH1. f_equal.
    change (chr "A") with 65. change (chr "Z") with 90.
    destruct (Z.leb_spec 65 c), (Z.leb_spec c 90); cbn [andb]; lia.
  - cbn [forallb]. rewrite IH2, andb_true_r. apply is_hex_range.
    change (chr "0") with 48. change (chr "9") with 57. change (chr "a") with 97.
    change (chr "f") with 102. lia.
  - constructor; [|done]. unfold is_white_space. lia.
Qed.

Lemma normalizeHexColor_Some input h :
  normalizeHexColor input = Some h ->
  exists hex,
    h = chr "#" :: hex /\ length hex = 6%nat /\ Forall (fun c => lower_hex c = true) hex.
Proof.
  unfold normalizeHexColor. destruct (trim (default [] input)) as [|c raw]; [done|].
  set (hex := if (length _ =? 3)%nat then _ else _).
  destruct (Nat.eqb_spec (length hex) 6) as [Hlen|]; [|done].
  destruct (forallb is_hex hex) eqn:Hhex; [|done]. cbn [andb].
  intros [= <-]. destruct (toLowerCase_hex hex Hhex) as [Hlow Hl].
  eexists. split; [done|]. split; [congruence|done].
Qed.

(** The form [#] and six hexadecimal digits in lower case is left as
    it is. *)
Lemma normalizeHexColor_fixed hex :
  length hex = 6%nat ->
  Forall (fun c => lower_hex c = true) hex ->
  normalizeHexColor (Some (chr "#" :: hex)) = Some (chr "#" :: hex).
Proof.
  intros Hlen Hlow. destruct (lower_hex_fixed hex Hlow) as (Hfix & Hhex & Hws).
  unfold normalizeHexColor. change (default [] (Some (chr "#" :: hex))) with (chr "#" :: hex).
  rewrite trim_fixed.
  - change (starts_with (lit "#") (chr "#" :: hex)) with true. cbv iota.
    change (drop 1 (chr "#" :: hex)) with hex. rewrite Hlen. cbn [Nat.eqb andb].
    by rewrite Hlen, Hhex, Hfix.
  - intros c Hc. cbn [head] in Hc. by injection Hc as <-.
  - intros c Hc. destruct hex as [|d hex]; [done|].
    change (last (chr "#" :: d :: hex)) with (last (d :: hex)) in Hc.
    apply (proj1 (Forall_forall _ _) Hws). apply last_Some in Hc as [l' ->].
    apply elem_of_app. right. by left.
Qed.

Lemma is_hex_not_space c : is_hex c = true -> is_white_space c = false.
Proof.
  intros Hc%is_hex_range.
  change (chr "0") with 48 in *. change (chr "9") with 57 in *. change (chr "a") with 97 in *.
  change (chr "f") with 102 in *. change (chr "A") with 65 in *. change (chr "F") with 70 in *.
  unfold is_white_space. lia.
Qed.

(** X16. A colour that [normalizeHexColor] accepts comes back in one
    form, [#] and six hexadecimal digits in lower case, and that form is
    left as it is.  The short form [#abc] of three hexadecimal digits is
    accepted and stands for [#aabbcc]. *)
Theorem normalizeHexColor_canonical input h :
  normalizeHexColor input = Some h ->
  (exists hex,
     h = chr "#" :: hex /\ length hex = 6%nat /\ Forall (fun c => lower_hex c = true) hex)
  /\ normalizeHexColor (Some h) = Some h
  /\ (forall a b c,
        is_hex a = true -> is_hex b = true -> is_hex c = true ->
        normalizeHexColor (Some [chr "#"; a; b; c])
          = Some (chr "#" :: toLowerCase_ascii [a; a; b; b; c; c])).
Proof.
  intros Hh. pose proof (normalizeHexColor_Some input h Hh) as (hex & -> & Hlen & Hlow).
  split; [by exists hex|]. split; [by apply normalizeHexColor_fixed|].
  intros a b c Ha Hb Hc. unfold normalizeHexColor.
  change (default [] (Some [chr "#"; a; b; c])) with [chr "#"; a; b; c].
  rewrite trim_fixed.
  - change (starts_with (lit "#") [chr "#"; a; b; c]) with true. cbv iota.
    change (drop 1 [chr "#"; a; b; c]) with [a; b; c].
    cbn [length Nat.eqb flat_map app forallb]. by rewrite Ha, Hb, Hc.
  - intros d Hd. cbn [head] in Hd. by injection Hd as <-.
  - intros d Hd. cbn [last] in Hd. injection Hd as <-. by apply is_hex_not_space.
Qed.

Lemma normalizeHexColor_canonical_witness :
  normalizeHexColor (Some (lit "#ffaa00")) = Some (lit "#ffaa00").
Proof.
  apply (normalizeHexColor_canonical (Some (lit " #FA0 ")) (lit "#ffaa00")). reflexivity.
Defined.

(** Two hexadecimal digits in lower case, read by [parseInt]. *)
Lemma parseInt16_pair a b :
  lower_hex a = true -> lower_hex b = true ->
  exists n, parseInt16 [a; b] = Some n /\ 0 <= n <= 255.
Proof.
  intros Ha%lower_hex_range Hb%lower_hex_range.
  change (chr "0") with 48 in *. change (chr "9") with 57 in *.
  change (chr "a") with 97 in *. change (chr "f") with 102 in *.
  set (check := fun a b =>
    match parseInt16 [a; b] with Some n => (0 <=? n) && (n <=? 255) | None => false end).
  set (all_b := fun a =>
    forallb (check a) ((fun k => 48 + Z.of_nat k) <$> seq 0 10)
    && forallb (check a) ((fun k => 97 + Z.of_nat k) <$> seq 0 6)).
  assert (all_b a = true) as Hall.
  { destruct Ha as [Ha|Ha].
    - apply (forall_range all_b 48 10); [by vm_compute|lia].
    - apply (forall_range all_b 97 6); [by vm_compute|lia]. }
  apply andb_true_iff in Hall as [H1 H2].
  assert (check a b = true) as Hcheck.
  { destruct Hb as [Hb|Hb].
    - apply (forall_range (check a) 48 10); [done|lia].
    - apply (forall_range (check a) 97 6); [done|lia]. }
  unfold check in Hcheck. destruct (parseInt16 [a; b]) as [n|]; [|done].
  exists n. split; [done|]. lia.
Qed.

(** X17. [hexToRgba] always writes three integers between 0 and 255:
    those of the colour when [normalizeHexColor] accepts it and 255, 215, 0
    (the default) when it does not; no [NaN] reaches the style sheet.
    Normalizing the colour beforehand, as the reader does, changes
    nothing. *)
Theorem hexToRgba_components hex alpha :
  (exists r g b,
     hexToRgba hex alpha = rgba r g b alpha
     /\ 0 <= r <= 255 /\ 0 <= g <= 255 /\ 0 <= b <= 255)
  /\ (normalizeHexColor hex = None -> hexToRgba hex alpha = rgba 255 215 0 alpha)
  /\ hexToRgba (Some (default DEFAULT_HIGHLIGHT_COLOR (normalizeHexColor hex))) alpha
     = hexToRgba hex alpha.
Proof.
  assert (exists h1 h2 h3 h4 h5 h6,
            default DEFAULT_HIGHLIGHT_COLOR (normalizeHexColor hex)
              = [chr "#"; h1; h2; h3; h4; h5; h6]
            /\ Forall (fun c => lower_hex c = true) [h1; h2; h3; h4; h5; h6]
            /\ normalizeHexColor (Some (default DEFAULT_HIGHLIGHT_COLOR (normalizeHexColor hex)))
               = Some (default DEFAULT_HIGHLIGHT_COLOR (normalizeHexColor hex))) as Hshape.
  { destruct (normalizeHexColor hex) as [h|] eqn:Hh.
    - destruct (normalizeHexColor_Some hex h Hh) as (l & -> & Hlen & Hlow).
      pose proof (normalizeHexColor_fixed l Hlen Hlow) as Hfix.
      destruct l as [|h1 [|h2 [|h3 [|h4 [|h5 [|h6 [|]]]]]]]; try done.
      by exists h1, h2, h3, h4, h5, h6.
    - exists (chr "f"), (chr "f"), (chr "d"), (chr "7"), (chr "0"), (chr "0").
      split; [done|]. split; [by repeat constructor|done]. }
  destruct Hshape as (h1 & h2 & h3 & h4 & h5 & h6 & Hnorm & Hlow & Hfix).
  split; [|split].
  - unfold hexToRgba. rewrite Hnorm.
    apply Forall_cons in Hlow as [L1 Hlow]. apply Forall_cons in Hlow as [L2 Hlow].
    apply Forall_cons in Hlow as [L3 Hlow]. apply Forall_cons in Hlow as [L4 Hlow].
    apply Forall_cons in Hlow as [L5 Hlow]. apply Forall_cons in Hlow as [L6 _].
    destruct (parseInt16_pair h1 h2 L1 L2) as (r & Hr & ?).
    destruct (parseInt16_pair h3 h4 L3 L4) as (g & Hg & ?).
    destruct (parseInt16_pair h5 h6 L5 L6) as (b & Hb & ?).
    exists r, g, b. split; [|done].
    change (take 2 (drop 1 [chr "#"; h1; h2; h3; h4; h5; h6])) with [h1; h2].
    change (take 2 (drop 3 [chr "#"; h1; h2; h3; h4; h5; h6])) with [h3; h4].
    change (take 2 (drop 5 [chr "#"; h1; h2; h3; h4; h5; h6])) with [h5; h6].
    by rewrite Hr, Hg, Hb.
  - intros Hnone. unfold hexToRgba. rewrite Hnone. reflexivity.
  - unfold hexToRgba. rewrite Hfix. done.
Qed.

End ColorFacts.

(** ** The folder of a note *)

Module FolderFacts.
Import Folders.

(** Sets compared element by element. *)
Ltac by_elements := try (apply set_eq; intros ?); set_unfold; intuition congruence.

Lemma filter_agree {A} (P Q : A -> Prop) `{forall x, Decision (P x)} `{forall x, Decision (Q x)}
    (l : list A) :
  (forall x, x ∈ l -> P x <-> Q x) -> filter P l = filter Q l.
Proof.
  induction l as [|x l IH]; intros Hl; [done|].
  rewrite !filter_cons. rewrite IH by (intros y Hy; apply Hl; by right).
  destruct (decide (P x)) as [HP|HP], (decide (Q x)) as [HQ|HQ]; try done;
    exfalso; apply (Hl x ltac:(by left)) in HP || apply (Hl x ltac:(by left)) in HQ; done.
Qed.

(** Every folder on the way is longer than the one before it. *)
Lemma ancestors_longer current parts q :
  Forall (fun part => part <> []) parts ->
  q ∈ ancestors current parts -> (length current < length q)%nat.
Proof.
  intros Hparts. revert current. induction Hparts as [|part parts Hpart _ IH]; intros current;
    cbn [ancestors]; [by intros ?%elem_of_nil|].
  set (next := match current with [] => part | _ => current ++ lit "/" ++ part end).
  assert (length current < length next)%nat as Hnext.
  { subst next. destruct current.
    - destruct part; [done|]. cbn [length]. apply Nat.lt_0_succ.
    - rewrite !length_app. change (length (lit "/")) with 1%nat. lia. }
  intros [Heq|Hq%IH]%elem_of_cons; [by rewrite Heq|]. by etrans.
Qed.

Lemma ensure_parts current v parts :
  Forall (fun part => part <> []) parts ->
  let v' := (foldl ensure_part (current, v) parts).2 in
  existing v' = existing v ∪ list_to_set (ancestors current parts)
  /\ created v' = created v ++ filter (fun q => q ∉ existing v) (ancestors current parts).
Proof.
  intros Hparts. revert current v.
  induction Hparts as [|part parts Hpart Hparts IH]; intros current v.
  - cbn [foldl ancestors snd list_to_set filter list_filter]. rewrite app_nil_r.
    split; [by_elements|done].
  - cbn [foldl ancestors]. cbv zeta.
    set (next := match current return jsstring with
                 | [] => part
                 | _ => current ++ lit "/" ++ part
                 end).
    pose (v1 := if getAbstractFileByPath v next then v else createFolder next v).
    change (ensure_part (current, v) part) with (@pair jsstring Vault next v1).
    clearbody next.
    destruct (IH next v1) as [Hex Hcr]. cbv zeta. rewrite Hex, Hcr.
    assert (filter (fun q => q ∉ existing v1) (ancestors next parts)
            = filter (fun q => q ∉ existing v) (ancestors next parts)) as ->.
    { apply filter_agree. intros q Hq.
      pose proof (ancestors_longer next parts q Hparts Hq) as Hlen.
      subst v1. unfold getAbstractFileByPath, createFolder.
      case_bool_decide; [done|]. cbn [existing].
      assert (q <> next) by (intros ->; lia). by_elements. }
    rewrite list_to_set_cons, filter_cons.
    subst v1. unfold getAbstractFileByPath, createFolder.
    case_bool_decide as Hin; cbn [existing created].
    + rewrite decide_False by (by intros ?). split; [by_elements|done].
    + rewrite decide_True by done. split; [by_elements|]. by rewrite <- app_assoc.
Qed.

Lemma split_slash_parts normalized :
  Forall (fun part => part <> []) (filter (fun part => part <> []) (split_slash normalized)).
Proof. apply Forall_forall. by intros part [? _]%list_elem_of_filter. Qed.

(** [ensureFolder] in closed form. *)
Lemma ensureFolder_closed normalizePath v folderPath :
  let v' := ensureFolder normalizePath v folderPath in
  let folders := ancestors [] (parts_of (normalizePath folderPath)) in
  existing v' = existing v ∪ list_to_set folders
  /\ created v' = created v ++ filter (fun q => q ∉ existing v) folders.
Proof.
  intros v' folders. subst v' folders. unfold ensureFolder, parts_of.
  destruct (drop_while _ (normalizePath folderPath)) as [|c normalized] eqn:Hn.
  - cbn. split; [by_elements|by rewrite app_nil_r].
  - apply ensure_parts, split_slash_parts.
Qed.

(** X21. [ensureFolder] creates the folders on the way to the target that
    are missing, top down, and nothing else: afterwards each of them
    exists, what existed still exists, and a second call creates
    nothing. *)
Theorem ensureFolder_creates_missing normalizePath v folderPath :
  let v' := ensureFolder normalizePath v folderPath in
  let folders := ancestors [] (parts_of (normalizePath folderPath)) in
  existing v' = existing v ∪ list_to_set folders
  /\ created v' = created v ++ filter (fun q => q ∉ existing v) folders
  /\ created (ensureFolder normalizePath v' folderPath) = created v'
  /\ existing (ensureFolder normalizePath v' folderPath) = existing v'.
Proof.
  intros v' folders.
  destruct (ensureFolder_closed normalizePath v folderPath) as [Hex Hcr].
  destruct (ensureFolder_closed normalizePath v' folderPath) as [Hex' Hcr'].
  fold v' folders in Hex, Hcr, Hex', Hcr'.
  split; [done|]. split; [done|]. split.
  - rewrite Hcr'.
    assert (filter (fun q => q ∉ existing v') folders = []) as ->; [|by rewrite app_nil_r].
    assert (forall q, q ∈ folders -> q ∈ existing v') as Hall.
    { intros q Hq. rewrite Hex. apply elem_of_union_r. by apply elem_of_list_to_set. }
    clear -Hall. induction folders as [|q folders IH]; [done|].
    rewrite filter_cons_False by (intros Hnot; apply Hnot, Hall; by left).
    apply IH. intros q' Hq'. apply Hall. by right.
  - rewrite Hex', Hex. by_elements.
Qed.

End FolderFacts.

(** ** Progress across a rename, and an empty reconciliation *)

Module ViewProgressFacts.
Import Progress ProgressFacts ViewProgress.

(** X20. Progress follows a renamed book.  The reader reports a location
    for a book and the book is renamed; the old key is no name that the
    prototype chain knows and the new key reads as nothing.  Opened under
    the new name the book starts at that location, and the old name starts
    at 0 again. *)
Theorem progress_follows_rename normalizePath st oldPath newPath loc now :
  read st (normalizeProgressKey normalizePath newPath) = None ->
  inherited st (normalizeProgressKey normalizePath oldPath) = None ->
  normalizeProgressKey normalizePath newPath <> normalizeProgressKey normalizePath oldPath ->
  let st' := onRenameFile normalizePath (setProgress normalizePath st oldPath loc now)
               newPath oldPath in
  initialLocation normalizePath st' newPath = loc
  /\ initialLocation normalizePath st' oldPath = LocNumber 0.
Proof.
  intros Hnew Hold Hne st'. subst st'.
  set (ko := normalizeProgressKey normalizePath oldPath) in *.
  set (kn := normalizeProgressKey normalizePath newPath) in *.
  set (rec := {| location := loc; updatedAt := now |}).
  set (st0 := setProgress normalizePath st oldPath loc now).
  assert (ko <> lit "__proto__") as Hproto.
  { intros Heq. rewrite Heq in Hold.
    destruct (inherited_accessor st) as [? Hacc]. congruence. }
  destruct (setProgress_own normalizePath st oldPath loc now Hproto) as [Hown0 Hp0].
  fold ko rec st0 in Hown0, Hp0.
  assert (read st0 ko = Some (VRecord rec)) as Hr0 by apply setProgress_read.
  apply read_None in Hnew as [Hnown Hninh].
  assert (read st0 kn = None) as Hr0n.
  { apply read_None. rewrite Hown0, lookup_insert_ne by done. split; [done|].
    unfold inherited in *. by rewrite Hp0. }
  destruct (onRenameFile_progress normalizePath st0 newPath oldPath) as (Hprog & Hp & _).
  fold ko kn in Hprog. rewrite Hr0, Hr0n in Hprog.
  unfold initialLocation, getProgress. fold ko kn. split.
  - rewrite (read_own _ kn (VRecord rec)); [done|].
    rewrite Hprog, lookup_delete_ne, lookup_insert_eq by done. done.
  - assert (read (onRenameFile normalizePath st0 newPath oldPath) ko = None) as ->; [|done].
    apply read_None. rewrite Hprog, lookup_delete_eq. split; [done|].
    unfold inherited in *. by rewrite Hp, Hp0.
Qed.

Lemma progress_follows_rename_witness :
  initialLocation trim_slashes
    (onRenameFile trim_slashes
       (setProgress trim_slashes store_A (lit "A/Book.epub") (LocString Reader.point_cfi) 7)
       (lit "B/Book.epub") (lit "A/Book.epub"))
    (lit "B/Book.epub")
  = LocString Reader.point_cfi.
Proof.
  apply (progress_follows_rename trim_slashes store_A (lit "A/Book.epub") (lit "B/Book.epub")).
  - reflexivity.
  - reflexivity.
  - intros H. vm_compute in H. discriminate H.
Defined.

End ViewProgressFacts.

Module ReconcilerEdgeFacts.
Import Resolver Reader ReconcilerFacts.

(** X22. When the resolver finds no descriptor any more, reconciling
    takes the tracked backlink annotations off the surface and leaves what
    else is on it. *)
Theorem reconcile_empty_clears r added others :
  marks r ≡ₚ others ++ added ->
  let '(r1, added1) := applyBacklinkHighlights r added [] in
  added1 = [] /\ marks r1 ≡ₚ others.
Proof.
  intros Hmarks. rewrite applyBacklinkHighlights_spec. cbn [marks set_marks].
  split; [done|]. unfold valid_capped. cbn.
  rewrite (remove_all_perm added _ (others ++ added)) by done.
  apply remove_all_app.
Qed.

Lemma reconcile_empty_clears_witness :
  let r := set_marks blank_rendition [lit "own"; range_cfi] in
  let '(r1, added1) := applyBacklinkHighlights r [range_cfi] [] in
  added1 = [] /\ marks r1 ≡ₚ [lit "own"].
Proof.
  apply (reconcile_empty_clears (set_marks blank_rendition [lit "own"; range_cfi])
           [range_cfi] [lit "own"]).
  reflexivity.
Defined.

End ReconcilerEdgeFacts.
